(** * Bug-Fixing-AI-Assistant: detector engine and fix pipeline

    A shallow embedding of the scanner ([scanner/core/scanner.py],
    [scanner/core/report.py], [scanner/detectors/*.py], [main.py]), of the
    fixer ([fixer/generators/fix_generator.py],
    [fixer/generators/patch_generator.py],
    [fixer/validators/fix_validator.py], [fixer/fix_applicator.py]) and of
    the settings ([config.py]), followed by the properties proved about them.

    Conventions of the embedding:
    - a Python [str] is a [string]; its characters are the code points 0..255;
    - a Python [int] is a [Z];
    - a [dict] with a fixed set of keys is a record whose fields are options
      ([d.get(k)] is the field, [None] when the key is absent);
    - a call that may raise returns an [outcome];
    - the file system is a finite map from path strings to entries, and a
      path names a file by its text (no links, no normalisation);
    - text printed on standard output is not modelled. *)

From Stdlib Require Import ZArith QArith Ascii String List Bool Lia.
From stdpp Require Import base option list gmap strings pretty sorting.

Close Scope Q_scope.
Open Scope string_scope.
Open Scope Z_scope.

(** ** Outcomes of calls that may raise *)

(** [Raise msg] is an exception (a subclass of [Exception]) whose [str(e)]
    is [msg]. *)
Inductive outcome (A : Type) : Type :=
| Return (a : A)
| Raise (msg : string).
Arguments Return {A} a.
Arguments Raise {A} msg.

Global Instance outcome_ret : MRet outcome := @Return.

Global Instance outcome_bind : MBind outcome := λ A B k m,
  match m with
  | Return a => k a
  | Raise e => Raise e
  end.

(** ** Python strings *)

Module py.

Definition LF : ascii := ascii_of_nat 10.
Definition CR : ascii := ascii_of_nat 13.

(** The line boundaries of [str.splitlines] among the code points 0..255:
    \n, \v, \f, \r, \x1c, \x1d, \x1e and \x85. *)
Definition is_linebreak (c : ascii) : bool :=
  bool_decide (nat_of_ascii c ∈ [10; 11; 12; 13; 28; 29; 30; 133]%nat).

(** [s.splitlines(keepends=True)]: \r\n is one boundary. *)
Fixpoint splitlines (s : string) : list string :=
  match s with
  | EmptyString => []
  | String c s' =>
      if is_linebreak c then
        match s' with
        | String c2 s'' =>
            if bool_decide (c = CR) && bool_decide (c2 = LF)
            then String c (String c2 EmptyString) :: splitlines s''
            else String c EmptyString :: splitlines s'
        | EmptyString => [String c EmptyString]
        end
      else
        match splitlines s' with
        | [] => [String c EmptyString]
        | l :: ls => String c l :: ls
        end
  end.

(** ["".join(lines)] *)
Definition join (lines : list string) : string :=
  foldr String.append EmptyString lines.

(** [s.startswith(p)] *)
Fixpoint startswith (p s : string) : bool :=
  match p, s with
  | EmptyString, _ => true
  | String a p', String b s' => bool_decide (a = b) && startswith p' s'
  | String _ _, EmptyString => false
  end.

(** [s.endswith("\n")] *)
Fixpoint endswith_LF (s : string) : bool :=
  match s with
  | EmptyString => false
  | String c EmptyString => bool_decide (c = LF)
  | String _ s' => endswith_LF s'
  end.

(** [sub in s] *)
Fixpoint contains (sub s : string) : bool :=
  startswith sub s ||
  match s with
  | EmptyString => false
  | String _ s' => contains sub s'
  end.

(** [s.replace(old, new)] for a non-empty [old]: the occurrences of [old]
    are found left to right and do not overlap.  [skip] counts the
    characters of an occurrence still to be dropped. *)
Fixpoint replace_from (old new : string) (skip : nat) (s : string) : string :=
  match s with
  | EmptyString => EmptyString
  | String c s' =>
      match skip with
      | S k => replace_from old new k s'
      | O =>
          if startswith old s
          then new +:+ replace_from old new (String.length old - 1) s'
          else String c (replace_from old new 0 s')
      end
  end.

Definition replace (old new s : string) : string := replace_from old new 0 s.

(** [s.replace("", new)]: [new] before every character and at the end *)
Fixpoint replace_empty (new s : string) : string :=
  match s with
  | EmptyString => new
  | String c s' => new +:+ String c (replace_empty new s')
  end.

(** [s.replace(old, new)] for any [old] *)
Definition replace_any (old new s : string) : string :=
  match old with
  | EmptyString => replace_empty new s
  | String _ _ => replace old new s
  end.

(** [s.split(".")] *)
Fixpoint split_dot (s : string) : list string :=
  match s with
  | EmptyString => [EmptyString]
  | String c s' =>
      if bool_decide (c = "."%char) then EmptyString :: split_dot s'
      else
        match split_dot s' with
        | word :: words => String c word :: words
        | [] => [String c EmptyString]
        end
  end.

(** [s] between two double quotes *)
Definition quoted (s : string) : string :=
  String (ascii_of_nat 34) (s +:+ String (ascii_of_nat 34) EmptyString).

(** [str(n)] for an int *)
Definition str_int (n : Z) : string := pretty n.

(** [str(x)] inside an f-string for a value that may be [None] *)
Definition str_opt {A : Type} (f : A → string) (x : option A) : string :=
  match x with
  | Some a => f a
  | None => "None"
  end.

(** Truth value of an optional string: [None] and [""] are false. *)
Definition truthy_str (x : option string) : bool :=
  match x with
  | Some (String _ _) => true
  | _ => false
  end.

(** Truth value of an optional int: [None] and [0] are false. *)
Definition truthy_int (x : option Z) : bool :=
  match x with
  | Some n => negb (n =? 0)
  | None => false
  end.

End py.

(** ** Data contracts *)

(** An issue dictionary.  Every detector fills all five keys; the scanner's
    [scan_error] has no ['line']. *)
Record Issue : Type := mkIssue {
  issue_file : option string;
  issue_line : option Z;
  issue_type : option string;
  issue_message : option string;
  issue_severity : option string
}.

Global Instance Issue_eq_dec : EqDecision Issue.
Proof. solve_decision. Defined.

(** One entry of a fix's ['changes'] list. *)
Record Change : Type := mkChange {
  line_number : option Z;
  old_code : option string;
  new_code : option string
}.

Global Instance Change_eq_dec : EqDecision Change.
Proof. solve_decision. Defined.

(** A fix dictionary.  [fix_issue] is [fix.get("issue", {})]: a missing
    issue is the issue with no key. *)
Record Fix : Type := mkFix {
  fix_issue : Issue;
  fix_type : option string;
  description : option string;
  suggestion : option string;
  changes : list Change;
  automated : option bool
}.

Global Instance Fix_eq_dec : EqDecision Fix.
Proof. solve_decision. Defined.

(** ** The Python runtime the code calls *)

(** A [SyntaxError]: [e.msg], [e.lineno], [e.offset]. *)
Record SyntaxError : Type := mkSyntaxError {
  se_msg : string;
  se_lineno : option Z;
  se_offset : option Z
}.

(** ** Syntax trees *)

Module ast.

(** The value of an [ast.Constant].  A float literal is given by the
    rational it denotes and by its [repr]; bytes, complex numbers and
    [Ellipsis] are [COther]. *)
Inductive constant : Type :=
| CNone
| CBool (b : bool)
| CInt (z : Z)
| CFloat (q : Q) (repr : string)
| CStr (s : string)
| COther.

Inductive cmpop : Type :=
| Eq | NotEq | Lt | LtE | Gt | GtE | Is | IsNot | In | NotIn.

(** The class of a node together with its attributes that are not nodes.
    Operator and expression-context objects have no fields, no position and
    no visitor method in any detector; they are kept as attributes
    ([Compare]) or left out.  [Set_] is [ast.Set]; [Other] is any class no
    detector names. *)
Inductive kind : Type :=
| Module
| FunctionDef (name : string)
| AsyncFunctionDef (name : string)
| ClassDef (name : string)
| arguments
| arg (name : string)
| If | For | While | With | Try
| ExceptHandler
| Assert
| Assign
| Expr
| Import
| ImportFrom (module : option string)
| alias (name : string)
| Compare (ops : list cmpop)
| Call
| Name (id : string)
| Attribute (attr : string)
| Constant (value : constant)
| List | Dict | Set_
| Other (cls : string).

(** A node: its class, its [lineno] (0 for the classes that carry no
    position), the class of the object stored in its instance attribute
    [parent] when the node has such an attribute, and its fields in the
    order of [_fields].  A field holds the nodes of its value: one node, the
    nodes of a list, or none for [None]. *)
#[local] Unset Elimination Schemes.
Inductive node : Type :=
| Node (cls : kind) (lineno : Z) (parent : option kind)
       (fields : list (string * list node)).
#[local] Set Elimination Schemes.

Definition node_cls (n : node) : kind := let 'Node k _ _ _ := n in k.
Definition node_lineno (n : node) : Z := let 'Node _ l _ _ := n in l.
Definition node_parent (n : node) : option kind := let 'Node _ _ p _ := n in p.
Definition node_fields (n : node) : list (string * list node) :=
  let 'Node _ _ _ fs := n in fs.

(** [getattr(n, name)] for a field: the nodes it holds. *)
Definition field (name : string) (n : node) : list node :=
  match List.find (λ f, bool_decide (fst f = name)) (node_fields n) with
  | Some f => snd f
  | None => []
  end.

(** The nodes [generic_visit] visits, in order. *)
Definition children (n : node) : list node :=
  concat (map snd (node_fields n)).

Definition is_FunctionDef (n : node) : bool :=
  match node_cls n with FunctionDef _ => true | _ => false end.

(** Every node of the tree, parents before children, in visiting order. *)
Fixpoint nodes (n : node) : list node :=
  n :: match n with
       | Node _ _ _ fs =>
           (fix in_fields (fs : list (string * list node)) : list node :=
              match fs with
              | [] => []
              | (_, ns) :: fs' =>
                  ((fix in_list (ns : list node) : list node :=
                     match ns with
                     | [] => []
                     | c :: ns' => (nodes c ++ in_list ns')%list
                     end) ns ++ in_fields fs')%list
              end) fs
       end.

(** No node of the tree has a [parent] attribute. *)
Definition no_parent_attribute (n : node) : Prop :=
  Forall (λ m, node_parent m = None) (nodes n).

(** [ast.NodeVisitor]: [visit] dispatches on the class of the node.  Every
    [visit_X] method of the detectors runs some code, calls
    [self.generic_visit(node)] once and runs some more code; a class
    without a method goes to [generic_visit] directly.  [enter] is the
    code before the call and [leave] the code after it, which also sees
    the visitor as it was when the method was entered. *)
Section NodeVisitor.
Context {V : Type}.
Variable enter : node → V → V.
Variable leave : node → V → V → V.

Fixpoint visit (n : node) (v : V) {struct n} : V :=
  match n with
  | Node _ _ _ fs =>
      leave n v
        ((fix generic_visit (fs : list (string * list node)) (v : V) : V :=
            match fs with
            | [] => v
            | (_, ns) :: fs' =>
                generic_visit fs'
                  ((fix visit_list (ns : list node) (v : V) : V :=
                      match ns with
                      | [] => v
                      | c :: ns' => visit_list ns' (visit c v)
                      end) ns v)
            end) fs (enter n v))
  end.

Definition generic_visit (n : node) (v : V) : V :=
  foldl (λ v c, visit c v) v (children n).
End NodeVisitor.

End ast.

(** The result of [ast.parse(content)]: a tree, a [SyntaxError], or another
    exception (a [ValueError] for a null byte, a [RecursionError], ...). *)
Inductive parse_result : Type :=
| Parsed (tree : ast.node)
| ParseSyntaxError (e : SyntaxError)
| ParseException (msg : string).

(** What the code takes from the Python runtime without the embedding
    defining it: the parser, [inspect.cleandoc] (through
    [ast.get_docstring]) and [Path.rglob].  The parser builds plain nodes:
    none of them has an attribute [parent]. *)
Class Runtime : Type := {
  ast_parse : string → parse_result;
  cleandoc : string → string;
  rglob : string → string → list string;
  ast_parse_plain :
    ∀ content tree, ast_parse content = Parsed tree → ast.no_parent_attribute tree
}.

(** ** [difflib.unified_diff] of the standard library

    The part of CPython's [Lib/difflib.py] that
    [unified_diff(a, b, fromfile, tofile, lineterm="")] runs:
    [SequenceMatcher(None, a, b)] with [autojunk] on, its opcodes grouped with
    three lines of context, and the text of the hunks.  Indices are naturals;
    no element is junk ([isjunk] is [None]), so the two loops that extend a
    match over junk never run and are left out. *)

Module difflib.
Local Open Scope nat_scope.

(** [Match(a, b, size)] *)
Definition Match : Type := nat * nat * nat.

Inductive tag : Type := replace | delete | insert | equal.

Global Instance tag_eq_dec : EqDecision tag.
Proof. solve_decision. Defined.

(** [(tag, i1, i2, j1, j2)] *)
Definition opcode : Type := tag * nat * nat * nat * nat.

Section SequenceMatcher.
Variables a b : list string.

(** [__chain_b]: for every line of [b] the indices where it occurs, in
    increasing order; when [b] has 200 lines or more, the lines that
    occur more than [len(b) // 100 + 1] times are dropped. *)
Definition b2j : gmap string (list nat) :=
  let all :=
    foldl (λ (m : gmap string (list nat)) '(i, elt),
             <[elt := (default [] (m !! elt) ++ [i])%list]> m)
          ∅ (imap pair b) in
  let n := length b in
  if bool_decide (200 ≤ n)
  then filter (λ e, ¬ (n `div` 100 + 1 < length (snd e))) all
  else all.

(** The loop [for j in b2j.get(a[i], nothing)] of [find_longest_match]:
    the best match so far and [newj2len].  [i - k + 1] is written
    [i + 1 - k]: a match that ends at [i] is no longer than [i + 1]. *)
Fixpoint scan_row (i blo bhi : nat) (j2len : gmap nat nat) (js : list nat)
    (best : Match) (newj2len : gmap nat nat) : Match * gmap nat nat :=
  match js with
  | [] => (best, newj2len)
  | j :: js' =>
      if bool_decide (j < blo) then scan_row i blo bhi j2len js' best newj2len
      else if bool_decide (bhi ≤ j) then (best, newj2len)
      else
        let k := match j with
                 | O => 0
                 | S j' => default 0 (j2len !! j')
                 end + 1 in
        let newj2len := <[j := k]> newj2len in
        let best := if bool_decide (snd best < k)
                    then (i + 1 - k, j + 1 - k, k) else best in
        scan_row i blo bhi j2len js' best newj2len
  end.

(** The loop [for i in range(alo, ahi)]. *)
Definition scan_rows (alo ahi blo bhi : nat) : Match :=
  fst (foldl (λ '(best, j2len) i,
                match a !! i with
                | Some line =>
                    scan_row i blo bhi j2len (default [] (b2j !! line)) best ∅
                | None => (best, ∅)
                end)
             ((alo, blo, 0), ∅) (seq alo (ahi - alo))).

(** The first [while]: the match grows to the left. *)
Fixpoint extend_left (alo blo besti bestj bestsize : nat) : Match :=
  match besti, bestj with
  | S i', S j' =>
      if bool_decide (alo < besti) && bool_decide (blo < bestj)
         && bool_decide (a !! i' = b !! j')
      then extend_left alo blo i' j' (bestsize + 1)
      else (besti, bestj, bestsize)
  | _, _ => (besti, bestj, bestsize)
  end.

(** The second [while]: the match grows to the right.  [room] is
    [ahi - (besti + bestsize)], the number of rounds the first test of the
    loop allows. *)
Fixpoint extend_right (room bhi besti bestj bestsize : nat) : Match :=
  match room with
  | O => (besti, bestj, bestsize)
  | S room' =>
      if bool_decide (bestj + bestsize < bhi)
         && bool_decide (a !! (besti + bestsize) = b !! (bestj + bestsize))
      then extend_right room' bhi besti bestj (bestsize + 1)
      else (besti, bestj, bestsize)
  end.

Definition find_longest_match (alo ahi blo bhi : nat) : Match :=
  let '(besti, bestj, bestsize) := scan_rows alo ahi blo bhi in
  let '(besti, bestj, bestsize) := extend_left alo blo besti bestj bestsize in
  extend_right (ahi - (besti + bestsize)) bhi besti bestj bestsize.

(** The loop [while queue] of [get_matching_blocks].  A round takes a
    range off the queue and puts back ranges that together are shorter by
    the match found, so [2 * len(a) + 1] rounds empty the queue; [rounds]
    starts there. *)
Fixpoint match_queue (rounds : nat) (queue : list (nat * nat * nat * nat))
    (matching_blocks : list Match) : list Match :=
  match rounds, reverse queue with
  | S rounds', (alo, ahi, blo, bhi) :: rest =>
      let queue := reverse rest in
      let '(i, j, k) := find_longest_match alo ahi blo bhi in
      if bool_decide (k = 0) then match_queue rounds' queue matching_blocks
      else
        let matching_blocks := (matching_blocks ++ [(i, j, k)])%list in
        let queue :=
          if bool_decide (alo < i) && bool_decide (blo < j)
          then (queue ++ [(alo, i, blo, j)])%list else queue in
        let queue :=
          if bool_decide (i + k < ahi) && bool_decide (j + k < bhi)
          then (queue ++ [(i + k, ahi, j + k, bhi)])%list else queue in
        match_queue rounds' queue matching_blocks
  | _, _ => matching_blocks
  end.

(** The order of [matching_blocks.sort()] on triples. *)
Definition Match_le (x y : Match) : Prop :=
  let '(i1, j1, k1) := x in
  let '(i2, j2, k2) := y in
  i1 < i2 ∨ (i1 = i2 ∧ (j1 < j2 ∨ (j1 = j2 ∧ k1 ≤ k2))).

Global Instance Match_le_dec x y : Decision (Match_le x y).
Proof. destruct x as [[??]?], y as [[??]?]; simpl; apply _. Defined.

(** The loop that joins adjacent blocks: [(i1, j1, k1)] is the block
    still open. *)
Fixpoint collapse (blocks : list Match) (i1 j1 k1 : nat)
    (non_adjacent : list Match) : list Match :=
  match blocks with
  | [] =>
      let non_adjacent :=
        if bool_decide (k1 ≠ 0) then (non_adjacent ++ [(i1, j1, k1)])%list
        else non_adjacent in
      (non_adjacent ++ [(length a, length b, 0)])%list
  | (i2, j2, k2) :: blocks' =>
      if bool_decide (i1 + k1 = i2) && bool_decide (j1 + k1 = j2)
      then collapse blocks' i1 j1 (k1 + k2) non_adjacent
      else
        let non_adjacent :=
          if bool_decide (k1 ≠ 0) then (non_adjacent ++ [(i1, j1, k1)])%list
          else non_adjacent in
        collapse blocks' i2 j2 k2 non_adjacent
  end.

Definition get_matching_blocks : list Match :=
  let la := length a in
  let lb := length b in
  let matching_blocks := match_queue (2 * la + 1) [(0, la, 0, lb)] [] in
  collapse (merge_sort Match_le matching_blocks) 0 0 0 [].

(** The loop of [get_opcodes] *)
Fixpoint opcodes_from (blocks : list Match) (i j : nat) (answer : list opcode)
    : list opcode :=
  match blocks with
  | [] => answer
  | (ai, bj, size) :: blocks' =>
      let answer :=
        if bool_decide (i < ai) && bool_decide (j < bj)
        then (answer ++ [(replace, i, ai, j, bj)])%list
        else if bool_decide (i < ai) then (answer ++ [(delete, i, ai, j, bj)])%list
        else if bool_decide (j < bj) then (answer ++ [(insert, i, ai, j, bj)])%list
        else answer in
      let i := ai + size in
      let j := bj + size in
      let answer :=
        if bool_decide (size ≠ 0) then (answer ++ [(equal, ai, i, bj, j)])%list
        else answer in
      opcodes_from blocks' i j answer
  end.

Definition get_opcodes : list opcode := opcodes_from get_matching_blocks 0 0 [].

Definition op_tag (c : opcode) : tag := let '(t, _, _, _, _) := c in t.

(** [codes[0] = ...] and [codes[-1] = ...] of [get_grouped_opcodes] *)
Definition fix_first (n : nat) (codes : list opcode) : list opcode :=
  match codes with
  | (equal, i1, i2, j1, j2) :: rest =>
      (equal, i1 `max` (i2 - n), i2, j1 `max` (j2 - n), j2) :: rest
  | _ => codes
  end.

Definition fix_last (n : nat) (codes : list opcode) : list opcode :=
  match reverse codes with
  | (equal, i1, i2, j1, j2) :: rest =>
      (reverse rest ++ [(equal, i1, i2 `min` (i1 + n), j1, j2 `min` (j1 + n))])%list
  | _ => codes
  end.

(** The loop of [get_grouped_opcodes]: the groups yielded so far and the
    group being filled. *)
Fixpoint group_from (n : nat) (codes : list opcode)
    (groups : list (list opcode)) (group : list opcode) : list (list opcode) :=
  match codes with
  | [] =>
      match group with
      | [] => groups
      | [(equal, _, _, _, _)] => groups
      | _ => (groups ++ [group])%list
      end
  | (t, i1, i2, j1, j2) :: codes' =>
      if bool_decide (t = equal) && bool_decide (n + n < i2 - i1)
      then
        let group := (group ++ [(t, i1, i2 `min` (i1 + n), j1, j2 `min` (j1 + n))])%list in
        let groups := (groups ++ [group])%list in
        let i1 := i1 `max` (i2 - n) in
        let j1 := j1 `max` (j2 - n) in
        group_from n codes' groups [(t, i1, i2, j1, j2)]
      else group_from n codes' groups (group ++ [(t, i1, i2, j1, j2)])%list
  end.

Definition get_grouped_opcodes (n : nat) : list (list opcode) :=
  let codes := get_opcodes in
  let codes := match codes with [] => [(equal, 0, 1, 0, 1)] | _ => codes end in
  group_from n (fix_last n (fix_first n codes)) [] [].

(** [a[i1:i2]] *)
Definition slice (l : list string) (i1 i2 : nat) : list string :=
  take (i2 - i1) (drop i1 l).

Definition _format_range_unified (start stop : nat) : string :=
  let beginning := start + 1 in
  let length := stop - start in
  if bool_decide (length = 1) then pretty beginning
  else
    let beginning := if bool_decide (length = 0) then beginning - 1 else beginning in
    pretty beginning +:+ "," +:+ pretty length.

(** The lines of one opcode *)
Definition opcode_lines (c : opcode) : list string :=
  let '(t, i1, i2, j1, j2) := c in
  match t with
  | equal => map (String.append " ") (slice a i1 i2)
  | replace =>
      (map (String.append "-") (slice a i1 i2)
       ++ map (String.append "+") (slice b j1 j2))%list
  | delete => map (String.append "-") (slice a i1 i2)
  | insert => map (String.append "+") (slice b j1 j2)
  end.

(** The lines of one group: the hunk header and the lines of its opcodes *)
Definition group_lines (lineterm : string) (group : list opcode) : list string :=
  match group, reverse group with
  | (_, f1, _, f3, _) :: _, (_, _, l2, _, l4) :: _ =>
      ("@@ -" +:+ _format_range_unified f1 l2
       +:+ " +" +:+ _format_range_unified f3 l4 +:+ " @@" +:+ lineterm)
      :: concat (map opcode_lines group)
  | _, _ => []
  end.

(** [unified_diff(a, b, fromfile, tofile, n=3, lineterm)]: the two file
    headers come with the first group. *)
Definition unified_diff (fromfile tofile lineterm : string) : list string :=
  match get_grouped_opcodes 3 with
  | [] => []
  | groups =>
      ("--- " +:+ fromfile +:+ lineterm)
      :: ("+++ " +:+ tofile +:+ lineterm)
      :: concat (map (group_lines lineterm) groups)
  end.
End SequenceMatcher.

End difflib.

(** ** [fixer/validators/fix_validator.py] *)

(** The dictionary [validate_syntax] returns: ['line'] and ['offset'] are
    present on a syntax error only. *)
Record Validation : Type := mkValidation {
  valid : bool;
  validation_message : string;
  validation_line : option Z;
  validation_offset : option Z
}.

(** The dictionary [validate_fix] returns. *)
Record FixValidation : Type := mkFixValidation {
  fix_valid : bool;
  fix_validation_message : string;
  details : option Validation
}.

Module FixValidator.
Section FixValidator.
Context `{Runtime}.

Definition _validate_python_syntax (code : string) : outcome Validation :=
  match ast_parse code with
  | Parsed _ =>
      Return {| valid := true; validation_message := "Syntax is valid";
                validation_line := None; validation_offset := None |}
  | ParseSyntaxError e =>
      Return {| valid := false;
                validation_message :=
                  "Syntax error: " +:+ se_msg e +:+ " at line "
                  +:+ py.str_opt py.str_int (se_lineno e);
                validation_line := se_lineno e;
                validation_offset := se_offset e |}
  | ParseException msg => Raise msg
  end.

Definition validate_syntax_in (code language : string) : outcome Validation :=
  if bool_decide (language = "python") then _validate_python_syntax code
  else Return {| valid := false;
                 validation_message := "Unsupported language: " +:+ language;
                 validation_line := None; validation_offset := None |}.

(** [validate_syntax(code)] with the default [language='python'] *)
Definition validate_syntax (code : string) : outcome Validation :=
  validate_syntax_in code "python".

Definition validate_fix (original_code fixed_code : string) : outcome FixValidation :=
  syntax_result ← validate_syntax fixed_code;
  if negb (valid syntax_result)
  then Return {| fix_valid := false;
                 fix_validation_message := "Fix introduces syntax errors";
                 details := Some syntax_result |}
  else Return {| fix_valid := true;
                 fix_validation_message := "Fix is valid";
                 details := None |}.
End FixValidator.
End FixValidator.

(** ** [fixer/generators/fix_generator.py] *)

Module FixGenerator.

Definition _fix_none_comparison (issue : Issue) : Fix :=
  {| fix_issue := issue;
     fix_type := Some "replace";
     description := Some "Replace == None with is None";
     suggestion :=
       Some ("Replace " +:+ py.quoted "== None" +:+ " with " +:+ py.quoted "is None"
             +:+ " or " +:+ py.quoted "!= None" +:+ " with " +:+ py.quoted "is not None");
     changes := [];
     automated := Some false |}.

Definition _fix_bare_except (issue : Issue) : Fix :=
  {| fix_issue := issue;
     fix_type := Some "replace";
     description := Some "Specify exception type in except clause";
     suggestion :=
       Some ("Replace " +:+ py.quoted "except:" +:+ " with "
             +:+ py.quoted "except Exception:" +:+ " or more specific exception");
     changes := [];
     automated := Some false |}.

Definition _fix_dangerous_eval (issue : Issue) : Fix :=
  {| fix_issue := issue;
     fix_type := Some "refactor";
     description := Some "Remove eval() and use safer alternative";
     suggestion :=
       Some "Consider using ast.literal_eval() for literals or json.loads() for JSON";
     changes := [];
     automated := Some false |}.

Definition _fix_wildcard_import (issue : Issue) : Fix :=
  {| fix_issue := issue;
     fix_type := Some "replace";
     description := Some "Replace wildcard import with explicit imports";
     suggestion := Some "Import only the specific names you need";
     changes := [];
     automated := Some false |}.

Definition generate_fix (issue : Issue) : option Fix :=
  let issue_type := issue_type issue in
  if bool_decide (issue_type = Some "none_comparison")
  then Some (_fix_none_comparison issue)
  else if bool_decide (issue_type = Some "bare_except")
  then Some (_fix_bare_except issue)
  else if bool_decide (issue_type = Some "dangerous_eval")
  then Some (_fix_dangerous_eval issue)
  else if bool_decide (issue_type = Some "wildcard_import")
  then Some (_fix_wildcard_import issue)
  else None.

End FixGenerator.

(** ** [fixer/generators/patch_generator.py] *)

Module PatchGenerator.

Definition generate_patch (original_code fixed_code file_path : string) : string :=
  let original_lines := py.splitlines original_code in
  let fixed_lines := py.splitlines fixed_code in
  py.join (difflib.unified_diff original_lines fixed_lines
             ("a/" +:+ file_path) ("b/" +:+ file_path) EmptyString).

Definition apply_simple_replacement (content : string) (line_number : Z)
    (old_text new_text : string) : option string :=
  let lines := py.splitlines content in
  if bool_decide (line_number < 1) || bool_decide (line_number > Z.of_nat (length lines))
  then None
  else
    let line_idx := Z.to_nat (line_number - 1) in
    let line := default EmptyString (lines !! line_idx) in
    if py.contains old_text line
    then Some (py.join (<[line_idx := py.replace_any old_text new_text line]> lines))
    else None.

End PatchGenerator.

(** ** The file system *)

(** What a path holds: text, or something [open(path, "r", encoding="utf-8")]
    cannot read, with the message of the exception the read raises.  Writing
    to a path and copying to a path succeed, but for the copy of a file onto
    itself. *)
Inductive entry : Type :=
| TextFile (content : string)
| Unreadable (err : string).

Module fs.

(** [open(path, "r")] reads with universal newlines: \r\n and \r become
    \n. *)
Fixpoint universal_newlines (s : string) : string :=
  match s with
  | EmptyString => EmptyString
  | String c s' =>
      if bool_decide (c = py.CR) then
        match s' with
        | String c2 s'' =>
            if bool_decide (c2 = py.LF) then String py.LF (universal_newlines s'')
            else String py.LF (universal_newlines s')
        | EmptyString => String py.LF EmptyString
        end
      else String c (universal_newlines s')
  end.

(** [Path(path).exists()] *)
Definition exists_ (files : gmap string entry) (path : string) : bool :=
  bool_decide (is_Some (files !! path)).

(** [with open(path, "r", encoding="utf-8") as f: f.read()] *)
Definition read (files : gmap string entry) (path : string) : outcome string :=
  match files !! path with
  | Some (TextFile content) => Return (universal_newlines content)
  | Some (Unreadable err) => Raise err
  | None => Raise ("[Errno 2] No such file or directory: '" +:+ path +:+ "'")
  end.

(** [with open(path, "w", encoding="utf-8") as f: f.write(content)] *)
Definition write (files : gmap string entry) (path content : string)
    : gmap string entry :=
  <[path := TextFile content]> files.

(** [shutil.copy2(src, dst)]: it refuses to copy a file onto itself. *)
Definition copy2 (files : gmap string entry) (src dst : string)
    : outcome (gmap string entry) :=
  match files !! src with
  | Some e =>
      if bool_decide (src = dst)
      then Raise ("'" +:+ src +:+ "' and '" +:+ dst +:+ "' are the same file")
      else Return (<[dst := e]> files)
  | None => Raise ("[Errno 2] No such file or directory: '" +:+ src +:+ "'")
  end.

End fs.

(** ** [fixer/fix_applicator.py] *)

(** The dictionary [apply_fix] returns. *)
Record ApplyResult : Type := mkApplyResult {
  success : bool;
  message : string;
  result_fix : Fix;
  result_file : option string;
  diff : option string;
  dry_run : option bool;
  validation : option Validation;
  error : option string
}.

(** A dictionary of the list [restore_backups] returns *)
Record RestoreResult : Type := mkRestoreResult {
  restore_success : bool;
  restore_file : string;
  restore_message : string;
  restore_error : option string
}.

(** A [FixApplicator] object *)
Record FixApplicator : Type := mkFixApplicator {
  create_backup : bool;
  backup_suffix : string;
  applied_fixes : list Fix
}.

(** What a call can change: the applicator and the files. *)
Record world : Type := mkWorld {
  self : FixApplicator;
  files : gmap string entry
}.

(** A method call: it returns or raises, and leaves a world behind either
    way. *)
Definition call (A : Type) : Type := world → outcome A * world.

Global Instance call_ret : MRet call := λ A a w, (Return a, w).

Global Instance call_bind : MBind call := λ A B k m w,
  match m w with
  | (Return a, w') => k a w'
  | (Raise e, w') => (Raise e, w')
  end.

(** [try: body  except Exception as e: handler(str(e))] *)
Definition try_except {A : Type} (body : call A) (handler : string → call A) : call A :=
  λ w, match body w with
       | (Return a, w') => (Return a, w')
       | (Raise e, w') => handler e w'
       end.

(** A call that cannot raise *)
Definition total {A : Type} (c : call A) (w : world) (d : A) : A * world :=
  match c w with
  | (Return a, w') => (a, w')
  | (Raise _, w') => (d, w')
  end.

Module FixApplicator.

(** [FixApplicator(create_backup, backup_suffix)] *)
Definition __init__ (create_backup : bool) (backup_suffix : string) : FixApplicator :=
  {| create_backup := create_backup; backup_suffix := backup_suffix;
     applied_fixes := [] |}.

(** *** Calls on the world *)

Definition path_exists (path : string) : call bool :=
  λ w, (Return (fs.exists_ (files w) path), w).

Definition open_read (path : string) : call string :=
  λ w, (fs.read (files w) path, w).

Definition open_write (path content : string) : call unit :=
  λ w, (Return (), {| self := self w; files := fs.write (files w) path content |}).

Definition shutil_copy2 (src dst : string) : call unit :=
  λ w, match fs.copy2 (files w) src dst with
       | Return files' => (Return (), {| self := self w; files := files' |})
       | Raise e => (Raise e, w)
       end.

(** [self.applied_fixes.append(fix)] *)
Definition applied_fixes_append (fix_ : Fix) : call unit :=
  λ w, (Return (),
        {| self := {| create_backup := create_backup (self w);
                      backup_suffix := backup_suffix (self w);
                      applied_fixes := (applied_fixes (self w) ++ [fix_])%list |};
           files := files w |}).

Definition get_self : call FixApplicator := λ w, (Return (self w), w).

Definition lift {A : Type} (o : outcome A) : call A := λ w, (o, w).

(** *** Content of a fix *)

(** [new_code if new_code.endswith("\n") else new_code + "\n"] *)
Definition with_newline (code : string) : string :=
  if py.endswith_LF code then code else code +:+ String py.LF EmptyString.

(** [lines[i] = line] for an index the code has checked *)
Definition set_line (lines : list string) (i : Z) (line : string) : list string :=
  <[Z.to_nat i := line]> lines.

Definition _apply_simple_fix (fix_ : Fix) (content : string) : option string :=
  let issue := fix_issue fix_ in
  let issue_type := issue_type issue in
  let line_number := issue_line issue in
  if negb (py.truthy_int line_number) then None
  else
    let line_number := default 0 line_number in
    let lines := py.splitlines content in
    if bool_decide (line_number < 1) || bool_decide (line_number > Z.of_nat (length lines))
    then None
    else
      let line_idx := line_number - 1 in
      let original_line := default EmptyString (lines !! Z.to_nat line_idx) in
      let from_suggestion :=
        let suggestion := default EmptyString (suggestion fix_) in
        if negb (bool_decide (suggestion = EmptyString))
           && bool_decide (length (py.splitlines suggestion) = 1%nat)
        then Some (py.join (set_line lines line_idx (with_newline suggestion)))
        else None in
      if bool_decide (issue_type = Some "none_comparison") then
        let fixed_line :=
          py.replace "!= None" "is not None" (py.replace "== None" "is None" original_line) in
        Some (py.join (set_line lines line_idx fixed_line))
      else if bool_decide (issue_type = Some "bare_except") then
        if py.contains "except:" original_line then
          let fixed_line := py.replace "except:" "except Exception:" original_line in
          Some (py.join (set_line lines line_idx fixed_line))
        else from_suggestion
      else if bool_decide (issue_type = Some "wildcard_import") then None
      else from_suggestion.

(** [sorted(changes, key=lambda x: x.get("line_number", 0), reverse=True)].
    Python's sort is stable, also with [reverse=True]: changes with the same
    key stay in the order of the list, which fixes the result.  [insert_change]
    puts a change before the first one whose key is not larger. *)
Definition sort_key (x : Change) : Z := default 0 (line_number x).

Fixpoint insert_change (x : Change) (sorted : list Change) : list Change :=
  match sorted with
  | [] => [x]
  | y :: sorted' =>
      if bool_decide (sort_key x < sort_key y) then y :: insert_change x sorted'
      else x :: sorted
  end.

Definition sorted_changes (changes : list Change) : list Change :=
  foldr insert_change [] changes.

(** The body of [for change in sorted_changes] *)
Definition apply_change (lines : list string) (change : Change) : list string :=
  let line_num := line_number change in
  let new_code := new_code change in
  match new_code with
  | Some new_code =>
      if py.truthy_int line_num then
        let line_num := default 0 line_num in
        if bool_decide (1 ≤ line_num) && bool_decide (line_num ≤ Z.of_nat (length lines))
        then set_line lines (line_num - 1) (with_newline new_code)
        else lines
      else lines
  | None => lines
  end.

Definition _apply_fix_to_content (fix_ : Fix) (content : string) : option string :=
  let changes := changes fix_ in
  match changes with
  | [] => _apply_simple_fix fix_ content
  | _ =>
      let lines := py.splitlines content in
      let lines := foldl apply_change lines (sorted_changes changes) in
      Some (py.join lines)
  end.

Definition _generate_diff (original fixed filename : string) : string :=
  let original_lines := py.splitlines original in
  let fixed_lines := py.splitlines fixed in
  py.join (difflib.unified_diff original_lines fixed_lines
             ("a/" +:+ filename) ("b/" +:+ filename) EmptyString).

Section apply.
Context `{Runtime}.

Definition failure (message : string) (fix_ : Fix) : ApplyResult :=
  {| success := false; message := message; result_fix := fix_;
     result_file := None; diff := None; dry_run := None;
     validation := None; error := None |}.

(** The body of the [try] of [apply_fix] *)
Definition apply_fix_body (fix_ : Fix) (file_path : string) (dry : bool)
    : call ApplyResult :=
  original_content ← open_read file_path;
  match _apply_fix_to_content fix_ original_content with
  | None => mret (failure "Could not apply fix to content" fix_)
  | Some fixed_content =>
      validation ← lift (FixValidator.validate_syntax fixed_content);
      if negb (valid validation)
      then mret {| success := false;
                   message := "Fix introduces syntax errors: "
                              +:+ validation_message validation;
                   result_fix := fix_; result_file := None; diff := None;
                   dry_run := None; validation := Some validation;
                   error := None |}
      else
        _ ← (if negb dry then
               this ← get_self;
               _ ← (if create_backup this
                    then shutil_copy2 file_path (file_path +:+ backup_suffix this)
                    else mret ());
               _ ← open_write file_path fixed_content;
               applied_fixes_append fix_
             else mret ());
        let diff := _generate_diff original_content fixed_content file_path in
        mret {| success := true; message := "Fix applied successfully";
                result_fix := fix_; result_file := Some file_path;
                diff := Some diff; dry_run := Some dry;
                validation := None; error := None |}
  end.

Definition apply_fix_call (fix_ : Fix) (dry : bool) : call ApplyResult :=
  let issue := fix_issue fix_ in
  let file_path := issue_file issue in
  found ← (if py.truthy_str file_path
           then path_exists (default EmptyString file_path)
           else mret false);
  if negb found
  then mret (failure ("File not found: " +:+ py.str_opt id file_path) fix_)
  else
    try_except
      (apply_fix_body fix_ (default EmptyString file_path) dry)
      (λ e, mret {| success := false; message := "Error applying fix: " +:+ e;
                    result_fix := fix_; result_file := None; diff := None;
                    dry_run := None; validation := None; error := Some e |}).

(** [self.apply_fix(fix, dry_run)]: every exception is caught, the call
    returns. *)
Definition apply_fix (fix_ : Fix) (dry : bool) (w : world) : ApplyResult * world :=
  total (apply_fix_call fix_ dry) w (failure EmptyString fix_).

(** [self.apply_fixes_batch(fixes, dry_run)]: the loop appends to
    [results]. *)
Definition apply_fixes_batch (fixes : list Fix) (dry : bool) (w : world)
    : list ApplyResult * world :=
  foldl (λ '(results, w) fix_,
           let '(result, w) := apply_fix fix_ dry w in
           ((results ++ [result])%list, w))
        ([], w) fixes.
End apply.

(** The body of the loop of [restore_backups] for one path *)
Definition restore_backup (file_path : string) : call RestoreResult :=
  this ← get_self;
  let backup_path := file_path +:+ backup_suffix this in
  found ← path_exists backup_path;
  if negb found
  then mret {| restore_success := false; restore_file := file_path;
               restore_message := "No backup found: " +:+ backup_path;
               restore_error := None |}
  else
    try_except
      (_ ← shutil_copy2 backup_path file_path;
       mret {| restore_success := true; restore_file := file_path;
               restore_message := "File restored from backup";
               restore_error := None |})
      (λ e, mret {| restore_success := false; restore_file := file_path;
                    restore_message := "Error restoring backup: " +:+ e;
                    restore_error := Some e |}).

(** The paths [restore_backups] goes through: the list it is given, or for
    [None] the files of the applied fixes that have one. *)
Definition restore_paths (file_paths : option (list string)) (this : FixApplicator)
    : list string :=
  match file_paths with
  | Some file_paths => file_paths
  | None =>
      omap (λ fix_, let fp := issue_file (fix_issue fix_) in
                    if py.truthy_str fp then fp else None)
           (applied_fixes this)
  end.

(** [self.restore_backups(file_paths)] *)
Definition restore_backups (file_paths : option (list string)) (w : world)
    : list RestoreResult * world :=
  foldl (λ '(results, w) file_path,
           let '(result, w) :=
             total (restore_backup file_path) w
               {| restore_success := false; restore_file := file_path;
                  restore_message := EmptyString; restore_error := None |} in
           ((results ++ [result])%list, w))
        ([], w) (restore_paths file_paths (self w)).

(** [self.get_applied_fixes()]: a copy of the list *)
Definition get_applied_fixes (w : world) : list Fix := applied_fixes (self w).

End FixApplicator.

(** ** The detectors *)

(** The dictionary a detector appends for a node *)
Definition issue_at (file_path : string) (n : ast.node) (type message severity : string)
    : Issue :=
  {| issue_file := Some file_path;
     issue_line := Some (ast.node_lineno n);
     issue_type := Some type;
     issue_message := Some message;
     issue_severity := Some severity |}.

(** *** [scanner/detectors/pattern_detector.py] *)

Module PatternDetector.

Definition is_None_constant (n : ast.node) : bool :=
  match ast.node_cls n with ast.Constant ast.CNone => true | _ => false end.

Definition is_Eq_or_NotEq (op : ast.cmpop) : bool :=
  match op with ast.Eq | ast.NotEq => true | _ => false end.

Definition is_mutable_literal (n : ast.node) : bool :=
  match ast.node_cls n with ast.List | ast.Dict | ast.Set_ => true | _ => false end.

Definition alias_name (n : ast.node) : option string :=
  match ast.node_cls n with ast.alias name => Some name | _ => None end.

Section visitor.
Variable file_path : string.

(** [visit_Compare], [visit_ExceptHandler], [visit_FunctionDef],
    [visit_Import] and [visit_ImportFrom] up to their call of
    [generic_visit]; [issues] is [self.issues]. *)
Definition enter (n : ast.node) (issues : list Issue) : list Issue :=
  match ast.node_cls n with
  | ast.Compare ops =>
      foldl (λ issues '(op, comparator),
               if is_None_constant comparator && is_Eq_or_NotEq op
               then (issues ++ [issue_at file_path n "none_comparison"
                       ("Use " +:+ py.quoted "is None" +:+ " or " +:+ py.quoted "is not None"
                        +:+ " instead of " +:+ py.quoted "== None" +:+ " or "
                        +:+ py.quoted "!= None")
                       "warning"])%list
               else issues)
            issues (zip ops (ast.field "comparators" n))
  | ast.ExceptHandler =>
      match ast.field "type" n with
      | [] => (issues ++ [issue_at file_path n "bare_except"
                 "Bare except clause should specify exception type" "warning"])%list
      | _ => issues
      end
  | ast.FunctionDef name =>
      foldl (λ issues default,
               if is_mutable_literal default
               then (issues ++ [issue_at file_path n "mutable_default_argument"
                       ("Function " +:+ py.quoted name +:+ " has mutable default argument")
                       "warning"])%list
               else issues)
            issues (flat_map (ast.field "defaults") (ast.field "args" n))
  | ast.Import =>
      foldl (λ issues alias,
               if bool_decide (alias_name alias = Some "*")
               then (issues ++ [issue_at file_path n "wildcard_import"
                       "Avoid wildcard imports (from module import *)" "info"])%list
               else issues)
            issues (ast.field "names" n)
  | ast.ImportFrom module =>
      foldl (λ issues alias,
               if bool_decide (alias_name alias = Some "*")
               then (issues ++ [issue_at file_path n "wildcard_import"
                       ("Avoid wildcard imports (from " +:+ py.str_opt id module
                        +:+ " import *)")
                       "info"])%list
               else issues)
            issues (ast.field "names" n)
  | _ => issues
  end.

(** No method runs code after [generic_visit]. *)
Definition leave (n : ast.node) (on_entry issues : list Issue) : list Issue := issues.

(** [detector = PatternDetector(file_path); detector.visit(tree);
    detector.get_issues()] *)
Definition run (tree : ast.node) : list Issue := ast.visit enter leave tree [].
End visitor.

Section detect.
Context `{Runtime}.

Definition detect_patterns (file_path content : string) : outcome (list Issue) :=
  match ast_parse content with
  | Parsed tree => Return (run file_path tree)
  | ParseSyntaxError _ => Return []
  | ParseException msg => Raise msg
  end.
End detect.

End PatternDetector.

(** *** [scanner/detectors/security_detector.py] *)

Module SecurityDetector.

(** [isinstance(n, ast.Name) and n.id == id] *)
Definition is_Name (id : string) (n : ast.node) : bool :=
  match ast.node_cls n with ast.Name i => bool_decide (i = id) | _ => false end.

Section visitor.
Variable file_path : string.

(** The three tests of [visit_Call] on [node.func] *)
Definition check_call (n func : ast.node) (issues : list Issue) : list Issue :=
  let issues :=
    if is_Name "eval" func
    then (issues ++ [issue_at file_path n "dangerous_eval"
            "Use of eval() is dangerous and should be avoided" "critical"])%list
    else issues in
  let issues :=
    if is_Name "exec" func
    then (issues ++ [issue_at file_path n "dangerous_exec"
            "Use of exec() is dangerous and should be avoided" "critical"])%list
    else issues in
  match ast.node_cls func with
  | ast.Attribute attr =>
      if existsb (is_Name "pickle") (ast.field "value" func)
         && bool_decide (attr = "loads")
      then (issues ++ [issue_at file_path n "unsafe_deserialization"
              "pickle.loads() can execute arbitrary code; use with caution" "high"])%list
      else issues
  | _ => issues
  end.

Definition enter (n : ast.node) (issues : list Issue) : list Issue :=
  match ast.node_cls n with
  | ast.Call =>
      match ast.field "func" n with
      | func :: _ => check_call n func issues
      | [] => issues
      end
  | ast.Import =>
      foldl (λ issues alias,
               if bool_decide (PatternDetector.alias_name alias = Some "pickle")
               then (issues ++ [issue_at file_path n "insecure_module"
                       "pickle module can be unsafe; consider using json instead"
                       "info"])%list
               else issues)
            issues (ast.field "names" n)
  | _ => issues
  end.

Definition leave (n : ast.node) (on_entry issues : list Issue) : list Issue := issues.

Definition run (tree : ast.node) : list Issue := ast.visit enter leave tree [].
End visitor.

Section detect.
Context `{Runtime}.

Definition detect_security_issues (file_path content : string)
    : outcome (list Issue) :=
  match ast_parse content with
  | Parsed tree => Return (run file_path tree)
  | ParseSyntaxError _ => Return []
  | ParseException msg => Raise msg
  end.
End detect.

End SecurityDetector.

(** *** [scanner/detectors/quality_detector.py] *)

(** A [QualityDetector] object ([function_complexity] is never used) *)
Record QualityDetector : Type := mkQualityDetector {
  file_path : string;
  issues : list Issue;
  current_function : option string;
  complexity_count : Z
}.

Module QualityDetector.

Definition __init__ (file_path : string) : QualityDetector :=
  {| file_path := file_path; issues := []; current_function := None;
     complexity_count := 0 |}.

(** [self.issues.append(...)] for [node] *)
Definition report (self : QualityDetector) (node : ast.node)
    (type message severity : string) : QualityDetector :=
  {| file_path := file_path self;
     issues := (issues self ++ [issue_at (file_path self) node type message severity])%list;
     current_function := current_function self;
     complexity_count := complexity_count self |}.

Definition set_context (self : QualityDetector) (function : option string)
    (complexity : Z) : QualityDetector :=
  {| file_path := file_path self; issues := issues self;
     current_function := function; complexity_count := complexity |}.

(** [if self.current_function: self.complexity_count += 1] *)
Definition count_branch (self : QualityDetector) : QualityDetector :=
  if py.truthy_str (current_function self)
  then set_context self (current_function self) (complexity_count self + 1)
  else self.

(** [len(node.args.args) + len(node.args.posonlyargs)
     + len(node.args.kwonlyargs)] *)
Definition total_args (node : ast.node) : Z :=
  let args := ast.field "args" node in
  Z.of_nat (length (flat_map (ast.field "args") args))
  + Z.of_nat (length (flat_map (ast.field "posonlyargs") args))
  + Z.of_nat (length (flat_map (ast.field "kwonlyargs") args)).

(** The whitelist of [visit_Constant] *)
Definition common_values : list Z := [0; 1; -1; 2; 10; 100; 1000].

(** [isinstance(value, (int, float))] with the number [value] is: a [bool]
    is an [int], [True] is 1 and [False] is 0. *)
Definition number (value : ast.constant) : option Q :=
  match value with
  | ast.CBool b => Some (inject_Z (if b then 1 else 0))
  | ast.CInt z => Some (inject_Z z)
  | ast.CFloat q _ => Some q
  | _ => None
  end.

(** [value not in [0, 1, -1, 2, 10, 100, 1000]]: [in] compares with [==] *)
Definition not_common (q : Q) : bool :=
  negb (existsb (λ z, Qeq_bool q (inject_Z z)) common_values).

(** The text of [value] in an f-string *)
Definition constant_text (value : ast.constant) : string :=
  match value with
  | ast.CBool true => "True"
  | ast.CBool false => "False"
  | ast.CInt z => py.str_int z
  | ast.CFloat _ repr => repr
  | _ => EmptyString
  end.

Definition is_Assign (parent : option ast.kind) : bool :=
  match parent with Some ast.Assign => true | _ => false end.

Section visitor.
Context `{Runtime}.

(** [ast.get_docstring(node)] *)
Definition get_docstring (node : ast.node) : option string :=
  match ast.field "body" node with
  | first :: _ =>
      match ast.node_cls first, ast.field "value" first with
      | ast.Expr, value :: _ =>
          match ast.node_cls value with
          | ast.Constant (ast.CStr text) => Some (cleandoc text)
          | _ => None
          end
      | _, _ => None
      end
  | [] => None
  end.

(** [not ast.get_docstring(node)] and [not node.name.startswith("_")] *)
Definition lacks_docstring (node : ast.node) (name : string) : bool :=
  negb (py.truthy_str (get_docstring node)) && negb (py.startswith "_" name).

(** [visit_FunctionDef] up to [self.generic_visit(node)] *)
Definition enter_FunctionDef (node : ast.node) (name : string)
    (self : QualityDetector) : QualityDetector :=
  let self := set_context self (Some name) 1 in
  let total_args := total_args node in
  let self :=
    if bool_decide (total_args > 7)
    then report self node "too_many_arguments"
           ("Function " +:+ py.quoted name +:+ " has " +:+ py.str_int total_args
            +:+ " arguments (max recommended: 7)")
           "info"
    else self in
  if lacks_docstring node name
  then report self node "missing_docstring"
         ("Public function " +:+ py.quoted name +:+ " is missing a docstring") "info"
  else self.

(** [visit_FunctionDef] after [self.generic_visit(node)]; [on_entry] holds
    [prev_function] and [prev_complexity]. *)
Definition leave_FunctionDef (node : ast.node) (name : string)
    (on_entry self : QualityDetector) : QualityDetector :=
  let self :=
    if bool_decide (complexity_count self > 10)
    then report self node "high_complexity"
           ("Function " +:+ py.quoted name +:+ " has high cyclomatic complexity ("
            +:+ py.str_int (complexity_count self) +:+ ")")
           "warning"
    else self in
  set_context self (current_function on_entry) (complexity_count on_entry).

Definition enter_ClassDef (node : ast.node) (name : string)
    (self : QualityDetector) : QualityDetector :=
  let self :=
    if lacks_docstring node name
    then report self node "missing_docstring"
           ("Public class " +:+ py.quoted name +:+ " is missing a docstring") "info"
    else self in
  let method_count :=
    Z.of_nat (length (filter (λ item, ast.is_FunctionDef item = true)
                             (ast.field "body" node))) in
  if bool_decide (method_count > 20)
  then report self node "too_many_methods"
         ("Class " +:+ py.quoted name +:+ " has " +:+ py.str_int method_count
          +:+ " methods (possible God object)")
         "warning"
  else self.

(** [visit_Constant] up to [self.generic_visit(node)] *)
Definition enter_Constant (node : ast.node) (value : ast.constant)
    (self : QualityDetector) : QualityDetector :=
  match number value with
  | Some q =>
      if not_common q then
        let parent := ast.node_parent node in
        if negb (is_Assign parent)
        then report self node "magic_number"
               ("Magic number " +:+ constant_text value
                +:+ " should be a named constant")
               "info"
        else self
      else self
  | None => self
  end.

Definition enter (node : ast.node) (self : QualityDetector) : QualityDetector :=
  match ast.node_cls node with
  | ast.FunctionDef name => enter_FunctionDef node name self
  | ast.If | ast.For | ast.While | ast.ExceptHandler | ast.With => count_branch self
  | ast.Assert =>
      report self node "assert_statement"
        "Using assert in production code (can be disabled with python -O)" "info"
  | ast.ClassDef name => enter_ClassDef node name self
  | ast.Constant value => enter_Constant node value self
  | _ => self
  end.

Definition leave (node : ast.node) (on_entry self : QualityDetector)
    : QualityDetector :=
  match ast.node_cls node with
  | ast.FunctionDef name => leave_FunctionDef node name on_entry self
  | _ => self
  end.

Definition visit (node : ast.node) (self : QualityDetector) : QualityDetector :=
  ast.visit enter leave node self.

(** [detector = QualityDetector(file_path); detector.visit(tree);
    detector.get_issues()] *)
Definition run (file_path : string) (tree : ast.node) : list Issue :=
  issues (visit tree (__init__ file_path)).

Definition detect_quality_issues (file_path content : string)
    : outcome (list Issue) :=
  match ast_parse content with
  | Parsed tree => Return (run file_path tree)
  | ParseSyntaxError _ => Return []
  | ParseException msg => Raise msg
  end.
End visitor.

End QualityDetector.

(** ** [scanner/core/scanner.py] *)

Module CodeScanner.

(** [Path(path).name]: what follows the last slash *)
Fixpoint name (path : string) : string :=
  match path with
  | EmptyString => EmptyString
  | String _ path' => if py.contains "/" path then name path' else path
  end.

(** [name[name.rfind("."):]] when the name has a dot *)
Fixpoint from_last_dot (name : string) : option string :=
  match name with
  | EmptyString => None
  | String c name' =>
      match from_last_dot name' with
      | Some s => Some s
      | None => if bool_decide (c = "."%char) then Some name else None
      end
  end.

(** [Path(path).suffix]: the last dot of the name and what follows, unless
    the dot is the first or the last character of the name. *)
Definition suffix (path : string) : string :=
  let name := name path in
  match from_last_dot name with
  | Some s => if bool_decide (s = name) || bool_decide (s = ".") then EmptyString else s
  | None => EmptyString
  end.

Section scanner.
Context `{Runtime}.

(** [self.root_path] is [root_path]; [self.results] is threaded through
    the methods. *)
Variable root_path : string.

Definition _find_code_files (extensions : list string) : list string :=
  flat_map (λ ext, rglob root_path ("*" +:+ ext)) extensions.

(** [_analyze_python_file]: an exception that is no [SyntaxError] leaves
    the method. *)
Definition _analyze_python_file (file_path content : string) (results : list Issue)
    : outcome (list Issue) :=
  match ast_parse content with
  | Parsed _ => Return results
  | ParseSyntaxError e =>
      Return (results ++ [ {| issue_file := Some file_path;
                              issue_line := se_lineno e;
                              issue_type := Some "syntax_error";
                              issue_message := Some (se_msg e);
                              issue_severity := Some "critical" |} ])%list
  | ParseException msg => Raise msg
  end.

Definition scan_error (file_path e : string) : Issue :=
  {| issue_file := Some file_path;
     issue_line := None;
     issue_type := Some "scan_error";
     issue_message := Some ("Error scanning file: " +:+ e);
     issue_severity := Some "error" |}.

Definition _scan_file (files : gmap string entry) (file_path : string)
    (results : list Issue) : list Issue :=
  let body :=
    content ← fs.read files file_path;
    if bool_decide (suffix file_path = ".py")
    then _analyze_python_file file_path content results
    else Return results in
  match body with
  | Return results => results
  | Raise e => (results ++ [scan_error file_path e])%list
  end.

(** [scan_directory(extensions)] of a scanner whose [results] are
    [results]; [None] is the default of the parameter. *)
Definition scan_directory (files : gmap string entry)
    (extensions : option (list string)) (results : list Issue) : list Issue :=
  let extensions := default [".py"] extensions in
  let code_files := _find_code_files extensions in
  foldl (λ results file_path, _scan_file files file_path results) results code_files.
(** [get_results] and [clear_results], on [self.results] *)
Definition get_results (results : list Issue) : list Issue := results.

Definition clear_results (results : list Issue) : list Issue := [].
End scanner.

End CodeScanner.

(** ** [scanner/core/report.py] *)

Module ReportGenerator.

(** The dictionary [counts]: its keys in the order they were first set *)
Fixpoint counts_get (counts : list (string * Z)) (key : string) (default : Z) : Z :=
  match counts with
  | [] => default
  | (k, v) :: counts' => if bool_decide (k = key) then v else counts_get counts' key default
  end.

(** [counts[key] = value] *)
Fixpoint counts_set (counts : list (string * Z)) (key : string) (value : Z)
    : list (string * Z) :=
  match counts with
  | [] => [(key, value)]
  | (k, v) :: counts' =>
      if bool_decide (k = key) then (k, value) :: counts'
      else (k, v) :: counts_set counts' key value
  end.

Definition _count_by_severity (results : list Issue) : list (string * Z) :=
  foldl (λ counts result,
           let severity := default "unknown" (issue_severity result) in
           counts_set counts severity (counts_get counts severity 0 + 1))
        [] results.

End ReportGenerator.

(** ** [config.py] *)

Module Config.

(** A value of the configuration, as JSON has them.  A dictionary has
    strings as keys and keeps them in the order they were first set. *)
#[local] Unset Elimination Schemes.
Inductive config_value : Type :=
| VNone
| VBool (b : bool)
| VInt (n : Z)
| VFloat (q : Q)
| VStr (s : string)
| VList (items : list config_value)
| VDict (entries : list (string * config_value)).
#[local] Set Elimination Schemes.

(** [d[k]] when [k in d] *)
Fixpoint dict_lookup (d : list (string * config_value)) (k : string) : option config_value :=
  match d with
  | [] => None
  | (k', v) :: d' => if bool_decide (k' = k) then Some v else dict_lookup d' k
  end.

(** [d[k] = v] *)
Fixpoint dict_set (d : list (string * config_value)) (k : string) (v : config_value)
    : list (string * config_value) :=
  match d with
  | [] => [(k, v)]
  | (k', v') :: d' =>
      if bool_decide (k' = k) then (k', v) :: d' else (k', v') :: dict_set d' k v
  end.

(** [d.update(new)] *)
Definition dict_update (d new : list (string * config_value)) : list (string * config_value) :=
  foldl (λ d '(k, v), dict_set d k v) d new.

Definition DEFAULT_CONFIG : list (string * config_value) :=
  [("scanner",
    VDict [("file_extensions", VList [VStr ".py"]);
           ("exclude_patterns",
            VList [VStr "**/venv/**"; VStr "**/.venv/**"; VStr "**/node_modules/**";
                   VStr "**/__pycache__/**"; VStr "**/.git/**"]);
           ("max_file_size_mb", VInt 10)]);
   ("fixer",
    VDict [("auto_apply_fixes", VBool false);
           ("create_backup", VBool true);
           ("backup_suffix", VStr ".backup")]);
   ("ai",
    VDict [("provider", VStr "anthropic");
           ("model", VStr "claude-sonnet-4-5-20250929");
           ("api_key_env_var", VStr "ANTHROPIC_API_KEY");
           ("max_tokens", VInt 4000);
           ("temperature", VFloat 0%Q)]);
   ("pr",
    VDict [("base_branch", VStr "main");
           ("branch_prefix", VStr "bugfix/ai-");
           ("auto_push", VBool false);
           ("create_pr", VBool false)]);
   ("validation",
    VDict [("run_tests", VBool true);
           ("test_command", VStr "python -m pytest");
           ("require_tests_pass", VBool false)])].

(** [_merge_config(new_config)] on [self.config] *)
Definition _merge_config (config new_config : list (string * config_value))
    : list (string * config_value) :=
  foldl (λ config '(key, value),
           match dict_lookup config key, value with
           | Some (VDict existing), VDict value =>
               dict_set config key (VDict (dict_update existing value))
           | _, _ => dict_set config key value
           end)
        config new_config.

(** The loop of [get]: [value] is followed along [keys]. *)
Fixpoint get_from (value : config_value) (keys : list string) (default : config_value) : config_value :=
  match keys with
  | [] => value
  | k :: keys' =>
      match value with
      | VDict d =>
          match dict_lookup d k with
          | Some v => get_from v keys' default
          | None => default
          end
      | _ => default
      end
  end.

(** [get(key, default)] on [self.config] *)
Definition get (config : list (string * config_value)) (key : string) (default : config_value)
    : config_value :=
  get_from (VDict config) (py.split_dot key) default.

(** The loop of [set] over [keys[:-1]] and the assignment to [keys[-1]].
    Where [config] is no dictionary, the test [k not in config] or the
    assignment raises a [TypeError]: the result is [None]. *)
Fixpoint set_in (keys : list string) (config : config_value) (last : string) (v : config_value)
    : option config_value :=
  match config with
  | VDict d =>
      match keys with
      | [] => Some (VDict (dict_set d last v))
      | k :: keys' =>
          let d := match dict_lookup d k with
                   | Some _ => d
                   | None => dict_set d k (VDict [])
                   end in
          sub ← dict_lookup d k;
          sub' ← set_in keys' sub last v;
          Some (VDict (dict_set d k sub'))
      end
  | _ => None
  end.

(** [set(key, value)] on [self.config]: the new [self.config], or [None]
    when the call raises. *)
Definition set (config : list (string * config_value)) (key : string) (v : config_value)
    : option (list (string * config_value)) :=
  let keys := py.split_dot key in
  match set_in (removelast keys) (VDict config) (List.last keys EmptyString) v with
  | Some (VDict d) => Some d
  | _ => None
  end.

End Config.

(** ** [main.py] *)

Module BugFixingAssistant.
Section assistant.
Context `{Runtime}.

(** The body of the loop of [scan_directory]: what a detector returned
    before another one raised stays in [results]. *)
Definition run_detectors (files : gmap string entry) (file_path : string)
    (results : list Issue) : list Issue :=
  match fs.read files file_path with
  | Raise _ => results
  | Return content =>
      match PatternDetector.detect_patterns file_path content with
      | Raise _ => results
      | Return pattern_issues =>
          let results := (results ++ pattern_issues)%list in
          match SecurityDetector.detect_security_issues file_path content with
          | Raise _ => results
          | Return security_issues =>
              let results := (results ++ security_issues)%list in
              match QualityDetector.detect_quality_issues file_path content with
              | Raise _ => results
              | Return quality_issues => (results ++ quality_issues)%list
              end
          end
      end
  end.

(** [scan_directory(directory)]; [extensions] is
    [self.config.get("scanner.file_extensions", [".py"])].  The scanner is
    new: its results are empty. *)
Definition scan_directory (files : gmap string entry) (extensions : list string)
    (directory : string) : list Issue :=
  let results := CodeScanner.scan_directory directory files (Some extensions) [] in
  let code_files := CodeScanner._find_code_files directory extensions in
  foldl (λ results file_path, run_detectors files file_path results)
        results code_files.

(** [_generate_basic_fixes] *)
Definition _generate_basic_fixes (issues : list Issue) : list Fix :=
  foldl (λ fixes issue,
           match FixGenerator.generate_fix issue with
           | Some fix_ => (fixes ++ [fix_])%list
           | None => fixes
           end)
        [] issues.
End assistant.
End BugFixingAssistant.

(** * Example data

    Texts, the trees [ast.parse] builds for them on CPython 3.11, and a
    runtime that knows these texts only. *)

Module example.

Definition nl : string := String py.LF EmptyString.

(** A node as the parser builds it: no attribute [parent] *)
Definition parsed (cls : ast.kind) (lineno : Z) (fields : list (string * list ast.node))
    : ast.node :=
  ast.Node cls lineno None fields.

Definition Name (id : string) (lineno : Z) : ast.node := parsed (ast.Name id) lineno [].

Definition Pass (lineno : Z) : ast.node := parsed (ast.Other "Pass") lineno [].

Definition arg (name : string) (lineno : Z) : ast.node :=
  parsed (ast.arg name) lineno [("annotation", [])].

(** [x = 42] *)
Definition assign_42_text : string := "x = 42" +:+ nl.

Definition assign_42_tree : ast.node :=
  parsed ast.Module 0
    [("body",
      [parsed ast.Assign 1
         [("targets", [Name "x" 1]);
          ("value", [parsed (ast.Constant (ast.CInt 42)) 1 []])]]);
     ("type_ignores", [])].

(** [if value <op> None: pass] *)
Definition if_none_tree (op : ast.cmpop) : ast.node :=
  parsed ast.Module 0
    [("body",
      [parsed ast.If 1
         [("test",
           [parsed (ast.Compare [op]) 1
              [("left", [Name "value" 1]);
               ("comparators", [parsed (ast.Constant ast.CNone) 1 []])]]);
          ("body", [Pass 2]);
          ("orelse", [])]]);
     ("type_ignores", [])].

Definition eq_none_text : string := "if value == None:" +:+ nl +:+ "    pass" +:+ nl.
Definition is_none_text : string := "if value is None:" +:+ nl +:+ "    pass" +:+ nl.

(** The same comparison written without a blank after the operator *)
Definition eq_none_tight_text : string := "if value ==None:" +:+ nl +:+ "    pass" +:+ nl.

(** A call left open: [ast.parse] raises a [SyntaxError] at line 1. *)
Definition open_call_text : string := "def hello(" +:+ nl +:+ "    return 'world'".

Definition open_call_error : SyntaxError :=
  {| se_msg := "'(' was never closed"; se_lineno := Some 1; se_offset := Some 10 |}.

(** A brace left open *)
Definition open_brace_text : string := "x = {" +:+ nl.

Definition open_brace_error : SyntaxError :=
  {| se_msg := "'{' was never closed"; se_lineno := Some 1; se_offset := Some 5 |}.

(** [def f(a, b, c, d, e, g, h, *rest): pass]: seven named parameters and
    [*rest] *)
Definition seven_and_rest_text : string :=
  "def f(a, b, c, d, e, g, h, *rest):" +:+ nl +:+ "    pass" +:+ nl.

Definition function_tree (cls : ast.kind) (args : list ast.node) (vararg : list ast.node)
    : ast.node :=
  parsed ast.Module 0
    [("body",
      [parsed cls 1
         [("args",
           [parsed ast.arguments 0
              [("posonlyargs", []); ("args", args); ("vararg", vararg);
               ("kwonlyargs", []); ("kw_defaults", []); ("kwarg", []);
               ("defaults", [])]]);
          ("body", [Pass 2]);
          ("decorator_list", []);
          ("returns", [])]]);
     ("type_ignores", [])].

Definition seven_args : list ast.node :=
  map (λ name, arg name 1) ["a"; "b"; "c"; "d"; "e"; "g"; "h"].

Definition seven_and_rest_tree : ast.node :=
  function_tree (ast.FunctionDef "f") seven_args [arg "rest" 1].

(** [def f(a, b, c, d, e, g, h, i): pass]: eight named parameters *)
Definition eight_text : string :=
  "def f(a, b, c, d, e, g, h, i):" +:+ nl +:+ "    pass" +:+ nl.

Definition eight_tree : ast.node :=
  function_tree (ast.FunctionDef "f") (seven_args ++ [arg "i" 1])%list [].

(** [async def f(a, b, c, d, e, g, h, i): pass] *)
Definition async_eight_text : string :=
  "async def f(a, b, c, d, e, g, h, i):" +:+ nl +:+ "    pass" +:+ nl.

Definition async_eight_tree : ast.node :=
  function_tree (ast.AsyncFunctionDef "f") (seven_args ++ [arg "i" 1])%list [].

(** What [ast.parse] returns for the texts above *)
Definition parse_table : list (string * parse_result) :=
  [(assign_42_text, Parsed assign_42_tree);
   (eq_none_text, Parsed (if_none_tree ast.Eq));
   (is_none_text, Parsed (if_none_tree ast.Is));
   (eq_none_tight_text, Parsed (if_none_tree ast.Eq));
   (open_call_text, ParseSyntaxError open_call_error);
   (open_brace_text, ParseSyntaxError open_brace_error);
   (seven_and_rest_text, Parsed seven_and_rest_tree);
   (eight_text, Parsed eight_tree);
   (async_eight_text, Parsed async_eight_tree)].

Definition table_parse (content : string) : parse_result :=
  match List.find (λ e, bool_decide (fst e = content)) parse_table with
  | Some e => snd e
  | None => ParseException "a text the examples do not use"
  end.

(** The files of the examples under the directory [proj] *)
Definition table_rglob (root pattern : string) : list string :=
  if bool_decide (root = "proj") && bool_decide (pattern = "*.py")
  then ["proj/a.py"; "proj/b.py"]
  else [].

End example.

(** ** Scenarios *)

Module scenarios.
Import example FixApplicator.

Definition issue_in (path : string) (line : Z) (type : string) : Issue :=
  {| issue_file := Some path; issue_line := Some line; issue_type := Some type;
     issue_message := None; issue_severity := Some "warning" |}.

Definition applicator : FixApplicator := __init__ true ".backup".

(** A file with [== None] and the fix the generator makes for the issue of
    the pattern detector *)
Definition none_world : world :=
  {| self := applicator; files := {[ "proj/a.py" := TextFile eq_none_text ]} |}.

Definition none_fix : Fix :=
  FixGenerator._fix_none_comparison (issue_in "proj/a.py" 1 "none_comparison").

(** The same comparison written [==None]: the detector reports it, the
    replacement of [== None] does not find it. *)
Definition tight_world : world :=
  {| self := applicator; files := {[ "proj/a.py" := TextFile eq_none_tight_text ]} |}.

(** A fix whose only change opens a brace on line 1 *)
Definition brace_world : world :=
  {| self := applicator; files := {[ "proj/a.py" := TextFile assign_42_text ]} |}.

Definition brace_fix : Fix :=
  {| fix_issue := issue_in "proj/a.py" 1 "magic_number";
     fix_type := Some "ai_generated"; description := None; suggestion := None;
     changes := [ {| line_number := Some 1; old_code := Some "x = 42";
                     new_code := Some "x = {" |} ];
     automated := Some true |}.

Definition brace_validation : Validation :=
  {| valid := false;
     validation_message := "Syntax error: '{' was never closed at line 1";
     validation_line := Some 1; validation_offset := Some 5 |}.

(** Changes for a text of two lines: line 7 does not exist, one change has
    no line number, one has line 0, one has no new code, one has line -1, and
    lines 1 and 2 are replaced. *)
Definition mixed_fix : Fix :=
  {| fix_issue := issue_in "proj/a.py" 1 "magic_number";
     fix_type := Some "ai_generated"; description := None; suggestion := None;
     changes :=
       [ {| line_number := Some 1; old_code := None; new_code := Some "a = 1" |};
         {| line_number := Some 7; old_code := None; new_code := Some "g = 7" |};
         {| line_number := None; old_code := None; new_code := Some "n = 0" |};
         {| line_number := Some 0; old_code := None; new_code := Some "z = 0" |};
         {| line_number := Some 2; old_code := None; new_code := None |};
         {| line_number := Some 2; old_code := None; new_code := Some ("b = 2" +:+ nl) |};
         {| line_number := Some (-1); old_code := None; new_code := Some "m = 1" |} ];
     automated := Some true |}.

Definition two_lines : string := "x = 1" +:+ nl +:+ "y = 2" +:+ nl.

(** A fix for a file that is not there *)
Definition missing_fix : Fix :=
  FixGenerator._fix_none_comparison (issue_in "proj/gone.py" 1 "none_comparison").

(** Two files: [a.py] parses and compares with [== None], [b.py] does not
    parse. *)
Definition project : gmap string entry :=
  {[ "proj/a.py" := TextFile eq_none_text; "proj/b.py" := TextFile open_call_text ]}.

Definition none_comparison_a : Issue :=
  {| issue_file := Some "proj/a.py"; issue_line := Some 1;
     issue_type := Some "none_comparison";
     issue_message :=
       Some ("Use " +:+ py.quoted "is None" +:+ " or " +:+ py.quoted "is not None"
             +:+ " instead of " +:+ py.quoted "== None" +:+ " or " +:+ py.quoted "!= None");
     issue_severity := Some "warning" |}.

End scenarios.

(** * Properties *)

(** ** The fix generator *)

Module FixGeneratorProps.
Import FixGenerator.

(** The issue types [generate_fix] has a template for *)
Definition supported_types : list string :=
  ["none_comparison"; "bare_except"; "dangerous_eval"; "wildcard_import"].

Lemma generate_fix_cases (issue : Issue) :
  (issue_type issue = Some "none_comparison"
   ∧ generate_fix issue = Some (_fix_none_comparison issue))
  ∨ (issue_type issue = Some "bare_except"
     ∧ generate_fix issue = Some (_fix_bare_except issue))
  ∨ (issue_type issue = Some "dangerous_eval"
     ∧ generate_fix issue = Some (_fix_dangerous_eval issue))
  ∨ (issue_type issue = Some "wildcard_import"
     ∧ generate_fix issue = Some (_fix_wildcard_import issue))
  ∨ ((∀ t, t ∈ supported_types → issue_type issue ≠ Some t)
     ∧ generate_fix issue = None).
Proof.
  unfold generate_fix.
  case_bool_decide as H1; [tauto|].
  case_bool_decide as H2; [tauto|].
  case_bool_decide as H3; [tauto|].
  case_bool_decide as H4; [tauto|].
  do 4 right. split; [|done].
  intros t Hin Heq. unfold supported_types in Hin.
  rewrite !elem_of_cons, elem_of_nil in Hin.
  destruct Hin as [->|[->|[->|[->|[]]]]]; contradiction.
Qed.

(** C6: [generate_fix] returns a fix exactly for the four supported issue
    types and [None] for every other type (also for an issue without a type);
    a returned fix refers back to the issue it was made for and is not
    automated. *)
Theorem generate_fix_supported_types (issue : Issue) :
  (is_Some (generate_fix issue)
   ↔ ∃ t, issue_type issue = Some t ∧ t ∈ supported_types)
  ∧ (generate_fix issue = None
     ↔ ∀ t, t ∈ supported_types → issue_type issue ≠ Some t)
  ∧ (∀ fix_, generate_fix issue = Some fix_ →
       fix_issue fix_ = issue ∧ automated fix_ = Some false).
Proof.
  assert (Hsup : ∀ t, t ∈ supported_types ↔
            t = "none_comparison" ∨ t = "bare_except" ∨ t = "dangerous_eval"
            ∨ t = "wildcard_import").
  { intros t. unfold supported_types. rewrite !elem_of_cons, elem_of_nil. tauto. }
  destruct (generate_fix_cases issue)
    as [[Ht Hg]|[[Ht Hg]|[[Ht Hg]|[[Ht Hg]|[Ht Hg]]]]]; rewrite Hg.
  1-4: split; [split; [intros _; eexists; split; [exact Ht|apply Hsup; tauto]
                      |intros _; eauto]|];
       (split; [split; [discriminate|]
               |intros fix_ [= <-]; done]);
       intros Hall; exfalso; eapply Hall; [|exact Ht]; apply Hsup; tauto.
  split; [split; [intros [? [=]]|intros (t & Heq & Hin); exfalso; by eapply Ht]|].
  split; [done|discriminate].
Qed.

End FixGeneratorProps.

(** ** The validator *)

Module FixValidatorProps.
Import FixValidator.

Section validator.
Context `{Runtime}.

Lemma validate_syntax_valid (code : string) (v : Validation) :
  validate_syntax code = Return v →
  (valid v = true ↔ ∃ tree, ast_parse code = Parsed tree).
Proof.
  unfold validate_syntax, validate_syntax_in, _validate_python_syntax.
  rewrite bool_decide_eq_true_2 by done.
  destruct (ast_parse code) as [tree|e|msg]; intros [= <-]; simpl.
  - split; eauto.
  - split; [done|intros [? [=]]].
Qed.

(** C8: the verdict of [validate_fix] does not depend on the original code:
    two calls with the same fixed code return the same result (or raise the
    same exception), and the result is valid exactly when the fixed code
    parses. *)
Theorem validate_fix_ignores_original (original1 original2 fixed : string) :
  validate_fix original1 fixed = validate_fix original2 fixed
  ∧ ((∃ r, validate_fix original1 fixed = Return r ∧ fix_valid r = true)
     ↔ ∃ tree, ast_parse fixed = Parsed tree).
Proof.
  split; [reflexivity|].
  unfold validate_fix, validate_syntax, validate_syntax_in, _validate_python_syntax.
  rewrite bool_decide_eq_true_2 by done.
  destruct (ast_parse fixed) as [tree|e|msg]; simpl.
  - split; [eauto|]. intros _. eexists. split; [reflexivity|done].
  - split; [intros (r & [= <-] & Hv); discriminate|intros [? [=]]].
  - split; [intros (r & [=] & _)|intros [? [=]]].
Qed.

End validator.
End FixValidatorProps.

(** ** The applicator: content of a fix *)

Module ChangesProps.
Import FixApplicator.

(** A change the loop of [_apply_fix_to_content] applies to [n] lines: it has
    a [new_code] and its [line_number] is present and within [1, n]. *)
Definition in_range (n : nat) (c : Change) : Prop :=
  match line_number c, new_code c with
  | Some ln, Some _ => 1 ≤ ln ≤ Z.of_nat n
  | _, _ => False
  end.

Global Instance in_range_dec n c : Decision (in_range n c).
Proof. unfold in_range. destruct (line_number c), (new_code c); apply _. Defined.

(** The replacement itself, with no test *)
Definition replace_line (lines : list string) (c : Change) : list string :=
  set_line lines (default 0 (line_number c) - 1)
           (with_newline (default EmptyString (new_code c))).

(** From the largest line number to the smallest *)
Definition descending (cs : list Change) : Prop :=
  StronglySorted (λ x y, sort_key y ≤ sort_key x) cs.

Lemma insert_change_perm (x : Change) (cs : list Change) :
  insert_change x cs ≡ₚ x :: cs.
Proof.
  induction cs as [|y cs IH]; simpl; [done|].
  case_bool_decide; [|done].
  rewrite IH. apply Permutation_swap.
Qed.

Lemma sorted_changes_perm (cs : list Change) : sorted_changes cs ≡ₚ cs.
Proof.
  induction cs as [|x cs IH]; simpl; [done|].
  rewrite insert_change_perm. by rewrite IH.
Qed.

Lemma insert_change_descending (x : Change) (cs : list Change) :
  descending cs → descending (insert_change x cs).
Proof.
  unfold descending. induction 1 as [|y cs Hs IH Hy]; simpl.
  - repeat constructor.
  - case_bool_decide as Hlt.
    + constructor; [done|].
      rewrite insert_change_perm. constructor; [lia|done].
    + constructor; [by constructor|].
      constructor; [lia|].
      eapply Forall_impl; [exact Hy|]. simpl. intros z Hz. lia.
Qed.

Lemma sorted_changes_descending (cs : list Change) : descending (sorted_changes cs).
Proof.
  induction cs as [|x cs IH]; simpl; [constructor|].
  by apply insert_change_descending.
Qed.

Lemma insert_change_front (x : Change) (cs : list Change) :
  Forall (λ z, sort_key z ≤ sort_key x) cs → insert_change x cs = x :: cs.
Proof.
  destruct 1 as [|z cs Hz _]; simpl; [done|].
  by rewrite bool_decide_eq_false_2 by lia.
Qed.

(** The sort is stable, so it commutes with leaving changes out. *)
Lemma insert_change_filter (P : Change → Prop) `{∀ c, Decision (P c)}
    (x : Change) (cs : list Change) :
  descending cs →
  filter P (insert_change x cs)
  = if decide (P x) then insert_change x (filter P cs) else filter P cs.
Proof.
  unfold descending. induction 1 as [|y cs Hs IH Hy]; simpl.
  - rewrite filter_cons, filter_nil. by destruct (decide (P x)).
  - case_bool_decide as Hlt.
    + rewrite !filter_cons, IH.
      destruct (decide (P x)), (decide (P y)); simpl; try done.
      by rewrite bool_decide_eq_true_2.
    + rewrite !filter_cons.
      destruct (decide (P x)), (decide (P y)); simpl; try done.
      * by rewrite bool_decide_eq_false_2.
      * symmetry. apply insert_change_front.
        rewrite Forall_forall in Hy |- *.
        intros z [_ Hz]%list_elem_of_filter. specialize (Hy z Hz). simpl in Hy. lia.
Qed.

Lemma sorted_changes_filter (P : Change → Prop) `{∀ c, Decision (P c)}
    (cs : list Change) :
  sorted_changes (filter P cs) = filter P (sorted_changes cs).
Proof.
  induction cs as [|x cs IH]; simpl; [done|].
  rewrite insert_change_filter by apply sorted_changes_descending.
  rewrite filter_cons. destruct (decide (P x)); simpl; by rewrite IH.
Qed.

Lemma length_set_line (lines : list string) (i : Z) (line : string) :
  length (set_line lines i line) = length lines.
Proof. apply length_insert. Qed.

Lemma length_apply_change (lines : list string) (c : Change) :
  length (apply_change lines c) = length lines.
Proof.
  unfold apply_change. destruct (new_code c); [|done].
  destruct (py.truthy_int _); [|done].
  destruct (_ && _); [apply length_set_line|done].
Qed.

(** What the tests of the loop body decide *)
Lemma apply_change_cases (lines : list string) (c : Change) :
  apply_change lines c
  = if decide (in_range (length lines) c) then replace_line lines c else lines.
Proof.
  destruct (decide (in_range (length lines) c)) as [Hin|Hout];
    unfold apply_change, in_range, replace_line in *;
    destruct c as [[ln|] old [code|]]; simpl in *; try done.
  - rewrite (proj2 (Z.eqb_neq ln 0)) by lia. simpl.
    by rewrite !bool_decide_eq_true_2 by lia.
  - destruct (ln =? 0); simpl; [done|].
    case_bool_decide; [|done]. case_bool_decide; [|done]. lia.
Qed.

Lemma length_replace_line (lines : list string) (c : Change) :
  length (replace_line lines c) = length lines.
Proof. apply length_set_line. Qed.

(** The loop over any list of changes is the loop over those in range. *)
Lemma foldl_apply_change_in_range (cs : list Change) (lines : list string) :
  foldl apply_change lines cs
  = foldl replace_line lines (filter (in_range (length lines)) cs).
Proof.
  revert lines. induction cs as [|c cs IH]; intros lines; simpl; [done|].
  rewrite filter_cons, IH, length_apply_change, apply_change_cases.
  by destruct (decide _).
Qed.


End ChangesProps.

(** ** The runtime of the examples *)

Module example_runtime.
Import example.

Lemma parse_table_plain :
  Forall (λ e, ∀ tree, snd e = Parsed tree → ast.no_parent_attribute tree) parse_table.
Proof.
  unfold parse_table, ast.no_parent_attribute.
  repeat (constructor; [simpl; intros tree [= <-] || (intros tree; discriminate);
                        repeat constructor|]).
  constructor.
Qed.

Lemma table_parse_plain (content : string) (tree : ast.node) :
  table_parse content = Parsed tree → ast.no_parent_attribute tree.
Proof.
  unfold table_parse.
  destruct (List.find _ parse_table) as [e|] eqn:Hfind; [|discriminate].
  apply find_some in Hfind as [Hin _].
  pose proof parse_table_plain as Hall.
  rewrite Forall_forall in Hall. apply Hall. by apply list_elem_of_In.
Qed.

(** [cleandoc] on the texts of the examples: none has a docstring, and a
    text without blanks around it is returned as it is. *)
Definition runtime : Runtime :=
  {| ast_parse := table_parse;
     cleandoc := id;
     rglob := table_rglob;
     ast_parse_plain := table_parse_plain |}.

End example_runtime.

(** ** Strings and diffs *)

Module TextProps.

Lemma append_cons (c : ascii) (s t : string) : String c s +:+ t = String c (s +:+ t).
Proof. done. Qed.

Lemma append_nil_r (s : string) : s +:+ EmptyString = s.
Proof. induction s as [|c s IH]; [done|]. by rewrite append_cons, IH. Qed.

Lemma append_assoc (s1 s2 s3 : string) : (s1 +:+ s2) +:+ s3 = s1 +:+ (s2 +:+ s3).
Proof. induction s1 as [|c s1 IH]; [done|]. by rewrite !append_cons, IH. Qed.

Lemma join_cons (line : string) (lines : list string) :
  py.join (line :: lines) = line +:+ py.join lines.
Proof. done. Qed.

Lemma join_app (lines1 lines2 : list string) :
  py.join (lines1 ++ lines2) = py.join lines1 +:+ py.join lines2.
Proof.
  induction lines1 as [|l lines1 IH]; [done|].
  cbn [app]. by rewrite !join_cons, IH, append_assoc.
Qed.

Lemma join_splitlines_bounded (n : nat) (s : string) :
  (String.length s ≤ n)%nat → py.join (py.splitlines s) = s.
Proof.
  revert s. induction n as [|n IH]; intros s Hlen.
  { destruct s; [done|cbn in Hlen; lia]. }
  destruct s as [|c s]; [done|]. cbn in Hlen.
  cbn [py.splitlines].
  destruct (py.is_linebreak c).
  - destruct s as [|c2 s]; [done|]. cbn in Hlen.
    destruct (_ && _); rewrite join_cons, IH by (cbn; lia); done.
  - pose proof (IH s ltac:(lia)) as IHs.
    destruct (py.splitlines s) as [|l ls].
    + cbn in IHs. by subst s.
    + rewrite join_cons in IHs. by rewrite join_cons, append_cons, IHs.
Qed.

(** Splitting a text into lines loses nothing. *)
Lemma join_splitlines (s : string) : py.join (py.splitlines s) = s.
Proof. by apply (join_splitlines_bounded (String.length s)). Qed.

End TextProps.

Module DiffProps.
Import difflib TextProps.
Local Open Scope nat_scope.

Section diff.
Variables a b : list string.

Lemma group_from_nonempty (n : nat) (codes : list opcode)
    (groups : list (list opcode)) (group : list opcode) :
  Forall (λ g, g ≠ []) groups →
  Forall (λ g, g ≠ []) (group_from n codes groups group).
Proof.
  revert groups group.
  induction codes as [|[[[[t i1] i2] j1] j2] codes IH]; intros groups group Hgroups.
  - cbn. destruct group as [|[[[[[] ?] ?] ?] ?] [|??]]; try done;
      apply Forall_app; split; try done; by repeat constructor.
  - cbn. destruct (_ && _).
    + apply IH. apply Forall_app. split; [done|].
      constructor; [|done]. by destruct group.
    + by apply IH.
Qed.

Lemma get_grouped_opcodes_nonempty (n : nat) :
  Forall (λ g, g ≠ []) (get_grouped_opcodes a b n).
Proof. by apply group_from_nonempty. Qed.

Lemma group_lines_header (lineterm : string) (group : list opcode) :
  group ≠ [] →
  ∃ range rest, group_lines a b lineterm group = ("@@ -" +:+ range) :: rest.
Proof.
  intros Hne. unfold group_lines.
  destruct group as [|[[[[t f1] f2] f3] f4] group]; [done|].
  destruct (reverse _) as [|[[[[tl l1] l2] l3] l4] rest] eqn:Hrev.
  { apply (f_equal length) in Hrev. rewrite length_reverse in Hrev. done. }
  eexists _, _. reflexivity.
Qed.

(** The text of a diff: nothing at all, or the two file headers followed by
    the header of the first hunk. *)
Lemma unified_diff_shape (fromfile tofile lineterm : string) :
  unified_diff a b fromfile tofile lineterm = []
  ∨ ∃ range rest,
      unified_diff a b fromfile tofile lineterm
      = ("--- " +:+ fromfile +:+ lineterm) :: ("+++ " +:+ tofile +:+ lineterm)
        :: ("@@ -" +:+ range) :: rest.
Proof.
  unfold unified_diff.
  pose proof (get_grouped_opcodes_nonempty 3) as Hne.
  destruct (get_grouped_opcodes a b 3) as [|g groups]; [by left|right].
  apply Forall_cons in Hne as [Hg _].
  destruct (group_lines_header lineterm g Hg) as (range & rest & Hlines).
  exists range, (rest ++ concat (map (group_lines a b lineterm) groups))%list.
  cbn [map concat]. by rewrite Hlines.
Qed.

End diff.

(** [_generate_diff] returns the empty text or a text that starts with the
    two file headers and the hunk header on one line. *)
Lemma generate_diff_shape (original fixed filename : string) :
  FixApplicator._generate_diff original fixed filename = EmptyString
  ∨ ∃ rest, FixApplicator._generate_diff original fixed filename
            = "--- a/" +:+ filename +:+ "+++ b/" +:+ filename +:+ "@@ -" +:+ rest.
Proof.
  unfold FixApplicator._generate_diff.
  destruct (unified_diff_shape (py.splitlines original) (py.splitlines fixed)
              ("a/" +:+ filename) ("b/" +:+ filename) EmptyString)
    as [->|(range & rest & ->)]; [by left|right].
  exists (range +:+ py.join rest).
  rewrite !join_cons, !append_nil_r, !append_assoc. reflexivity.
Qed.

End DiffProps.

(** ** The matcher of [difflib] *)

Module MatcherProps.
Import difflib.
Local Open Scope nat_scope.

Section matcher.
Variables a b : list string.

(** A match that lies within the two ranges it was looked for in *)
Definition within (alo ahi blo bhi : nat) (m : Match) : Prop :=
  let '(i, j, k) := m in alo ≤ i ∧ i + k ≤ ahi ∧ blo ≤ j ∧ j + k ≤ bhi.

(** The lengths [j2len] may hold once the rows [alo .. alo + rows - 1] are
    done: a match that ends in column [c] starts neither before row [alo]
    nor before column [blo]. *)
Definition lengths_bounded (alo blo bhi rows : nat) (j2len : gmap nat nat) : Prop :=
  ∀ c v, j2len !! c = Some v → blo ≤ c < bhi ∧ 1 ≤ v ∧ v ≤ rows ∧ v ≤ c + 1 - blo.

Lemma scan_row_within (alo ahi blo bhi i : nat) (j2len : gmap nat nat)
    (js : list nat) (best : Match) (newj2len : gmap nat nat) :
  alo ≤ i < ahi →
  lengths_bounded alo blo bhi (i - alo) j2len →
  within alo ahi blo bhi best →
  lengths_bounded alo blo bhi (i + 1 - alo) newj2len →
  within alo ahi blo bhi (fst (scan_row i blo bhi j2len js best newj2len))
  ∧ lengths_bounded alo blo bhi (i + 1 - alo)
      (snd (scan_row i blo bhi j2len js best newj2len)).
Proof.
  intros Hi Hold. revert best newj2len.
  induction js as [|j js IH]; intros best newj2len Hbest Hnew; simpl; [done|].
  case_bool_decide as Hlo; [by apply IH|].
  case_bool_decide as Hhi; [done|].
  set (prev := match j with O => 0 | S j' => default 0 (j2len !! j') end).
  assert (Hprev : prev ≤ i - alo ∧ prev ≤ j - blo).
  { subst prev. destruct j as [|j']; [lia|].
    destruct (j2len !! j') as [v|] eqn:Hv; simpl; [|lia].
    destruct (Hold _ _ Hv) as (? & ? & ? & ?). lia. }
  apply IH.
  - destruct best as [[bi bj] bs]. simpl. case_bool_decide; [|done].
    unfold within. lia.
  - intros c v. rewrite lookup_insert. case_decide as Hc.
    + intros [= <-]. subst c. lia.
    + apply Hnew.
Qed.

Lemma scan_rows_from_within (alo ahi blo bhi : nat) (rows i : nat)
    (best : Match) (j2len : gmap nat nat) :
  alo ≤ i → i + rows ≤ ahi →
  within alo ahi blo bhi best →
  lengths_bounded alo blo bhi (i - alo) j2len →
  within alo ahi blo bhi
    (fst (foldl (λ '(best, j2len) i,
                   match a !! i with
                   | Some line =>
                       scan_row i blo bhi j2len (default [] (b2j b !! line)) best ∅
                   | None => (best, ∅)
                   end)
                (best, j2len) (seq i rows))).
Proof.
  revert i best j2len. induction rows as [|rows IH]; intros i best j2len Hlo Hhi Hbest Hlen;
    simpl; [done|].
  destruct (a !! i) as [line|].
  - destruct (scan_row_within alo ahi blo bhi i j2len (default [] (b2j b !! line)) best ∅)
      as [Hbest' Hlen']; [lia|done|done|intros c v; by rewrite lookup_empty|].
    destruct (scan_row _ _ _ _ _ _ _) as [best' j2len'].
    apply IH; [lia|lia|done|]. by replace (S i - alo) with (i + 1 - alo) by lia.
  - apply IH; [lia|lia|done|]. intros c v. by rewrite lookup_empty.
Qed.

Lemma scan_rows_within (alo ahi blo bhi : nat) :
  alo ≤ ahi → blo ≤ bhi →
  within alo ahi blo bhi (scan_rows a b alo ahi blo bhi).
Proof.
  intros Ha Hb. unfold scan_rows.
  apply scan_rows_from_within; [lia|lia|unfold within; lia|].
  intros c v. by rewrite lookup_empty.
Qed.

Lemma extend_left_within (alo ahi blo bhi besti bestj bestsize : nat) :
  within alo ahi blo bhi (besti, bestj, bestsize) →
  within alo ahi blo bhi (extend_left a b alo blo besti bestj bestsize).
Proof.
  revert bestj bestsize.
  induction besti as [|i' IH]; intros bestj bestsize Hbest; simpl; [done|].
  destruct bestj as [|j']; [done|].
  destruct (_ && _) eqn:Htest; [|done].
  apply andb_prop in Htest as [[Hi Hj]%andb_prop _].
  apply bool_decide_eq_true in Hi, Hj.
  apply IH. unfold within in *. lia.
Qed.

Lemma extend_right_within (alo ahi blo bhi room besti bestj bestsize : nat) :
  besti + bestsize + room ≤ ahi →
  within alo ahi blo bhi (besti, bestj, bestsize) →
  within alo ahi blo bhi (extend_right a b room bhi besti bestj bestsize).
Proof.
  revert bestsize.
  induction room as [|room IH]; intros bestsize Hroom Hbest; simpl; [done|].
  destruct (_ && _) eqn:Htest; [|done].
  apply andb_prop in Htest as [Hj _]. apply bool_decide_eq_true in Hj.
  apply IH; [lia|]. unfold within in *. lia.
Qed.

(** [find_longest_match] answers within the ranges it is given. *)
Lemma find_longest_match_within (alo ahi blo bhi : nat) :
  alo ≤ ahi → blo ≤ bhi →
  within alo ahi blo bhi (find_longest_match a b alo ahi blo bhi).
Proof.
  intros Ha Hb. unfold find_longest_match.
  pose proof (scan_rows_within alo ahi blo bhi Ha Hb) as Hscan.
  destruct (scan_rows a b alo ahi blo bhi) as [[besti bestj] bestsize].
  pose proof (extend_left_within alo ahi blo bhi besti bestj bestsize Hscan) as Hleft.
  destruct (extend_left a b alo blo besti bestj bestsize) as [[besti' bestj'] bestsize'].
  apply extend_right_within; [|done]. unfold within in Hleft. lia.
Qed.

(** *** The rounds of [get_matching_blocks] *)

Definition range_weight (r : nat * nat * nat * nat) : nat :=
  let '(alo, ahi, _, _) := r in 2 * (ahi - alo) + 1.

Definition range_ok (r : nat * nat * nat * nat) : Prop :=
  let '(alo, ahi, blo, bhi) := r in alo ≤ ahi ∧ blo ≤ bhi.

(** Rounds beyond the weight of the queue change nothing: by then the queue
    is empty and the loop has ended. *)
Lemma match_queue_rounds (rounds extra : nat) (queue : list (nat * nat * nat * nat))
    (blocks : list Match) :
  Forall range_ok queue →
  sum_list_with range_weight queue ≤ rounds →
  match_queue a b (rounds + extra) queue blocks = match_queue a b rounds queue blocks.
Proof.
  revert queue blocks.
  induction rounds as [|rounds IH]; intros queue blocks Hok Hweight.
  - destruct queue as [|[[[alo ahi] blo] bhi] queue]; [by destruct extra|].
    simpl in Hweight. lia.
  - rewrite <-(reverse_involutive queue) in Hok, Hweight |- *.
    destruct (reverse queue) as [|[[[alo ahi] blo] bhi] rest]; [done|].
    rewrite reverse_cons in Hok, Hweight |- *.
    apply Forall_app in Hok as [Hrest Hr].
    apply Forall_cons in Hr as [[Ha Hb] _].
    rewrite sum_list_with_app in Hweight. simpl in Hweight.
    cbn [match_queue Nat.add]. rewrite reverse_snoc, !reverse_involutive.
    pose proof (find_longest_match_within alo ahi blo bhi Ha Hb) as Hwithin.
    destruct (find_longest_match a b alo ahi blo bhi) as [[i j] k].
    destruct Hwithin as (Hi & Hik & Hj & Hjk).
    case_bool_decide as Hk; [apply IH; [done|lia]|].
    apply IH.
    + repeat case_match; rewrite ?Forall_app; repeat split; try done;
        repeat constructor; simpl;
        repeat match goal with
        | E : _ && _ = true |- _ => apply andb_prop in E as [? ?]
        | E : bool_decide _ = true |- _ => apply bool_decide_eq_true in E
        end; lia.
    + repeat case_match; rewrite ?sum_list_with_app; simpl; lia.
Qed.

(** The rounds [get_matching_blocks] is given are enough. *)
Lemma get_matching_blocks_rounds (extra : nat) :
  match_queue a b (2 * length a + 1 + extra) [(0, length a, 0, length b)] []
  = match_queue a b (2 * length a + 1) [(0, length a, 0, length b)] [].
Proof.
  apply match_queue_rounds.
  - repeat constructor; simpl; lia.
  - simpl. lia.
Qed.

End matcher.
End MatcherProps.

Module EqualProps.
Import difflib MatcherProps.
Local Open Scope nat_scope.

(** *** The index of the lines of [b] *)

(** The indices a line is found at: all the places of the line in [b], in
    increasing order. *)
Definition places_of (b : list string) (line : string) (js : list nat) : Prop :=
  StronglySorted lt js ∧ ∀ j, j ∈ js ↔ b !! j = Some line.

Definition index_of_lines (b : list string) : gmap string (list nat) :=
  foldl (λ (m : gmap string (list nat)) '(i, elt),
           <[elt := (default [] (m !! elt) ++ [i])%list]> m)
        ∅ (imap pair b).

Lemma index_of_lines_snoc (b : list string) (x : string) :
  index_of_lines (b ++ [x])
  = <[x := (default [] (index_of_lines b !! x) ++ [length b])%list]> (index_of_lines b).
Proof.
  unfold index_of_lines. rewrite imap_app, foldl_app. simpl.
  by rewrite Nat.add_0_r.
Qed.

Lemma index_of_lines_spec (b : list string) (line : string) :
  match index_of_lines b !! line with
  | Some js => places_of b line js
  | None => ∀ j, b !! j ≠ Some line
  end.
Proof.
  induction b as [|x b IH] using rev_ind.
  { unfold index_of_lines. simpl. rewrite lookup_empty. by intros []. }
  rewrite index_of_lines_snoc.
  destruct (decide (x = line)) as [->|Hne].
  - rewrite lookup_insert_eq. split.
    + destruct (index_of_lines b !! line) as [js|]; simpl.
      * destruct IH as [Hsorted Hin]. apply StronglySorted_app_2; [|done|repeat constructor].
        intros j1 j2 Hj1%Hin%lookup_lt_Some ->%list_elem_of_singleton. done.
      * repeat constructor.
    + intros j. rewrite elem_of_app, list_elem_of_singleton, lookup_snoc_Some.
      destruct (index_of_lines b !! line) as [js|]; simpl.
      * destruct IH as [_ Hin]. rewrite Hin. split.
        -- intros [Hj| ->]; [left; split; [by eapply lookup_lt_Some|done]|by right].
        -- intros [[_ Hj]|[-> _]]; [by left|by right].
      * rewrite elem_of_nil. split.
        -- intros [[]| ->]. by right.
        -- intros [[_ Hj]|[-> _]]; [by apply IH in Hj|by right].
  - rewrite lookup_insert_ne by done.
    destruct (index_of_lines b !! line) as [js|].
    + destruct IH as [Hsorted Hin]. split; [done|].
      intros j. rewrite Hin, lookup_snoc_Some. split.
      * intros Hj. left. split; [by eapply lookup_lt_Some|done].
      * intros [[_ Hj]|[_ Hx]]; [done|contradiction].
    + intros j. rewrite lookup_snoc_Some.
      intros [[_ Hj]|[_ Hx]]; [by apply IH in Hj|contradiction].
Qed.

(** The indices [b2j] holds for a line are its places in [b]. *)
Lemma b2j_places (b : list string) (line : string) (js : list nat) :
  b2j b !! line = Some js → places_of b line js.
Proof.
  unfold b2j. fold (index_of_lines b).
  pose proof (index_of_lines_spec b line) as Hspec.
  case_bool_decide.
  - intros [Hjs _]%map_lookup_filter_Some. by rewrite Hjs in Hspec.
  - intros Hjs. by rewrite Hjs in Hspec.
Qed.

(** *** A sequence matched with itself *)

Section equal.
Variable a : list string.

(** The line at [i] has an entry in [b2j]: it is not one of the popular
    lines [__chain_b] drops. *)
Definition indexed (i : nat) : bool :=
  match a !! i with
  | Some line => bool_decide (is_Some (b2j a !! line))
  | None => false
  end.

(** The number of indexed lines in a row that end just before [i] *)
Fixpoint run (i : nat) : nat :=
  match i with
  | O => 0
  | S i' => if indexed i' then S (run i') else 0
  end.

Lemma run_le (i : nat) : run i ≤ i.
Proof. induction i as [|i IH]; simpl; [done|]. destruct (indexed i); lia. Qed.

(** The best match lies on the diagonal, ends before row [i] and is no
    shorter than any run that ends before row [i] or earlier. *)
Definition diagonal_best (i : nat) (best : Match) : Prop :=
  let '(bi, bj, bs) := best in bi = bj ∧ bi + bs ≤ i ∧ ∀ r, r ≤ i → run r ≤ bs.

(** A length in [j2len] for column [c], when the rows before [i] are done,
    is bounded by the run of the rows and by the run of the columns. *)
Definition lengths_below (i : nat) (j2len : gmap nat nat) : Prop :=
  ∀ c v, j2len !! c = Some v → v ≤ run i ∧ v ≤ run (S c).

Definition diagonal_length (i : nat) (j2len : gmap nat nat) : Prop :=
  ∀ i', i = S i' → default 0 (j2len !! i') = run i.

Lemma scan_row_equal (i : nat) (line : string) (j2len : gmap nat nat)
    (js : list nat) (best : Match) (newj2len : gmap nat nat) :
  a !! i = Some line →
  is_Some (b2j a !! line) →
  StronglySorted lt js →
  (∀ j, j ∈ js → a !! j = Some line) →
  lengths_below i j2len →
  diagonal_length i j2len →
  (let '(bi, bj, bs) := best in bi = bj ∧ bi + bs ≤ S i ∧ ∀ r, r ≤ i → run r ≤ bs) →
  lengths_below (S i) newj2len →
  (i ∈ js ∨ (run (S i) ≤ snd best ∧ newj2len !! i = Some (run (S i)))) →
  diagonal_best (S i) (fst (scan_row i 0 (length a) j2len js best newj2len))
  ∧ lengths_below (S i) (snd (scan_row i 0 (length a) j2len js best newj2len))
  ∧ snd (scan_row i 0 (length a) j2len js best newj2len) !! i = Some (run (S i)).
Proof.
  intros Hline Hindexed Hsorted Hjs Hold Hdiag.
  assert (Hrun_i : run (S i) = S (run i)).
  { simpl. unfold indexed. rewrite Hline. by rewrite bool_decide_eq_true_2. }
  revert best newj2len.
  induction js as [|j js IH]; intros [[bi bj] bs] newj2len Hbest Hnew Hi.
  - destruct Hi as [Hi|[Hbs Hlookup]]; [by apply elem_of_nil in Hi|].
    simpl in *. split; [|done]. destruct Hbest as (-> & Hend & Hruns).
    split; [done|]. split; [done|].
    intros r Hr. destruct (decide (r = S i)) as [->|]; [done|]. apply Hruns. lia.
  - apply StronglySorted_cons in Hsorted as [Hlater Hsorted].
    assert (Hj : a !! j = Some line) by (apply Hjs; left).
    assert (Hrun_j : run (S j) = S (run j)).
    { simpl. unfold indexed. rewrite Hj. by rewrite bool_decide_eq_true_2. }
    cbn [scan_row].
    rewrite bool_decide_eq_false_2 by lia.
    rewrite bool_decide_eq_false_2 by (apply lookup_lt_Some in Hj; lia).
    set (prev := match j with O => 0 | S j' => default 0 (j2len !! j') end).
    assert (Hprev : prev ≤ run i ∧ prev ≤ run j).
    { subst prev. destruct j as [|j']; [lia|].
      destruct (j2len !! j') as [v|] eqn:Hv; simpl; [|lia]. by apply Hold. }
    assert (Hprev_diag : j = i → prev = run i).
    { intros ->. subst prev. destruct i as [|i']; [done|]. by apply Hdiag. }
    clearbody prev. cbn [snd].
    assert (Hnew' : lengths_below (S i) (<[j:=prev + 1]> newj2len)).
    { intros c v. rewrite lookup_insert. case_decide as Hc; [|apply Hnew].
      intros [= <-]. subst c. lia. }
    rewrite Forall_forall in Hlater.
    destruct (decide (j = i)) as [->|Hji].
    + pose proof (Hprev_diag eq_refl) as Hprev_i.
      apply IH; [done|intros; apply Hjs; by right|..|done|].
      * destruct Hbest as (-> & Hend & Hruns).
        pose proof (run_le i). case_bool_decide.
        -- split; [done|]. split; [lia|]. intros r Hr. specialize (Hruns r Hr). lia.
        -- split; [done|]. split; [lia|]. done.
      * right. rewrite lookup_insert_eq. split; [|by rewrite Hprev_i, Hrun_i, Nat.add_1_r].
        case_bool_decide; cbn [snd]; lia.
    + assert (Hkeep : bool_decide (bs < prev + 1) = false).
      { apply bool_decide_eq_false_2.
        destruct Hbest as (_ & _ & Hruns).
        destruct (decide (j < i)) as [Hlt|Hgt].
        - specialize (Hruns (S j) ltac:(lia)). lia.
        - destruct Hi as [Hi|[Hbs _]]; [|cbn [snd] in Hbs; lia].
          apply elem_of_cons in Hi as [->|Hi]; [done|].
          specialize (Hlater i Hi). lia. }
      rewrite Hkeep.
      apply IH; [done|intros; apply Hjs; by right|done|done|].
      destruct Hi as [Hi|[Hbs Hlookup]].
      * apply elem_of_cons in Hi as [->|Hi]; [done|by left].
      * right. by rewrite lookup_insert_ne.
Qed.

Lemma scan_rows_from_equal (rows i : nat) (best : Match) (j2len : gmap nat nat) :
  i + rows ≤ length a →
  diagonal_best i best →
  lengths_below i j2len →
  diagonal_length i j2len →
  diagonal_best (i + rows)
    (fst (foldl (λ '(best, j2len) i,
                   match a !! i with
                   | Some line =>
                       scan_row i 0 (length a) j2len (default [] (b2j a !! line)) best ∅
                   | None => (best, ∅)
                   end)
                (best, j2len) (seq i rows))).
Proof.
  revert i best j2len.
  induction rows as [|rows IH]; intros i best j2len Hrows Hbest Hlen Hdiag; simpl.
  { by rewrite Nat.add_0_r. }
  replace (i + S rows) with (S i + rows) by lia.
  destruct (a !! i) as [line|] eqn:Hline.
  2:{ apply lookup_ge_None in Hline. lia. }
  destruct (b2j a !! line) as [js|] eqn:Hjs; simpl.
  - destruct (b2j_places a line js Hjs) as [Hsorted Hplaces].
    assert (Hindexed : is_Some (b2j a !! line)) by (by rewrite Hjs).
    assert (Hall : ∀ j, j ∈ js → a !! j = Some line) by (intros j; apply Hplaces).
    assert (Hbest_S : let '(bi, bj, bs) := best in
                      bi = bj ∧ bi + bs ≤ S i ∧ ∀ r, r ≤ i → run r ≤ bs).
    { destruct best as [[bi bj] bs]. destruct Hbest as (? & ? & ?).
      split; [done|]. split; [lia|done]. }
    assert (Hempty : lengths_below (S i) ∅) by (intros c v; by rewrite lookup_empty).
    assert (Hi : i ∈ js) by (by apply Hplaces).
    destruct (scan_row_equal i line j2len js best ∅ Hline Hindexed Hsorted Hall
                Hlen Hdiag Hbest_S Hempty (or_introl Hi)) as (Hbest' & Hlen' & Hdiag').
    destruct (scan_row _ _ _ _ _ _ _) as [best' j2len'].
    apply IH; [lia|done|done|]. intros i' [= <-]. simpl in Hdiag'. by rewrite Hdiag'.
  - assert (Hrun : run (S i) = 0).
    { simpl. unfold indexed. rewrite Hline, Hjs.
      rewrite bool_decide_eq_false_2; [done|]. by intros [? [=]]. }
    apply IH; [lia| | |].
    + destruct best as [[bi bj] bs]. destruct Hbest as (? & ? & Hruns).
      split; [done|]. split; [lia|].
      intros r Hr. destruct (decide (r = S i)) as [->|]; [lia|]. apply Hruns. lia.
    + intros c v. by rewrite lookup_empty.
    + intros i' [= <-]. by rewrite lookup_empty, Hrun.
Qed.

Lemma extend_left_equal (besti bestsize : nat) :
  extend_left a a 0 0 besti besti bestsize = (0, 0, besti + bestsize).
Proof.
  revert bestsize. induction besti as [|i IH]; intros bestsize; simpl; [done|].
  rewrite !bool_decide_eq_true_2 by (done || lia). simpl.
  rewrite IH. do 2 f_equal. lia.
Qed.

Lemma extend_right_equal (room bestsize : nat) :
  bestsize + room = length a →
  extend_right a a room (length a) 0 0 bestsize = (0, 0, length a).
Proof.
  revert bestsize. induction room as [|room IH]; intros bestsize Hroom; simpl.
  { do 2 f_equal. lia. }
  rewrite !bool_decide_eq_true_2 by (done || lia). simpl.
  apply IH. lia.
Qed.

(** A sequence matches itself from end to end. *)
Lemma find_longest_match_equal :
  find_longest_match a a 0 (length a) 0 (length a) = (0, 0, length a).
Proof.
  unfold find_longest_match, scan_rows. rewrite Nat.sub_0_r.
  pose proof (scan_rows_from_equal (length a) 0 (0, 0, 0) ∅) as Hscan.
  destruct (fst _) as [[besti bestj] bestsize].
  destruct Hscan as (-> & Hend & _).
  - lia.
  - split; [done|]. split; [lia|]. intros r Hr. by replace r with 0 by lia.
  - intros c v. by rewrite lookup_empty.
  - by intros i' [=].
  - rewrite extend_left_equal. apply extend_right_equal. simpl in Hend. lia.
Qed.

Lemma get_matching_blocks_equal :
  get_matching_blocks a a
  = if bool_decide (length a = 0) then [(0, 0, 0)]
    else [(0, 0, length a); (length a, length a, 0)].
Proof.
  unfold get_matching_blocks.
  replace (2 * length a + 1) with (S (2 * length a)) by lia.
  cbn [match_queue reverse rev_append]. rewrite find_longest_match_equal.
  case_bool_decide as Hempty.
  - destruct (2 * length a); cbn; by rewrite Hempty.
  - rewrite !bool_decide_eq_false_2 by lia. cbn [andb reverse rev_append app].
    assert (Hdone : match_queue a a (2 * length a) [] [(0, 0, length a)]
                    = [(0, 0, length a)]) by (by destruct (2 * length a)).
    rewrite Hdone. cbn.
    rewrite !bool_decide_eq_true_2 by (done || lia). done.
Qed.

Lemma get_opcodes_equal :
  get_opcodes a a
  = if bool_decide (length a = 0) then [] else [(equal, 0, length a, 0, length a)].
Proof.
  unfold get_opcodes. rewrite get_matching_blocks_equal.
  case_bool_decide as Hempty; cbn.
  - by rewrite !bool_decide_eq_false_2 by lia.
  - rewrite !(bool_decide_eq_false_2 (_ < _)) by lia. cbn.
    rewrite (bool_decide_eq_false_2 (0 ≠ 0)) by lia.
    by rewrite bool_decide_eq_true_2 by done.
Qed.

Lemma get_grouped_opcodes_equal : get_grouped_opcodes a a 3 = [].
Proof.
  unfold get_grouped_opcodes. rewrite get_opcodes_equal.
  case_bool_decide as Hempty; cbn.
  - by rewrite andb_false_r.
  - rewrite bool_decide_eq_true_2 by done.
    rewrite (bool_decide_eq_false_2 (_ < _)) by lia. done.
Qed.

(** The diff of a sequence of lines with itself has no line. *)
Lemma unified_diff_equal (fromfile tofile lineterm : string) :
  unified_diff a a fromfile tofile lineterm = [].
Proof. unfold unified_diff. by rewrite get_grouped_opcodes_equal. Qed.

End equal.

(** [_generate_diff] of a content with itself is the empty text. *)
Lemma generate_diff_unchanged (content filename : string) :
  FixApplicator._generate_diff content content filename = EmptyString.
Proof. unfold FixApplicator._generate_diff. by rewrite unified_diff_equal. Qed.

End EqualProps.

(** ** The applicator: one fix *)

Module ApplyProps.
Import FixApplicator.

Ltac unfold_apply_fix :=
  unfold apply_fix, total, apply_fix_call, try_except, apply_fix_body,
    mbind, call_bind, mret, call_ret, path_exists, open_read, open_write,
    shutil_copy2, applied_fixes_append, get_self, lift, fs.exists_, fs.read.

(** Runs [apply_fix] up to the verdict of the validation, for a file that
    is there ([Hstored]) and a content that was computed ([Hcandidate]). *)
Ltac run_to_validation Hfile Hpath Hstored Hcandidate Hv :=
  unfold_apply_fix;
  rewrite Hfile;
  match type of Hpath with
  | ?path ≠ _ => destruct path; [done|]
  end;
  simpl; rewrite bool_decide_eq_true_2 by (rewrite Hstored; eauto); simpl;
  rewrite Hstored; simpl; rewrite Hcandidate; simpl; rewrite Hv; simpl.

(** The result of a fix whose candidate content is rejected *)
Definition rejected (fix_ : Fix) (v : Validation) : ApplyResult :=
  {| success := false;
     message := "Fix introduces syntax errors: " +:+ validation_message v;
     result_fix := fix_; result_file := None; diff := None; dry_run := None;
     validation := Some v; error := None |}.

(** The result of a fix that went through *)
Definition applied (fix_ : Fix) (file_path diff : string) (dry : bool) : ApplyResult :=
  {| success := true; message := "Fix applied successfully";
     result_fix := fix_; result_file := Some file_path; diff := Some diff;
     dry_run := Some dry; validation := None; error := None |}.

Section apply.
Context `{Runtime}.

Local Opaque _apply_fix_to_content FixValidator.validate_syntax _generate_diff
  fs.universal_newlines.

(** C1: when the target file of a fix exists and the candidate content fails
    the syntax validation, [apply_fix] returns [success = false] with the
    validation detail, and the world after the call is the world before it:
    the file is unchanged, there is no backup and the fix is not in the
    history. *)
Theorem rejected_candidate_changes_nothing (fix_ : Fix) (dry : bool) (w : world)
    (path stored candidate : string) (v : Validation) :
  issue_file (fix_issue fix_) = Some path →
  path ≠ EmptyString →
  files w !! path = Some (TextFile stored) →
  _apply_fix_to_content fix_ (fs.universal_newlines stored) = Some candidate →
  FixValidator.validate_syntax candidate = Return v →
  valid v = false →
  apply_fix fix_ dry w = (rejected fix_ v, w).
Proof.
  intros Hfile Hpath Hstored Hcandidate Hv Hinvalid.
  run_to_validation Hfile Hpath Hstored Hcandidate Hv.
  by rewrite Hinvalid.
Qed.

(** A dry run leaves the world as it is. *)
Lemma dry_run_world (fix_ : Fix) (w : world) : snd (apply_fix fix_ true w) = w.
Proof.
  unfold_apply_fix.
  destruct (py.truthy_str _); [|done].
  case_bool_decide; [|done]. cbn [negb].
  repeat (case_match; try done; simplify_eq/=).
Qed.

(** A dry run on a file that can be read, with a candidate that is valid *)
Lemma dry_run_result (fix_ : Fix) (w : world)
    (path stored candidate : string) (v : Validation) :
  issue_file (fix_issue fix_) = Some path →
  path ≠ EmptyString →
  files w !! path = Some (TextFile stored) →
  _apply_fix_to_content fix_ (fs.universal_newlines stored) = Some candidate →
  FixValidator.validate_syntax candidate = Return v →
  valid v = true →
  fst (apply_fix fix_ true w)
  = applied fix_ path (_generate_diff (fs.universal_newlines stored) candidate path) true.
Proof.
  intros Hfile Hpath Hstored Hcandidate Hv Hvalid.
  run_to_validation Hfile Hpath Hstored Hcandidate Hv.
  by rewrite Hvalid.
Qed.

(** C9: [apply_fix] with [dry_run = True] changes neither the files (no
    backup, no write) nor the history of applied fixes; it still computes the
    candidate content, validates it and returns the diff. *)
Theorem dry_run_changes_nothing (fix_ : Fix) (w : world) :
  snd (apply_fix fix_ true w) = w
  ∧ ∀ path stored candidate v,
      issue_file (fix_issue fix_) = Some path →
      path ≠ EmptyString →
      files w !! path = Some (TextFile stored) →
      _apply_fix_to_content fix_ (fs.universal_newlines stored) = Some candidate →
      FixValidator.validate_syntax candidate = Return v →
      (valid v = true →
       fst (apply_fix fix_ true w)
       = applied fix_ path
           (_generate_diff (fs.universal_newlines stored) candidate path) true)
      ∧ (valid v = false → fst (apply_fix fix_ true w) = rejected fix_ v).
Proof.
  split; [apply dry_run_world|].
  intros path stored candidate v Hfile Hpath Hstored Hcandidate Hv. split.
  - by apply dry_run_result.
  - intros Hinvalid.
    run_to_validation Hfile Hpath Hstored Hcandidate Hv.
    by rewrite Hinvalid.
Qed.

(** What a successful result tells: the file was there, the content of the
    fix was computed from what was read, it passed the validation, and the
    result carries the diff of the two. *)
Lemma success_inv (fix_ : Fix) (dry : bool) (w : world) (r : ApplyResult) (w' : world) :
  apply_fix fix_ dry w = (r, w') →
  success r = true →
  ∃ path stored candidate,
    issue_file (fix_issue fix_) = Some path
    ∧ files w !! path = Some (TextFile stored)
    ∧ _apply_fix_to_content fix_ (fs.universal_newlines stored) = Some candidate
    ∧ (∃ v, FixValidator.validate_syntax candidate = Return v ∧ valid v = true)
    ∧ r = applied fix_ path
            (_generate_diff (fs.universal_newlines stored) candidate path) dry.
Proof.
  unfold_apply_fix.
  destruct (issue_file (fix_issue fix_)) as [[|c path]|] eqn:Hfile; simpl;
    [intros [= <- _]; done| |intros [= <- _]; done].
  case_bool_decide as Hexists; simpl; [|intros [= <- _]; done].
  destruct (files w !! String c path) as [[stored|err]|] eqn:Hstored; simpl;
    [|intros [= <- _]; done|intros [= <- _]; done].
  destruct (_apply_fix_to_content _ _) as [candidate|] eqn:Hcandidate; simpl;
    [|intros [= <- _]; done].
  destruct (FixValidator.validate_syntax candidate) as [v|e] eqn:Hv; simpl;
    [|intros [= <- _]; done].
  destruct (valid v) eqn:Hvalid; simpl; [|intros [= <- _]; done].
  intros Hrun Hsuccess.
  exists (String c path), stored, candidate.
  do 3 (split; [done|]). split; [eauto|].
  destruct dry; simpl in Hrun; [by injection Hrun as <- _|].
  destruct (create_backup (self w)); simpl in Hrun.
  - destruct (fs.copy2 _ _ _); simpl in Hrun; injection Hrun as <- _; done.
  - by injection Hrun as <- _.
Qed.


End apply.
End ApplyProps.

(** ** The applicator: a batch *)

Module BatchProps.
Import FixApplicator.

Section batch.
Context `{Runtime}.

Local Opaque apply_fix.

(** The body of the loop of [apply_fixes_batch] *)
Definition step (dry : bool)
    : list ApplyResult * world → Fix → list ApplyResult * world :=
  λ '(results, w) fix_,
    let '(result, w) := apply_fix fix_ dry w in
    ((results ++ [result])%list, w).

Lemma foldl_step_results (dry : bool) (fixes : list Fix)
    (results : list ApplyResult) (w : world) :
  foldl (step dry) (results, w) fixes
  = ((results ++ fst (foldl (step dry) ([], w) fixes))%list,
     snd (foldl (step dry) ([], w) fixes)).
Proof.
  revert results w. induction fixes as [|fix_ fixes IH]; intros results w; simpl.
  - by rewrite app_nil_r.
  - destruct (apply_fix fix_ dry w) as [r w1].
    rewrite (IH (results ++ [r])%list), (IH ([] ++ [r])%list). simpl.
    by rewrite <-app_assoc.
Qed.

Lemma apply_fixes_batch_foldl (fixes : list Fix) (dry : bool) (w : world) :
  apply_fixes_batch fixes dry w = foldl (step dry) ([], w) fixes.
Proof. done. Qed.

Lemma apply_fixes_batch_cons (fix_ : Fix) (fixes : list Fix) (dry : bool) (w : world) :
  apply_fixes_batch (fix_ :: fixes) dry w
  = (fst (apply_fix fix_ dry w)
       :: fst (apply_fixes_batch fixes dry (snd (apply_fix fix_ dry w))),
     snd (apply_fixes_batch fixes dry (snd (apply_fix fix_ dry w)))).
Proof.
  rewrite !apply_fixes_batch_foldl. simpl.
  destruct (apply_fix fix_ dry w) as [r w1]. simpl.
  by rewrite foldl_step_results.
Qed.

Lemma apply_fixes_batch_length (fixes : list Fix) (dry : bool) (w : world) :
  length (fst (apply_fixes_batch fixes dry w)) = length fixes.
Proof.
  revert w. induction fixes as [|fix_ fixes IH]; intros w; [done|].
  rewrite apply_fixes_batch_cons. simpl. by rewrite IH.
Qed.

Lemma apply_fixes_batch_lookup (fixes : list Fix) (dry : bool) (w : world)
    (i : nat) (fix_ : Fix) :
  fixes !! i = Some fix_ →
  fst (apply_fixes_batch fixes dry w) !! i
  = Some (fst (apply_fix fix_ dry (snd (apply_fixes_batch (take i fixes) dry w)))).
Proof.
  revert w i. induction fixes as [|f fixes IH]; intros w i Hi; [done|].
  rewrite apply_fixes_batch_cons. destruct i as [|i]; simpl in *.
  - by injection Hi as ->.
  - rewrite (IH _ _ Hi). by rewrite apply_fixes_batch_cons.
Qed.

Local Transparent apply_fix.

(** A fix for a file that is not there fails and changes nothing. *)
Lemma missing_file_fails (fix_ : Fix) (dry : bool) (w : world) (path : string) :
  issue_file (fix_issue fix_) = Some path →
  files w !! path = None →
  apply_fix fix_ dry w = (failure ("File not found: " +:+ path) fix_, w).
Proof.
  intros Hfile Hnone. ApplyProps.unfold_apply_fix.
  rewrite Hfile. destruct path as [|c path]; [done|].
  simpl. rewrite bool_decide_eq_false_2; [done|].
  rewrite Hnone. by intros [? [=]].
Qed.


End batch.
End BatchProps.

Module ScenarioProps.
Import example example_runtime scenarios FixApplicator ApplyProps.

(** The rejected candidate of [brace_fix]: nothing changes. *)
Lemma rejected_candidate_witness :
  apply_fix (H := runtime) brace_fix false brace_world
  = (rejected brace_fix brace_validation, brace_world).
Proof.
  apply (rejected_candidate_changes_nothing (H := runtime) brace_fix false brace_world
           "proj/a.py" assign_42_text open_brace_text brace_validation).
  - reflexivity.
  - discriminate.
  - vm_compute. reflexivity.
  - vm_compute. reflexivity.
  - vm_compute. reflexivity.
  - reflexivity.
Defined.




(** The text of the diff of [none_fix]: the headers and the first line of
    the hunk are one line. *)
Example diff_of_none_fix :
  diff (fst (apply_fix (H := runtime) none_fix true none_world))
  = Some ("--- a/proj/a.py+++ b/proj/a.py@@ -1,2 +1,2 @@-if value == None:" +:+ nl
          +:+ "+if value is None:" +:+ nl +:+ "     pass" +:+ nl).
Proof. vm_compute. reflexivity. Qed.

(** A batch of three fixes, dry run off: the second one names a file that
    is not there.  All three get a result, in order, and the third is applied
    to the file the first has already changed. *)
Example batch_with_missing_file :
  let '(results, w) :=
    FixApplicator.apply_fixes_batch (H := runtime) [none_fix; missing_fix; none_fix]
      false none_world in
  map success results = [true; false; true]
  ∧ map message results
    = ["Fix applied successfully"; "File not found: proj/gone.py";
       "Fix applied successfully"]
  ∧ applied_fixes (self w) = [none_fix; none_fix]
  ∧ files w = {[ "proj/a.py" := TextFile is_none_text;
                 "proj/a.py.backup" := TextFile is_none_text ]}.
Proof.
  vm_compute. repeat split.
Qed.

End ScenarioProps.

(** ** Trees and visitors *)

Module AstProps.
Import ast.

(** Induction on a tree: a property that holds for a node whenever it holds
    for the nodes of its fields holds for every node. *)
Lemma node_ind (P : node → Prop) :
  (∀ cls lineno parent fields,
     Forall (λ f, Forall P (snd f)) fields → P (Node cls lineno parent fields)) →
  ∀ n, P n.
Proof.
  intros Hnode. fix IH 1. intros [cls lineno parent fields]. apply Hnode.
  induction fields as [|[name ns] fields IHfields]; constructor; [|exact IHfields].
  simpl. induction ns as [|c ns IHns]; constructor; [apply IH|exact IHns].
Qed.

Lemma children_ind (P : node → Prop) :
  (∀ n, Forall P (children n) → P n) → ∀ n, P n.
Proof.
  intros Hnode. induction n as [cls lineno parent fields IH] using node_ind.
  apply Hnode. unfold children. simpl.
  induction IH as [|[name ns] fields Hns _ IHfields]; simpl; [constructor|].
  apply Forall_app. split; [exact Hns|exact IHfields].
Qed.

Lemma nodes_unfold (n : node) : nodes n = n :: flat_map nodes (children n).
Proof.
  destruct n as [cls lineno parent fields]. simpl. f_equal.
  unfold children. simpl.
  induction fields as [|[name ns] fields IH]; simpl; [done|].
  by rewrite flat_map_app, <-IH.
Qed.

Section NodeVisitor.
Context {V : Type} (enter : node → V → V) (leave : node → V → V → V).

Lemma visit_unfold (n : node) (v : V) :
  visit enter leave n v = leave n v (generic_visit enter leave n (enter n v)).
Proof.
  destruct n as [cls lineno parent fields]. simpl. f_equal.
  unfold generic_visit, children. simpl.
  generalize (enter (Node cls lineno parent fields) v). clear v.
  induction fields as [|[name ns] fields IH]; intros v; simpl; [done|].
  rewrite foldl_app, IH. f_equal.
  clear IH. revert v. induction ns as [|c ns IHns]; intros v; simpl; [done|].
  by rewrite IHns.
Qed.

End NodeVisitor.

(** A tree without [parent] attributes has none at any node below. *)
Lemma no_parent_attribute_children (n : node) :
  no_parent_attribute n →
  node_parent n = None ∧ Forall no_parent_attribute (children n).
Proof.
  unfold no_parent_attribute. rewrite nodes_unfold.
  intros [Hn Hrest]%Forall_cons. split; [done|].
  induction (children n) as [|c cs IH]; [constructor|].
  simpl in Hrest. apply Forall_app in Hrest as [Hc Hcs].
  constructor; [done|by apply IH].
Qed.

End AstProps.

(** ** The quality detector *)

Module QualityProps.
Import ast QualityDetector AstProps.

(** The issues of one type *)
Definition of_type (type : string) (i : Issue) : Prop := issue_type i = Some type.

Global Instance of_type_dec type i : Decision (of_type type i).
Proof. unfold of_type. apply _. Defined.

Lemma filter_snoc (P : Issue → Prop) `{∀ i, Decision (P i)} (l : list Issue) (i : Issue) :
  filter P (l ++ [i])%list = (filter P l ++ if decide (P i) then [i] else [])%list.
Proof.
  rewrite filter_app, filter_cons, filter_nil. by destruct (decide (P i)).
Qed.

Lemma flat_map_flat_map {A B C : Type} (f : B → list C) (g : A → list B) (l : list A) :
  flat_map f (flat_map g l) = flat_map (λ x, flat_map f (g x)) l.
Proof.
  induction l as [|x l IH]; simpl; [done|]. by rewrite flat_map_app, IH.
Qed.

Section accounting.
Context `{Runtime}.

(** What [enter] and [leave] do to the issues of one kind [P]: [enter]
    appends [emit file node], [leave] appends none. *)
Variable P : Issue → Prop.
Context `{∀ i, Decision (P i)}.
Variable emit : string → node → list Issue.

Hypothesis enter_emits : ∀ n self,
  file_path (enter n self) = file_path self
  ∧ filter P (issues (enter n self))
    = (filter P (issues self) ++ emit (file_path self) n)%list.

Hypothesis leave_emits_nothing : ∀ n on_entry self,
  file_path (leave n on_entry self) = file_path self
  ∧ filter P (issues (leave n on_entry self)) = filter P (issues self).

Lemma visit_children_emits (cs : list node) (self : QualityDetector) :
  Forall (λ c, ∀ self,
            file_path (visit c self) = file_path self
            ∧ filter P (issues (visit c self))
              = (filter P (issues self)
                 ++ flat_map (emit (file_path self)) (nodes c))%list) cs →
  file_path (foldl (λ v c, visit c v) self cs) = file_path self
  ∧ filter P (issues (foldl (λ v c, visit c v) self cs))
    = (filter P (issues self)
       ++ flat_map (λ c, flat_map (emit (file_path self)) (nodes c)) cs)%list.
Proof.
  intros Hcs. revert self.
  induction Hcs as [|c cs Hc _ IH]; intros self; simpl.
  - by rewrite app_nil_r.
  - destruct (Hc self) as [Hpath Hissues].
    destruct (IH (visit c self)) as [Hpath' Hissues'].
    rewrite Hpath', Hissues', Hissues, Hpath. split; [done|].
    by rewrite <-app_assoc.
Qed.

(** The issues of kind [P] of a visit: those of every node of the tree, in
    the order of the visit. *)
Lemma visit_emits (n : node) (self : QualityDetector) :
  file_path (visit n self) = file_path self
  ∧ filter P (issues (visit n self))
    = (filter P (issues self) ++ flat_map (emit (file_path self)) (nodes n))%list.
Proof.
  revert self. induction n as [n IH] using children_ind. intros self.
  change (visit n self) with (ast.visit enter leave n self).
  rewrite visit_unfold.
  destruct (leave_emits_nothing n self
              (generic_visit enter leave n (enter n self))) as [-> ->].
  destruct (visit_children_emits (children n) (enter n self) IH) as [Hpath Hissues].
  unfold generic_visit. unfold visit in Hpath, Hissues. rewrite Hpath, Hissues.
  destruct (enter_emits n self) as [-> ->]. split; [done|].
  rewrite nodes_unfold. simpl. by rewrite flat_map_flat_map, <-app_assoc.
Qed.

Lemma run_emits (file : string) (tree : node) :
  filter P (run file tree) = flat_map (emit file) (nodes tree).
Proof.
  unfold run. by destruct (visit_emits tree (__init__ file)) as [_ ->].
Qed.

End accounting.

Lemma flat_map_if {A B : Type} (Q : A → Prop) `{∀ x, Decision (Q x)} (f : A → B)
    (l : list A) :
  flat_map (λ x, if decide (Q x) then [f x] else []) l = map f (filter Q l).
Proof.
  induction l as [|x l IH]; simpl; [done|].
  rewrite filter_cons, IH. by destruct (decide (Q x)).
Qed.

Section reports.
Context `{Runtime}.

Lemma report_filter (P : Issue → Prop) `{∀ i, Decision (P i)}
    (self : QualityDetector) (n : node) (type message severity : string) :
  file_path (report self n type message severity) = file_path self
  ∧ filter P (issues (report self n type message severity))
    = (filter P (issues self)
       ++ if decide (P (issue_at (file_path self) n type message severity))
          then [issue_at (file_path self) n type message severity] else [])%list.
Proof. split; [done|]. apply filter_snoc. Qed.

Lemma count_branch_issues (self : QualityDetector) :
  file_path (count_branch self) = file_path self
  ∧ issues (count_branch self) = issues self.
Proof. unfold count_branch. by destruct (py.truthy_str _). Qed.

(** *** Too many arguments *)

Definition function_name (n : node) : string :=
  match node_cls n with FunctionDef name => name | _ => EmptyString end.

(** A [def] whose named parameters are more than seven *)
Definition long_def (n : node) : Prop :=
  is_FunctionDef n = true ∧ total_args n > 7.

Global Instance long_def_dec n : Decision (long_def n).
Proof. unfold long_def. apply _. Defined.

(** The issue [visit_FunctionDef] appends for such a [def] *)
Definition too_many_issue (file : string) (n : node) : Issue :=
  issue_at file n "too_many_arguments"
    ("Function " +:+ py.quoted (function_name n) +:+ " has "
     +:+ py.str_int (total_args n) +:+ " arguments (max recommended: 7)")
    "info".

Ltac by_type :=
  repeat match goal with
  | |- context [decide (of_type ?t ?i)] =>
      destruct (decide (of_type t i)) as [E|E];
        [try (unfold of_type in E; simpl in E; discriminate E)
        |try (exfalso; apply E; reflexivity)]
  end;
  rewrite ?app_nil_r; try done.

Lemma enter_too_many (n : node) (self : QualityDetector) :
  file_path (enter n self) = file_path self
  ∧ filter (of_type "too_many_arguments") (issues (enter n self))
    = (filter (of_type "too_many_arguments") (issues self)
       ++ if decide (long_def n) then [too_many_issue (file_path self) n] else [])%list.
Proof.
  unfold enter.
  destruct (decide (long_def n)) as [[Hdef Hlong]|Hshort].
  - unfold is_FunctionDef in Hdef.
    destruct (node_cls n) eqn:Hcls; try discriminate.
    unfold enter_FunctionDef, too_many_issue, function_name. rewrite Hcls.
    rewrite bool_decide_eq_true_2 by done.
    destruct (lacks_docstring n name); simpl;
      (split; [done|]); rewrite !filter_snoc; by_type.
  - rewrite app_nil_r.
    destruct (node_cls n) eqn:Hcls; try done;
      try by destruct (count_branch_issues self) as [-> ->].
    + unfold enter_FunctionDef.
      rewrite bool_decide_eq_false_2.
      2:{ intros Hlong. apply Hshort. split; [|done].
          unfold is_FunctionDef. by rewrite Hcls. }
      destruct (lacks_docstring n name); simpl; [|done].
      split; [done|]. rewrite !filter_snoc. by_type.
    + unfold enter_ClassDef.
      destruct (lacks_docstring n name), (bool_decide _); simpl;
        (split; [done|]); rewrite ?filter_snoc; by_type.
    + split; [done|]. simpl. rewrite filter_snoc. by_type.
    + unfold enter_Constant.
      destruct (number value) as [q|]; [|done].
      destruct (not_common q); [|done].
      destruct (negb _); [|done].
      split; [done|]. simpl. rewrite filter_snoc. by_type.
Qed.

Lemma leave_no_issue_of (type : string) (n : node) (on_entry self : QualityDetector) :
  type ≠ "high_complexity" →
  file_path (leave n on_entry self) = file_path self
  ∧ filter (of_type type) (issues (leave n on_entry self))
    = filter (of_type type) (issues self).
Proof.
  intros Hne. unfold leave. destruct (node_cls n); try done.
  unfold leave_FunctionDef. destruct (bool_decide _); simpl; [|done].
  split; [done|]. rewrite filter_snoc.
  destruct (decide _) as [[= E]|_]; [by subst type|by rewrite app_nil_r].
Qed.

(** C7, as the code has it: the [too_many_arguments] issues of a file are,
    in the order of the visit, one for every [def] whose positional-only,
    positional-or-keyword and keyword-only parameters together are more than
    seven; the issue is on the line of the [def] and has severity [info].
    A [*args] or [**kwargs] parameter is not counted, and an [async def] is
    not looked at. *)
Theorem too_many_arguments_once_per_def (file : string) (tree : node) :
  filter (of_type "too_many_arguments") (run file tree)
  = map (too_many_issue file) (filter long_def (nodes tree))
  ∧ ∀ n, issue_line (too_many_issue file n) = Some (node_lineno n)
         ∧ issue_severity (too_many_issue file n) = Some "info"
         ∧ issue_file (too_many_issue file n) = Some file.
Proof.
  split; [|done].
  rewrite <-flat_map_if.
  apply (run_emits (of_type "too_many_arguments")
           (λ file n, if decide (long_def n) then [too_many_issue file n] else [])).
  - apply enter_too_many.
  - intros n on_entry self. by apply leave_no_issue_of.
Qed.

(** *** Magic numbers *)

(** A constant that is a number outside the whitelist *)
Definition magic (n : node) : Prop :=
  match node_cls n with
  | Constant value =>
      match number value with
      | Some q => not_common q = true
      | None => False
      end
  | _ => False
  end.

Global Instance magic_dec n : Decision (magic n).
Proof. unfold magic. destruct (node_cls n); try apply _. destruct (number _); apply _. Defined.

(** A magic constant [visit_Constant] reports: its attribute [parent] is
    absent or holds no [ast.Assign]. *)
Definition reported (n : node) : Prop := magic n ∧ is_Assign (node_parent n) = false.

Global Instance reported_dec n : Decision (reported n).
Proof. unfold reported. apply _. Defined.

Definition constant_value (n : node) : constant :=
  match node_cls n with Constant value => value | _ => COther end.

(** The issue [visit_Constant] appends *)
Definition magic_issue (file : string) (n : node) : Issue :=
  issue_at file n "magic_number"
    ("Magic number " +:+ constant_text (constant_value n)
     +:+ " should be a named constant")
    "info".

Lemma enter_magic (n : node) (self : QualityDetector) :
  file_path (enter n self) = file_path self
  ∧ filter (of_type "magic_number") (issues (enter n self))
    = (filter (of_type "magic_number") (issues self)
       ++ if decide (reported n) then [magic_issue (file_path self) n] else [])%list.
Proof.
  unfold enter.
  destruct (decide (reported n)) as [[Hmagic Hparent]|Hnot].
  - unfold magic in Hmagic.
    destruct (node_cls n) eqn:Hcls; try done.
    destruct (number value) as [q|] eqn:Hq; [|done].
    unfold enter_Constant, magic_issue, constant_value.
    rewrite Hcls, Hq, Hmagic, Hparent. simpl.
    split; [done|]. rewrite filter_snoc. by_type.
  - rewrite app_nil_r.
    destruct (node_cls n) eqn:Hcls; try done;
      try by destruct (count_branch_issues self) as [-> ->].
    + unfold enter_FunctionDef.
      destruct (bool_decide _), (lacks_docstring n name); simpl;
        (split; [done|]); rewrite ?filter_snoc; by_type.
    + unfold enter_ClassDef.
      destruct (lacks_docstring n name), (bool_decide _); simpl;
        (split; [done|]); rewrite ?filter_snoc; by_type.
    + split; [done|]. simpl. rewrite filter_snoc. by_type.
    + unfold enter_Constant.
      destruct (number value) as [q|] eqn:Hq; [|done].
      destruct (not_common q) eqn:Hcommon; [|done].
      destruct (is_Assign (node_parent n)) eqn:Hparent; [done|].
      exfalso. apply Hnot. split; [|done].
      unfold magic. by rewrite Hcls, Hq.
Qed.

(** The [magic_number] issues of a file: one for every reported constant,
    in the order of the visit. *)
Lemma magic_numbers_reported (file : string) (tree : node) :
  filter (of_type "magic_number") (run file tree)
  = map (magic_issue file) (filter reported (nodes tree)).
Proof.
  rewrite <-flat_map_if.
  apply (run_emits (of_type "magic_number")
           (λ file n, if decide (reported n) then [magic_issue file n] else [])).
  - apply enter_magic.
  - intros n on_entry self. by apply leave_no_issue_of.
Qed.

(** On a tree the parser has built, the test on the parent never holds:
    every magic constant is reported, whatever statement it stands in. *)
Lemma magic_numbers_of_parsed_tree (file : string) (tree : node) :
  no_parent_attribute tree →
  filter (of_type "magic_number") (run file tree)
  = map (magic_issue file) (filter magic (nodes tree)).
Proof.
  intros Hplain. rewrite magic_numbers_reported. f_equal.
  unfold no_parent_attribute in Hplain.
  induction Hplain as [|n ns Hn _ IH]; [done|].
  rewrite !filter_cons, IH.
  destruct (decide (reported n)) as [[Hm _]|Hnot], (decide (magic n)) as [Hm'|Hm'];
    try done.
  exfalso. apply Hnot. split; [done|]. by rewrite Hn.
Qed.

End reports.

End QualityProps.

(** ** Scenarios of the quality detector *)

Module QualityScenarios.
Import example example_runtime QualityProps.

(** The number of formal parameters of a [def], every kind counted: the
    positional-only, positional-or-keyword and keyword-only parameters, and
    the [*args] and [**kwargs] parameters when the [def] has them. *)
Definition all_parameters (n : ast.node) : Z :=
  let args := ast.field "args" n in
  QualityDetector.total_args n
  + Z.of_nat (length (flat_map (ast.field "vararg") args))
  + Z.of_nat (length (flat_map (ast.field "kwarg") args)).

Definition magic_42 : Issue :=
  {| issue_file := Some "proj/a.py"; issue_line := Some 1;
     issue_type := Some "magic_number";
     issue_message := Some "Magic number 42 should be a named constant";
     issue_severity := Some "info" |}.

(** C3 on the code: for the file [x = 42] the quality detector reports the
    literal 42 as a magic number, although it is the whole right-hand side of
    an assignment to a name. *)
Theorem assigned_literal_is_reported :
  QualityDetector.detect_quality_issues (H := runtime) "proj/a.py" assign_42_text
  = Return [magic_42].
Proof. vm_compute. reflexivity. Qed.

(** Were the attribute [parent] of the literal set to the assignment, the
    test of [visit_Constant] would leave the literal out. *)
Example assigned_literal_with_parent :
  QualityDetector.run (H := runtime) "proj/a.py"
    (ast.Node ast.Module 0 None
       [("body",
         [ast.Node ast.Assign 1 (Some ast.Module)
            [("targets", [ast.Node (ast.Name "x") 1 (Some ast.Assign) []]);
             ("value",
              [ast.Node (ast.Constant (ast.CInt 42)) 1 (Some ast.Assign) []])]])])
  = [].
Proof. vm_compute. reflexivity. Qed.

(** C7, as the claim has it, fails: a [def] with seven named parameters and
    [*rest] has eight formal parameters and gets no [too_many_arguments]
    issue, and neither does an [async def] with eight named parameters; the
    same eight parameters on a plain [def] are reported. *)
Lemma variadic_and_async_defs_not_reported :
  (∃ def issues,
     ast.field "body" seven_and_rest_tree = [def]
     ∧ ast.is_FunctionDef def = true
     ∧ all_parameters def = 8
     ∧ QualityDetector.detect_quality_issues (H := runtime) "proj/a.py"
         seven_and_rest_text = Return issues
     ∧ filter (of_type "too_many_arguments") issues = [])
  ∧ (∃ def issues,
       ast.field "body" async_eight_tree = [def]
       ∧ ast.node_cls def = ast.AsyncFunctionDef "f"
       ∧ all_parameters def = 8
       ∧ QualityDetector.detect_quality_issues (H := runtime) "proj/a.py"
           async_eight_text = Return issues
       ∧ filter (of_type "too_many_arguments") issues = [])
  ∧ (∃ def issues,
       ast.field "body" eight_tree = [def]
       ∧ QualityDetector.detect_quality_issues (H := runtime) "proj/a.py"
           eight_text = Return issues
       ∧ filter (of_type "too_many_arguments") issues
         = [too_many_issue "proj/a.py" def]).
Proof.
  split; [|split]; eexists _, _; repeat split; vm_compute; reflexivity.
Qed.

End QualityScenarios.

(** ** The scan *)

Module ScanProps.
Import CodeScanner BugFixingAssistant.

Lemma foldl_appends {A B : Type} (step : list B → A → list B) (l : list A) (acc : list B) :
  (∀ acc x, step acc x = (acc ++ step [] x)%list) →
  foldl step acc l = (acc ++ flat_map (step []) l)%list.
Proof.
  intros Hstep. revert acc. induction l as [|x l IH]; intros acc; simpl.
  - by rewrite app_nil_r.
  - by rewrite IH, Hstep, <-app_assoc.
Qed.

(** The [syntax_error] issue of the scanner *)
Definition syntax_error (file_path : string) (e : SyntaxError) : Issue :=
  {| issue_file := Some file_path;
     issue_line := se_lineno e;
     issue_type := Some "syntax_error";
     issue_message := Some (se_msg e);
     issue_severity := Some "critical" |}.

Section scan.
Context `{Runtime}.

Lemma _scan_file_appends (files : gmap string entry)
    (file_path : string) (results : list Issue) :
  _scan_file files file_path results
  = (results ++ _scan_file files file_path [])%list.
Proof.
  unfold _scan_file, _analyze_python_file, mbind, outcome_bind.
  destruct (fs.read files file_path) as [content|e]; [|done].
  case_bool_decide; [|by rewrite app_nil_r].
  destruct (ast_parse content); by rewrite ?app_nil_r.
Qed.

Lemma run_detectors_appends (files : gmap string entry) (file_path : string)
    (results : list Issue) :
  run_detectors files file_path results
  = (results ++ run_detectors files file_path [])%list.
Proof.
  unfold run_detectors.
  destruct (fs.read files file_path) as [content|e]; [|by rewrite app_nil_r].
  destruct (PatternDetector.detect_patterns _ _) as [pattern_issues|];
    [|by rewrite app_nil_r].
  destruct (SecurityDetector.detect_security_issues _ _) as [security_issues|];
    [|done].
  destruct (QualityDetector.detect_quality_issues _ _) as [quality_issues|];
    simpl; by rewrite ?app_assoc.
Qed.

(** What the first pass adds for one file *)
Definition scanned (files : gmap string entry) (file_path : string)
    : list Issue :=
  _scan_file files file_path [].

(** What the second pass adds for one file *)
Definition detected (files : gmap string entry) (file_path : string) : list Issue :=
  run_detectors files file_path [].

Lemma scan_directory_two_passes (files : gmap string entry) (extensions : list string)
    (directory : string) :
  scan_directory files extensions directory
  = (flat_map (scanned files) (_find_code_files directory extensions)
     ++ flat_map (detected files) (_find_code_files directory extensions))%list.
Proof.
  unfold scan_directory, CodeScanner.scan_directory.
  rewrite (foldl_appends (λ results file_path, run_detectors files file_path results))
    by (intros; apply run_detectors_appends).
  rewrite (foldl_appends (λ results file_path, _scan_file files file_path results))
    by (intros; apply _scan_file_appends).
  done.
Qed.

Lemma unparsable_file (files : gmap string entry)
    (file_path content : string) (e : SyntaxError) :
  fs.read files file_path = Return content →
  ast_parse content = ParseSyntaxError e →
  scanned files file_path
  = (if bool_decide (suffix file_path = ".py") then [syntax_error file_path e] else [])
  ∧ detected files file_path = [].
Proof.
  intros Hread Hparse. split.
  - unfold scanned, _scan_file, _analyze_python_file, mbind, outcome_bind.
    rewrite Hread. case_bool_decide; [|done]. by rewrite Hparse.
  - unfold detected, run_detectors, PatternDetector.detect_patterns,
      SecurityDetector.detect_security_issues, QualityDetector.detect_quality_issues.
    by rewrite Hread, Hparse.
Qed.

Lemma parsable_file (files : gmap string entry)
    (file_path content : string) (tree : ast.node) :
  fs.read files file_path = Return content →
  ast_parse content = Parsed tree →
  scanned files file_path = []
  ∧ detected files file_path
    = (PatternDetector.run file_path tree ++ SecurityDetector.run file_path tree
       ++ QualityDetector.run file_path tree)%list.
Proof.
  intros Hread Hparse. split.
  - unfold scanned, _scan_file, _analyze_python_file, mbind, outcome_bind.
    rewrite Hread. case_bool_decide; [|done]. by rewrite Hparse.
  - unfold detected, run_detectors, PatternDetector.detect_patterns,
      SecurityDetector.detect_security_issues, QualityDetector.detect_quality_issues.
    rewrite Hread, Hparse. simpl. by rewrite app_assoc.
Qed.

(** C5, as the code has it: the scan makes two passes over the enumerated
    files.  The result is what the scanner records for each file, in the
    order of the enumeration, followed by what the detectors find in each
    file, again in the order of the enumeration.  A file that can be read and
    does not parse contributes one [syntax_error] issue of severity
    [critical] with the line and the message of the parser, in the first
    pass and when its suffix is [.py], and no detector issue; a file that
    parses contributes nothing in the first pass and the issues of the
    pattern, the security and the quality detector, in that order, in the
    second. *)
Theorem scan_is_two_passes (files : gmap string entry) (extensions : list string)
    (directory : string) :
  let code_files := _find_code_files directory extensions in
  scan_directory files extensions directory
  = (flat_map (scanned files) code_files
     ++ flat_map (detected files) code_files)%list
  ∧ (∀ file_path content e,
       fs.read files file_path = Return content →
       ast_parse content = ParseSyntaxError e →
       scanned files file_path
       = (if bool_decide (suffix file_path = ".py")
          then [syntax_error file_path e] else [])
       ∧ detected files file_path = [])
  ∧ (∀ file_path content tree,
       fs.read files file_path = Return content →
       ast_parse content = Parsed tree →
       scanned files file_path = []
       ∧ detected files file_path
         = (PatternDetector.run file_path tree ++ SecurityDetector.run file_path tree
            ++ QualityDetector.run file_path tree)%list).
Proof.
  intros code_files. split; [apply scan_directory_two_passes|].
  split.
  - intros. by eapply unparsable_file.
  - intros. by eapply parsable_file.
Qed.

End scan.
End ScanProps.

Module ScanScenarios.
Import example example_runtime scenarios ScanProps.

(** Issues file by file: those of one file before those of the next *)
Definition file_by_file (code_files : list string) (issues : list Issue) : Prop :=
  ∃ per_file : list (list Issue),
    issues = concat per_file
    ∧ Forall2 (λ file_path of_file,
                 Forall (λ i, issue_file i = Some file_path) of_file)
              code_files per_file.

(** C5, as the claim has it, fails: [a.py] is enumerated before [b.py], and
    the syntax error of [b.py] stands before the issue of [a.py] in the
    result, so the issues are not in the order of the enumeration. *)
Lemma syntax_errors_come_first :
  CodeScanner._find_code_files (H := runtime) "proj" [".py"] = ["proj/a.py"; "proj/b.py"]
  ∧ BugFixingAssistant.scan_directory (H := runtime) project [".py"] "proj"
    = [syntax_error "proj/b.py" open_call_error; none_comparison_a]
  ∧ ¬ file_by_file
        (CodeScanner._find_code_files (H := runtime) "proj" [".py"])
        (BugFixingAssistant.scan_directory (H := runtime) project [".py"] "proj").
Proof.
  assert (Hscan : BugFixingAssistant.scan_directory (H := runtime) project [".py"] "proj"
                  = [syntax_error "proj/b.py" open_call_error; none_comparison_a])
    by (vm_compute; reflexivity).
  assert (Hfiles : CodeScanner._find_code_files (H := runtime) "proj" [".py"]
                   = ["proj/a.py"; "proj/b.py"]) by (vm_compute; reflexivity).
  split; [done|]. split; [done|].
  rewrite Hscan, Hfiles. intros (per_file & Hconcat & Hall).
  apply Forall2_cons_inv_l in Hall as (of_a & rest & Ha & Hrest & ->).
  apply Forall2_cons_inv_l in Hrest as (of_b & rest' & Hb & Hnil & ->).
  apply Forall2_nil_inv_l in Hnil as ->.
  simpl in Hconcat. rewrite app_nil_r in Hconcat.
  destruct of_a as [|i of_a]; simpl in Hconcat.
  - subst of_b. apply Forall_cons in Hb as [_ Hb].
    apply Forall_cons in Hb as [Hb _]. discriminate Hb.
  - injection Hconcat as <- _. apply Forall_cons in Ha as [Ha _]. discriminate Ha.
Qed.

End ScanScenarios.

(** ** The applicator: failures, effects and what is left alone *)

Module ApplicatorProps.
Import FixApplicator ApplyProps.

(** The result of a fix whose application raised [e] *)
Definition errored (fix_ : Fix) (e : string) : ApplyResult :=
  {| success := false; message := "Error applying fix: " +:+ e;
     result_fix := fix_; result_file := None; diff := None; dry_run := None;
     validation := None; error := Some e |}.

(** The files after a fix went through for good: the backup first, then the
    new content. *)
Definition files_after (this : FixApplicator) (files : gmap string entry)
    (path stored candidate : string) : gmap string entry :=
  <[path := TextFile candidate]>
    (if create_backup this
     then <[path +:+ backup_suffix this := TextFile stored]> files
     else files).

Lemma append_empty_r (s : string) : s +:+ EmptyString = s.
Proof. induction s as [|c s IH]; [done|]. by rewrite TextProps.append_cons, IH. Qed.

Lemma append_eq_self (s t : string) : s = s +:+ t → t = EmptyString.
Proof.
  induction s as [|c s IH]; [done|].
  rewrite TextProps.append_cons. intros [= Hs]. by apply IH.
Qed.

Section applicator.
Context `{Runtime}.

Local Opaque _apply_fix_to_content FixValidator.validate_syntax _generate_diff
  fs.universal_newlines.


(** X2: an exception raised while the fix is applied does not leave
    [apply_fix]: when the file cannot be read, or when the parser raises
    something else than a [SyntaxError] on the candidate content, the result
    is the failure [Error applying fix: <text of the exception>] with the text
    under ['error'], and the files and the history are as before. *)
Theorem exception_is_reported (fix_ : Fix) (dry : bool) (w : world)
    (path e : string) :
  issue_file (fix_issue fix_) = Some path →
  path ≠ EmptyString →
  (files w !! path = Some (Unreadable e)
   ∨ ∃ stored candidate,
       files w !! path = Some (TextFile stored)
       ∧ _apply_fix_to_content fix_ (fs.universal_newlines stored) = Some candidate
       ∧ FixValidator.validate_syntax candidate = Raise e) →
  apply_fix fix_ dry w = (errored fix_ e, w).
Proof.
  intros Hfile Hpath [Hstored|(stored & candidate & Hstored & Hcandidate & Hv)].
  - unfold_apply_fix. rewrite Hfile. destruct path; [done|].
    simpl. rewrite bool_decide_eq_true_2 by (rewrite Hstored; eauto). simpl.
    by rewrite Hstored.
  - by run_to_validation Hfile Hpath Hstored Hcandidate Hv.
Qed.

(** What [apply_fix] does, case by case *)
Lemma apply_fix_cases (fix_ : Fix) (dry : bool) (w : world) :
  (success (fst (apply_fix fix_ dry w)) = false ∧ snd (apply_fix fix_ dry w) = w)
  ∨ ∃ path stored candidate,
      issue_file (fix_issue fix_) = Some path
      ∧ path ≠ EmptyString
      ∧ files w !! path = Some (TextFile stored)
      ∧ _apply_fix_to_content fix_ (fs.universal_newlines stored) = Some candidate
      ∧ (∃ v, FixValidator.validate_syntax candidate = Return v ∧ valid v = true)
      ∧ (create_backup (self w) = true → dry = false →
         backup_suffix (self w) ≠ EmptyString)
      ∧ fst (apply_fix fix_ dry w)
        = applied fix_ path (_generate_diff (fs.universal_newlines stored) candidate path) dry
      ∧ snd (apply_fix fix_ dry w)
        = if dry then w
          else {| self := {| create_backup := create_backup (self w);
                             backup_suffix := backup_suffix (self w);
                             applied_fixes := (applied_fixes (self w) ++ [fix_])%list |};
                  files := files_after (self w) (files w) path stored candidate |}.
Proof.
  unfold_apply_fix.
  destruct (issue_file (fix_issue fix_)) as [[|c path]|] eqn:Hfile; simpl;
    [by left| |by left].
  case_bool_decide as Hexists; simpl; [|by left].
  destruct (files w !! String c path) as [[stored|err]|] eqn:Hstored; simpl;
    [|by left|by left].
  destruct (_apply_fix_to_content _ _) as [candidate|] eqn:Hcandidate; simpl;
    [|by left].
  destruct (FixValidator.validate_syntax candidate) as [v|e] eqn:Hv; simpl;
    [|by left].
  destruct (valid v) eqn:Hvalid; simpl; [|by left].
  destruct dry; simpl.
  { right. exists (String c path), stored, candidate.
    do 4 (split; [done|]). split; [eauto|]. by split. }
  unfold files_after, fs.copy2, fs.write.
  destruct (create_backup (self w)) eqn:Hbackup; simpl.
  - rewrite Hstored. case_bool_decide as Hsame; simpl; [by left|].
    right. exists (String c path), stored, candidate.
    do 4 (split; [done|]). split; [eauto|].
    split; [|by rewrite Hbackup]. intros _ _ Hsuffix. apply Hsame.
    by rewrite Hsuffix, append_empty_r.
  - right. exists (String c path), stored, candidate.
    do 4 (split; [done|]). split; [eauto|]. split; [done|]. by rewrite Hbackup.
Qed.

(** The world a fix that went through for good leaves behind *)
Lemma applied_world (fix_ : Fix) (w : world) (r : ApplyResult) (w' : world) :
  apply_fix fix_ false w = (r, w') →
  success r = true →
  ∃ path stored candidate,
    issue_file (fix_issue fix_) = Some path
    ∧ path ≠ EmptyString
    ∧ files w !! path = Some (TextFile stored)
    ∧ _apply_fix_to_content fix_ (fs.universal_newlines stored) = Some candidate
    ∧ (create_backup (self w) = true → backup_suffix (self w) ≠ EmptyString)
    ∧ w' = {| self := {| create_backup := create_backup (self w);
                         backup_suffix := backup_suffix (self w);
                         applied_fixes := (applied_fixes (self w) ++ [fix_])%list |};
              files := files_after (self w) (files w) path stored candidate |}.
Proof.
  intros Hrun Hsuccess.
  destruct (apply_fix_cases fix_ false w)
    as [[Hfail _]|(path & stored & candidate & Hfile & Hpath & Hstored & Hcandidate
                   & _ & Hsuffix & _ & Hworld)].
  { rewrite Hrun in Hfail. simpl in Hfail. congruence. }
  rewrite Hrun in Hworld. simpl in Hworld.
  exists path, stored, candidate. do 4 (split; [done|]). split; [|done].
  intros Hbackup. by apply Hsuffix.
Qed.

Lemma backup_path_differs (path suffix : string) :
  suffix ≠ EmptyString → path ≠ path +:+ suffix.
Proof. intros Hsuffix Heq. apply Hsuffix. by eapply append_eq_self. Qed.

(** X3: what a fix that is applied for good ([dry_run = False], success)
    does to the world: the file holds the candidate content, the backup path
    (the path followed by the suffix) holds what the file held before when
    backups are on, no other path changes, and the fix is appended to the
    history. *)
Theorem applied_fix_effects (fix_ : Fix) (w : world) (r : ApplyResult) (w' : world) :
  apply_fix fix_ false w = (r, w') →
  success r = true →
  ∃ path stored candidate,
    issue_file (fix_issue fix_) = Some path
    ∧ files w !! path = Some (TextFile stored)
    ∧ _apply_fix_to_content fix_ (fs.universal_newlines stored) = Some candidate
    ∧ files w' !! path = Some (TextFile candidate)
    ∧ (create_backup (self w) = true →
       files w' !! (path +:+ backup_suffix (self w)) = Some (TextFile stored))
    ∧ files w' = files_after (self w) (files w) path stored candidate
    ∧ applied_fixes (self w') = (applied_fixes (self w) ++ [fix_])%list.
Proof.
  intros Hrun Hsuccess.
  destruct (applied_world fix_ w r w' Hrun Hsuccess)
    as (path & stored & candidate & Hfile & Hpath & Hstored & Hcandidate
        & Hsuffix & ->).
  simpl. exists path, stored, candidate. do 3 (split; [done|]).
  unfold files_after. split; [by rewrite lookup_insert_eq|].
  split; [|done]. intros Hbackup. rewrite Hbackup.
  rewrite lookup_insert_ne by (by apply backup_path_differs, Hsuffix).
  by rewrite lookup_insert_eq.
Qed.

(** The history after [apply_fix] *)
Lemma applied_fixes_apply_fix (fix_ : Fix) (dry : bool) (w : world) :
  applied_fixes (self (snd (apply_fix fix_ dry w)))
  = (applied_fixes (self w)
     ++ if success (fst (apply_fix fix_ dry w)) && negb dry then [fix_] else [])%list.
Proof.
  destruct (apply_fix_cases fix_ dry w)
    as [[Hfail ->]|(path & stored & candidate & _ & _ & _ & _ & _ & _ & -> & ->)].
  { rewrite Hfail. simpl. by rewrite app_nil_r. }
  destruct dry; simpl; [by rewrite app_nil_r|done].
Qed.

(** X4: whatever the fix and the outcome, [apply_fix] touches at most two
    paths, the file of the issue and its backup path; it never changes the
    settings of the applicator, and it appends the fix to the history exactly
    when the result is a success and the run is not a dry run. *)
Theorem apply_fix_frame (fix_ : Fix) (dry : bool) (w : world) :
  let r := fst (apply_fix fix_ dry w) in
  let w' := snd (apply_fix fix_ dry w) in
  create_backup (self w') = create_backup (self w)
  ∧ backup_suffix (self w') = backup_suffix (self w)
  ∧ applied_fixes (self w')
    = (applied_fixes (self w) ++ if success r && negb dry then [fix_] else [])%list
  ∧ ∀ p, Some p ≠ issue_file (fix_issue fix_) →
         Some p ≠ (λ path, path +:+ backup_suffix (self w)) <$> issue_file (fix_issue fix_) →
         files w' !! p = files w !! p.
Proof.
  intros r w'. subst r w'.
  split; [|split; [|split; [apply applied_fixes_apply_fix|]]].
  all: destruct (apply_fix_cases fix_ dry w)
    as [[Hfail ->]|(path & stored & candidate & Hfile & _ & _ & _ & _ & _ & _ & ->)];
    try done; destruct dry; try done.
  simpl. rewrite Hfile. simpl. intros p Hp Hb.
  unfold files_after. rewrite lookup_insert_ne by congruence.
  destruct (create_backup (self w)); [|done].
  rewrite lookup_insert_ne by congruence. done.
Qed.

End applicator.
End ApplicatorProps.

(** ** The applicator: fixes of the generator, backups and batches *)

Module GeneratedFixProps.
Import FixApplicator ApplyProps ApplicatorProps.

Lemma replace_from_absent (old new s : string) :
  py.contains old s = false → py.replace_from old new 0 s = s.
Proof.
  induction s as [|c s IH]; [done|].
  cbn [py.contains py.replace_from].
  intros [Hstart Hrest]%orb_false_elim.
  rewrite Hstart. by rewrite IH.
Qed.

(** A text that does not hold [old] is left as it is. *)
Lemma replace_absent (old new s : string) :
  py.contains old s = false → py.replace old new s = s.
Proof. apply replace_from_absent. Qed.

Lemma join_insert (lines : list string) (i : nat) (line new : string) :
  lines !! i = Some line →
  py.join lines = py.join (take i lines) +:+ line +:+ py.join (drop (S i) lines)
  ∧ py.join (<[i := new]> lines)
    = py.join (take i lines) +:+ new +:+ py.join (drop (S i) lines).
Proof.
  intros Hline. split.
  - rewrite <-(take_drop_middle lines i line Hline) at 1.
    by rewrite TextProps.join_app, TextProps.join_cons.
  - rewrite insert_take_drop by (by eapply lookup_lt_Some).
    by rewrite TextProps.join_app, TextProps.join_cons.
Qed.

Lemma line_in_range (lines : list string) (n : Z) :
  1 ≤ n ≤ Z.of_nat (length lines) → is_Some (lines !! Z.to_nat (n - 1)).
Proof. intros Hn. apply lookup_lt_is_Some. lia. Qed.

Lemma line_range (lines : list string) (n : Z) (line : string) :
  1 ≤ n → lines !! Z.to_nat (n - 1) = Some line → n ≤ Z.of_nat (length lines).
Proof. intros Hn Hline%lookup_lt_Some. lia. Qed.

(** X5: the fix of a [none_comparison] issue is a replacement of the texts
    [== None] and [!= None] in the line of the issue.  When the line holds
    neither text (a comparison written [==None], for instance), the content
    comes back as it was, character for character, and its diff is the empty
    text: the fix counts as applied and changes nothing. *)
Theorem none_comparison_text_absent (fix_ : Fix) (content line : string) (n : Z) :
  changes fix_ = [] →
  issue_type (fix_issue fix_) = Some "none_comparison" →
  issue_line (fix_issue fix_) = Some n →
  1 ≤ n →
  py.splitlines content !! Z.to_nat (n - 1) = Some line →
  py.contains "== None" line = false →
  py.contains "!= None" line = false →
  _apply_fix_to_content fix_ content = Some content
  ∧ ∀ filename, _generate_diff content content filename = EmptyString.
Proof.
  intros Hchanges Htype Hline Hn Hlookup Heq Hne.
  split; [|intros; apply EqualProps.generate_diff_unchanged].
  unfold _apply_fix_to_content, _apply_simple_fix. cbv zeta.
  rewrite Hchanges, Hline, Htype.
  pose proof (line_range _ _ _ Hn Hlookup) as Hle.
  cbn [py.truthy_int default from_option id].
  rewrite (proj2 (Z.eqb_neq n 0)) by lia. cbn [negb].
  rewrite (bool_decide_eq_false_2 (n < 1)) by lia.
  rewrite (bool_decide_eq_false_2 (n > _)) by lia. cbn [orb].
  rewrite bool_decide_eq_true_2 by done.
  rewrite Hlookup. cbn [default from_option id].
  rewrite (replace_absent "== None") by done.
  rewrite (replace_absent "!= None") by done.
  unfold set_line. rewrite list_insert_id by done.
  by rewrite TextProps.join_splitlines.
Qed.

Section generated.
Context `{Runtime}.

(** X6: the fix [generate_fix] makes for a [wildcard_import] issue is never
    applied: whatever the files are, [apply_fix] returns a failure for it and
    leaves the world as it is, in a dry run or not. *)
Theorem wildcard_import_fix_never_applies (issue : Issue) (dry : bool) (w : world) :
  issue_type issue = Some "wildcard_import" →
  ∃ fix_, FixGenerator.generate_fix issue = Some fix_
          ∧ success (fst (apply_fix fix_ dry w)) = false
          ∧ snd (apply_fix fix_ dry w) = w.
Proof.
  intros Htype. exists (FixGenerator._fix_wildcard_import issue). split.
  { unfold FixGenerator.generate_fix. rewrite Htype.
    by repeat (case_bool_decide; [done|]). }
  destruct (apply_fix_cases (FixGenerator._fix_wildcard_import issue) dry w)
    as [Hfail|(path & stored & candidate & _ & _ & _ & Hcandidate & _)]; [done|].
  exfalso. revert Hcandidate.
  unfold _apply_fix_to_content, _apply_simple_fix. simpl. rewrite Htype.
  destruct (negb _); [done|]. destruct (_ || _); [done|].
  by repeat (case_bool_decide; try done).
Qed.

End generated.

(** The suggestion of [_fix_dangerous_eval] *)
Definition eval_advice : string :=
  "Consider using ast.literal_eval() for literals or json.loads() for JSON".

(** X7: the fix [generate_fix] makes for a [dangerous_eval] issue has no
    changes and a suggestion of one line, the advice sentence; applied to a
    content that has the line of the issue, it puts that sentence and a line
    end in the place of the whole line and keeps the text before and after
    the line. *)
Theorem dangerous_eval_fix_overwrites_line (issue : Issue) (content : string) (n : Z) :
  issue_type issue = Some "dangerous_eval" →
  issue_line issue = Some n →
  1 ≤ n ≤ Z.of_nat (length (py.splitlines content)) →
  ∃ fix_ before line after,
    FixGenerator.generate_fix issue = Some fix_
    ∧ py.splitlines content !! Z.to_nat (n - 1) = Some line
    ∧ before = py.join (take (Z.to_nat (n - 1)) (py.splitlines content))
    ∧ content = before +:+ line +:+ after
    ∧ _apply_fix_to_content fix_ content
      = Some (before +:+ (eval_advice +:+ String py.LF EmptyString) +:+ after).
Proof.
  intros Htype Hline Hn.
  destruct (line_in_range _ _ Hn) as [line Hlookup].
  destruct (join_insert _ _ line (eval_advice +:+ String py.LF EmptyString) Hlookup)
    as [Hcontent Hfixed].
  rewrite TextProps.join_splitlines in Hcontent.
  exists (FixGenerator._fix_dangerous_eval issue); eexists _, line, _.
  split.
  { unfold FixGenerator.generate_fix. rewrite Htype.
    by repeat (case_bool_decide; [done|]). }
  do 2 (split; [done|]). split; [exact Hcontent|].
  rewrite <-Hfixed.
  unfold _apply_fix_to_content, _apply_simple_fix. cbv zeta.
  cbn [changes FixGenerator._fix_dangerous_eval fix_issue suggestion].
  rewrite Htype, Hline.
  cbn [py.truthy_int default from_option id].
  rewrite (proj2 (Z.eqb_neq n 0)) by lia. cbn [negb].
  rewrite (bool_decide_eq_false_2 (n < 1)) by lia.
  rewrite (bool_decide_eq_false_2 (n > _)) by lia. cbn [orb].
  by repeat (case_bool_decide; try done).
Qed.

End GeneratedFixProps.

(** ** The applicator: backups and history *)

Module RestoreProps.
Import FixApplicator ApplyProps ApplicatorProps.

Ltac unfold_restore :=
  unfold restore_backup, total, try_except, mbind, call_bind, mret, call_ret,
    path_exists, shutil_copy2, get_self, fs.exists_, fs.copy2.

(** The result for a path whose backup was copied back *)
Definition restored (file_path : string) : RestoreResult :=
  {| restore_success := true; restore_file := file_path;
     restore_message := "File restored from backup"; restore_error := None |}.

(** The result for a path that has no backup *)
Definition no_backup (backup_suffix file_path : string) : RestoreResult :=
  {| restore_success := false; restore_file := file_path;
     restore_message := "No backup found: " +:+ file_path +:+ backup_suffix;
     restore_error := None |}.

(** The body of the loop of [restore_backups] *)
Definition step : list RestoreResult * world → string → list RestoreResult * world :=
  λ '(results, w) file_path,
    let '(result, w) :=
      total (restore_backup file_path) w
        {| restore_success := false; restore_file := file_path;
           restore_message := EmptyString; restore_error := None |} in
    ((results ++ [result])%list, w).

Lemma restore_backups_foldl (file_paths : list string) (w : world) :
  restore_backups (Some file_paths) w = foldl step ([], w) file_paths.
Proof. done. Qed.

Lemma step_no_backup (results : list RestoreResult) (w : world) (file_path : string) :
  files w !! (file_path +:+ backup_suffix (self w)) = None →
  step (results, w) file_path
  = ((results ++ [no_backup (backup_suffix (self w)) file_path])%list, w).
Proof.
  intros Hnone. unfold step. unfold_restore.
  rewrite bool_decide_eq_false_2; [done|]. rewrite Hnone. by intros [? [=]].
Qed.

Lemma step_restored (results : list RestoreResult) (w : world) (file_path : string)
    (e : entry) :
  files w !! (file_path +:+ backup_suffix (self w)) = Some e →
  backup_suffix (self w) ≠ EmptyString →
  step (results, w) file_path
  = ((results ++ [restored file_path])%list,
     {| self := self w; files := <[file_path := e]> (files w) |}).
Proof.
  intros Hbackup Hsuffix. unfold step. unfold_restore.
  rewrite bool_decide_eq_true_2 by (rewrite Hbackup; eauto). simpl.
  rewrite Hbackup. rewrite bool_decide_eq_false_2; [done|].
  intros Heq. apply Hsuffix. symmetry in Heq. by eapply append_eq_self.
Qed.


(** One path whose backup is there *)
Lemma restore_one (w : world) (file_path : string) (e : entry) :
  files w !! (file_path +:+ backup_suffix (self w)) = Some e →
  backup_suffix (self w) ≠ EmptyString →
  restore_backups (Some [file_path]) w
  = ([restored file_path],
     {| self := self w; files := <[file_path := e]> (files w) |}).
Proof.
  intros Hbackup Hsuffix. rewrite restore_backups_foldl. cbn [foldl].
  by apply (step_restored [] w file_path e).
Qed.

Section restore.
Context `{Runtime}.

(** X8: a fix applied for good with backups on can be undone:
    [restore_backups] for the path of the fix reports [File restored from
    backup] and the path holds again what it held before [apply_fix]; the
    backup stays, so the files differ from the ones before the fix by the
    backup only.  With no path given, an applicator that had applied nothing
    before restores that same path. *)
Theorem restore_after_apply (fix_ : Fix) (w : world) (r : ApplyResult) (w1 : world) :
  apply_fix fix_ false w = (r, w1) →
  success r = true →
  create_backup (self w) = true →
  ∃ path stored,
    issue_file (fix_issue fix_) = Some path
    ∧ files w !! path = Some (TextFile stored)
    ∧ fst (restore_backups (Some [path]) w1) = [restored path]
    ∧ files (snd (restore_backups (Some [path]) w1))
      = <[path +:+ backup_suffix (self w) := TextFile stored]> (files w)
    ∧ files (snd (restore_backups (Some [path]) w1)) !! path = files w !! path
    ∧ (applied_fixes (self w) = [] →
       restore_backups None w1 = restore_backups (Some [path]) w1).
Proof.
  intros Hrun Hsuccess Hbackup.
  destruct (applied_world fix_ w r w1 Hrun Hsuccess)
    as (path & stored & candidate & Hfile & Hpath & Hstored & _ & Hsuffix & Hworld).
  specialize (Hsuffix Hbackup).
  pose proof (backup_path_differs path _ Hsuffix) as Hne.
  exists path, stored. do 2 (split; [done|]).
  assert (Hstep : restore_backups (Some [path]) w1
                  = ([restored path],
                     {| self := self w1;
                        files := <[path := TextFile stored]> (files w1) |})).
  { apply restore_one.
    - subst w1. simpl. unfold files_after. rewrite Hbackup.
      rewrite lookup_insert_ne by done. by rewrite lookup_insert_eq.
    - by subst w1. }
  assert (Hfiles : <[path := TextFile stored]> (files w1)
                   = <[path +:+ backup_suffix (self w) := TextFile stored]> (files w)).
  { subst w1. simpl. unfold files_after. rewrite Hbackup.
    rewrite insert_insert_eq. rewrite insert_insert_ne by done.
    f_equal. by apply insert_id. }
  rewrite Hstep. simpl. split; [done|]. split; [done|]. split.
  - rewrite Hfiles. by rewrite lookup_insert_ne.
  - intros Hfresh.
    assert (Hpaths : restore_paths None (self w1) = [path]).
    { subst w1. simpl. rewrite Hfresh. simpl. rewrite Hfile.
      by destruct path. }
    unfold restore_backups. by rewrite Hpaths.
Qed.

(** X10: there is one backup per file, and every fix applied for good
    writes it anew.  After two such fixes of the same file the backup holds
    the content the first fix made, not what the file held at the start, and
    that content is what [restore_backups] brings back. *)
Theorem second_fix_overwrites_backup (fix1 fix2 : Fix) (w : world)
    (r1 r2 : ApplyResult) (w1 w2 : world) :
  apply_fix fix1 false w = (r1, w1) → success r1 = true →
  apply_fix fix2 false w1 = (r2, w2) → success r2 = true →
  issue_file (fix_issue fix1) = issue_file (fix_issue fix2) →
  create_backup (self w) = true →
  ∃ path stored candidate1,
    issue_file (fix_issue fix1) = Some path
    ∧ files w !! path = Some (TextFile stored)
    ∧ _apply_fix_to_content fix1 (fs.universal_newlines stored) = Some candidate1
    ∧ files w2 !! (path +:+ backup_suffix (self w)) = Some (TextFile candidate1)
    ∧ files (snd (restore_backups (Some [path]) w2)) !! path
      = Some (TextFile candidate1).
Proof.
  intros Hrun1 Hsuccess1 Hrun2 Hsuccess2 Hsame Hbackup.
  destruct (applied_world fix1 w r1 w1 Hrun1 Hsuccess1)
    as (path & stored & candidate1 & Hfile1 & Hpath & Hstored & Hcandidate1
        & Hsuffix & Hw1).
  specialize (Hsuffix Hbackup).
  pose proof (backup_path_differs path _ Hsuffix) as Hne.
  assert (Hnew1 : files w1 !! path = Some (TextFile candidate1)).
  { subst w1. simpl. unfold files_after. by rewrite lookup_insert_eq. }
  assert (Hself1 : create_backup (self w1) = true
                   ∧ backup_suffix (self w1) = backup_suffix (self w))
    by (by subst w1).
  destruct Hself1 as [Hbackup1 Hsuffix1].
  destruct (applied_world fix2 w1 r2 w2 Hrun2 Hsuccess2)
    as (path' & stored' & candidate2 & Hfile2 & _ & Hstored' & _ & _ & Hw2).
  assert (path' = path) as -> by congruence.
  assert (stored' = candidate1) as -> by congruence.
  assert (Hback2 : files w2 !! (path +:+ backup_suffix (self w))
                   = Some (TextFile candidate1)).
  { rewrite Hw2. simpl. unfold files_after. rewrite Hbackup1, Hsuffix1.
    rewrite lookup_insert_ne by done. by rewrite lookup_insert_eq. }
  exists path, stored, candidate1. do 4 (split; [done|]).
  rewrite (restore_one w2 path (TextFile candidate1)).
  - simpl. by rewrite lookup_insert_eq.
  - assert (backup_suffix (self w2) = backup_suffix (self w)) as ->; [|done].
    rewrite Hw2. simpl. done.
  - assert (backup_suffix (self w2) = backup_suffix (self w)) as ->; [|done].
    rewrite Hw2. simpl. done.
Qed.

End restore.
End RestoreProps.

(** ** The applicator: batches and the history *)

Module HistoryProps.
Import FixApplicator ApplyProps ApplicatorProps BatchProps.

Section history.
Context `{Runtime}.

Lemma result_fix_apply_fix (fix_ : Fix) (dry : bool) (w : world) :
  result_fix (fst (apply_fix fix_ dry w)) = fix_.
Proof.
  unfold_apply_fix.
  destruct (py.truthy_str _); [|done].
  case_bool_decide; [|done]. cbn [negb].
  repeat (case_match; try done; simplify_eq/=).
Qed.

(** X11: a batch in a dry run leaves the world as it is, and every fix of
    the batch is judged against that same world: the results are those of
    the single dry runs, in the order of the fixes, whatever the fixes before
    would have changed. *)
Theorem batch_dry_run (fixes : list Fix) (w : world) :
  apply_fixes_batch fixes true w = (map (λ fix_, fst (apply_fix fix_ true w)) fixes, w).
Proof.
  induction fixes as [|fix_ fixes IH]; [done|].
  rewrite apply_fixes_batch_cons, dry_run_world, IH. done.
Qed.

(** The fixes of the results that went through *)
Definition succeeded (results : list ApplyResult) : list Fix :=
  map result_fix (filter (λ r, success r = true) results).

(** X12: after a batch that is no dry run, every result carries the fix it
    is for, in the order of the batch, and [get_applied_fixes] returns what it
    returned before followed by the fixes whose result is a success, in that
    order; a fix that failed is not in the history. *)
Theorem applied_history (fixes : list Fix) (w : world) :
  let results := fst (apply_fixes_batch fixes false w) in
  let w' := snd (apply_fixes_batch fixes false w) in
  map result_fix results = fixes
  ∧ get_applied_fixes w' = (get_applied_fixes w ++ succeeded results)%list.
Proof.
  unfold get_applied_fixes, succeeded.
  revert w. induction fixes as [|fix_ fixes IH]; intros w; simpl.
  { by rewrite app_nil_r. }
  rewrite apply_fixes_batch_cons. cbn [fst snd map].
  destruct (IH (snd (apply_fix fix_ false w))) as [IHfix IHhist].
  rewrite IHfix, IHhist, result_fix_apply_fix. split; [done|].
  rewrite applied_fixes_apply_fix.
  rewrite filter_cons. rewrite andb_true_r.
  destruct (success (fst (apply_fix fix_ false w))) eqn:Hs.
  - rewrite decide_True by done. simpl.
    by rewrite result_fix_apply_fix, <-app_assoc.
  - rewrite decide_False by done. by rewrite app_nil_r.
Qed.

End history.
End HistoryProps.

(** ** The applicator: changes line by line *)

Module LineProps.
Import FixApplicator ChangesProps.

(** A change the loop applies to line [i + 1] of [n] lines *)
Definition targets (n i : nat) (c : Change) : Prop :=
  in_range n c ∧ line_number c = Some (Z.of_nat i + 1).

Global Instance targets_dec n i c : Decision (targets n i c).
Proof. unfold targets. apply _. Defined.

(** Line [i + 1] after the changes [cs]: the new code of the last change of
    the list for this line, or the line as it was. *)
Definition final_line (n : nat) (cs : list Change) (i : nat) (line : string) : string :=
  match last (filter (targets n i) cs) with
  | Some c => with_newline (default EmptyString (new_code c))
  | None => line
  end.

Lemma replace_line_lookup (lines : list string) (c : Change) (i : nat) :
  in_range (length lines) c →
  replace_line lines c !! i
  = if decide (targets (length lines) i c)
    then Some (with_newline (default EmptyString (new_code c)))
    else lines !! i.
Proof.
  intros Hin. unfold replace_line, set_line.
  pose proof Hin as Hin'. unfold in_range in Hin'.
  destruct (line_number c) as [ln|] eqn:Hln; [|done].
  destruct (new_code c) as [code|] eqn:Hcode; [|done]. simpl.
  destruct (decide (targets (length lines) i c)) as [[_ Ht]|Hnot].
  - rewrite Hln in Ht. injection Ht as ->.
    replace (Z.to_nat (Z.of_nat i + 1 - 1)) with i by lia.
    apply list_lookup_insert_eq. lia.
  - apply list_lookup_insert_ne. intros <-. apply Hnot. split; [done|].
    rewrite Hln. f_equal. lia.
Qed.

Lemma foldl_replace_line_length (cs : list Change) (lines : list string) :
  length (foldl replace_line lines cs) = length lines.
Proof.
  revert lines. induction cs as [|c cs IH]; intros lines; simpl; [done|].
  by rewrite IH, length_replace_line.
Qed.

Lemma foldl_replace_line_lookup (cs : list Change) (lines : list string) (i : nat) :
  Forall (in_range (length lines)) cs →
  foldl replace_line lines cs !! i = final_line (length lines) cs i <$> lines !! i.
Proof.
  induction cs as [|c cs IH] using rev_ind; intros Hall.
  { unfold final_line. simpl. by destruct (lines !! i). }
  apply Forall_app in Hall as [Hcs [Hc _]%Forall_cons].
  rewrite foldl_app. simpl.
  rewrite <-(foldl_replace_line_length cs lines) in Hc.
  rewrite replace_line_lookup by done.
  rewrite foldl_replace_line_length in Hc |- *.
  unfold final_line at 1. rewrite filter_app, filter_cons, filter_nil.
  destruct (decide (targets (length lines) i c)) as [Ht|Hnot].
  - rewrite last_snoc.
    destruct (lines !! i) as [line|] eqn:Hline; [done|].
    exfalso. apply lookup_ge_None in Hline.
    destruct Ht as [Hin Hln]. unfold in_range in Hin. rewrite Hln in Hin.
    destruct (new_code c); [lia|done].
  - rewrite app_nil_r. by rewrite IH.
Qed.

Lemma sorted_changes_same_key (cs : list Change) (k : Z) :
  Forall (λ c, sort_key c = k) cs → sorted_changes cs = cs.
Proof.
  induction 1 as [|c cs Hc Hcs IH]; [done|].
  simpl. rewrite IH. apply insert_change_front.
  eapply Forall_impl; [exact Hcs|]. simpl. intros z Hz. lia.
Qed.

(** The sort keeps the changes for one line in the order of the list. *)
Lemma filter_targets_sorted (n i : nat) (cs : list Change) :
  filter (targets n i) (sorted_changes cs) = filter (targets n i) cs.
Proof.
  rewrite <-sorted_changes_filter.
  apply (sorted_changes_same_key _ (Z.of_nat i + 1)).
  apply Forall_forall. intros c [[_ Hln] _]%list_elem_of_filter.
  unfold sort_key. by rewrite Hln.
Qed.

Lemma filter_targets_in_range (n i : nat) (cs : list Change) :
  filter (targets n i) (filter (in_range n) cs) = filter (targets n i) cs.
Proof.
  induction cs as [|c cs IH]; [done|].
  rewrite !filter_cons.
  destruct (decide (in_range n c)) as [Hin|Hout].
  - rewrite filter_cons, IH. done.
  - rewrite IH. rewrite decide_False; [done|]. by intros [? _].
Qed.


End LineProps.

(** ** The patch generator *)

Module PatchProps.
Import PatchGenerator.

(** X14: [apply_simple_replacement] returns [None] exactly when the line
    number is below 1 or beyond the last line, or when the line does not hold
    [old_text]; otherwise it returns the content with every occurrence of
    [old_text] in that one line replaced and the text before and after the
    line unchanged. *)
Theorem apply_simple_replacement_one_line (content : string) (line_number : Z)
    (old_text new_text : string) :
  let lines := py.splitlines content in
  match apply_simple_replacement content line_number old_text new_text with
  | Some result =>
      ∃ line,
        1 ≤ line_number
        ∧ lines !! Z.to_nat (line_number - 1) = Some line
        ∧ py.contains old_text line = true
        ∧ let before := py.join (take (Z.to_nat (line_number - 1)) lines) in
          let after := py.join (drop (S (Z.to_nat (line_number - 1))) lines) in
          content = before +:+ line +:+ after
          ∧ result = before +:+ py.replace_any old_text new_text line +:+ after
  | None =>
      line_number < 1 ∨ Z.of_nat (length lines) < line_number
      ∨ ∃ line, lines !! Z.to_nat (line_number - 1) = Some line
                ∧ py.contains old_text line = false
  end.
Proof.
  intros lines. unfold apply_simple_replacement. fold lines.
  case_bool_decide as Hlo; [by left|].
  case_bool_decide as Hhi; [right; left; lia|]. cbn [orb].
  destruct (GeneratedFixProps.line_in_range lines line_number ltac:(lia)) as [line Hline].
  rewrite Hline. cbn [default from_option id].
  destruct (py.contains old_text line) eqn:Hcontains.
  - exists line. do 3 (split; [done || lia|]).
    destruct (GeneratedFixProps.join_insert lines _ line
                (py.replace_any old_text new_text line) Hline) as [Hcontent Hresult].
    unfold lines in Hcontent at 1. rewrite TextProps.join_splitlines in Hcontent.
    by split.
  - right. right. by exists line.
Qed.

End PatchProps.

(** ** The report *)

Module ReportProps.
Import ReportGenerator.

(** [result.get('severity', 'unknown')] *)
Definition severity_of (result : Issue) : string :=
  default "unknown" (issue_severity result).

(** The results of one severity *)
Definition with_severity (severity : string) (results : list Issue) : list Issue :=
  filter (λ result, severity_of result = severity) results.

(** The keys of [l] in the order they first occur *)
Fixpoint first_occurrences (l : list string) : list string :=
  match l with
  | [] => []
  | x :: l' => x :: filter (λ y, y ≠ x) (first_occurrences l')
  end.

Lemma counts_get_set (counts : list (string * Z)) (key key' : string) (value d : Z) :
  counts_get (counts_set counts key value) key' d
  = if decide (key' = key) then value else counts_get counts key' d.
Proof.
  induction counts as [|[k v] counts IH]; simpl.
  - case_bool_decide; destruct (decide _); congruence.
  - case_bool_decide as Hk; simpl.
    + subst k. case_bool_decide; destruct (decide _); congruence.
    + rewrite IH. case_bool_decide; destruct (decide _); congruence.
Qed.

Lemma keys_counts_set (counts : list (string * Z)) (key : string) (value : Z) :
  map fst (counts_set counts key value)
  = if decide (key ∈ map fst counts) then map fst counts
    else (map fst counts ++ [key])%list.
Proof.
  induction counts as [|[k v] counts IH]; cbn [counts_set map fst].
  - destruct (decide (key ∈ [])) as [Hin|_]; [|done]. by apply elem_of_nil in Hin.
  - case_bool_decide as Hk; cbn [map fst].
    + subst k. destruct (decide (key ∈ key :: map fst counts)) as [_|Hout]; [done|].
      exfalso. apply Hout, elem_of_cons. by left.
    + rewrite IH.
      destruct (decide (key ∈ map fst counts)) as [Hin|Hout],
               (decide (key ∈ k :: map fst counts)) as [Hin'|Hout']; try done.
      * exfalso. apply Hout', elem_of_cons. by right.
      * apply elem_of_cons in Hin' as [->|?]; done.
Qed.

Lemma sum_counts_set (counts : list (string * Z)) (key : string) (value : Z) :
  foldr Z.add 0 (map snd (counts_set counts key value))
  = foldr Z.add 0 (map snd counts) - counts_get counts key 0 + value.
Proof.
  induction counts as [|[k v] counts IH]; simpl; [lia|].
  case_bool_decide; simpl; [lia|]. rewrite IH. lia.
Qed.

Lemma counts_set_positive (counts : list (string * Z)) (key : string) (value : Z) :
  Forall (λ entry, 1 ≤ snd entry) counts → 1 ≤ value →
  Forall (λ entry, 1 ≤ snd entry) (counts_set counts key value).
Proof.
  intros Hall Hvalue. induction Hall as [|[k v] counts Hv Hall IH]; simpl.
  - by repeat constructor.
  - case_bool_decide; by constructor.
Qed.

Lemma count_by_severity_snoc (results : list Issue) (result : Issue) :
  _count_by_severity (results ++ [result])
  = counts_set (_count_by_severity results) (severity_of result)
      (counts_get (_count_by_severity results) (severity_of result) 0 + 1).
Proof. unfold _count_by_severity. by rewrite foldl_app. Qed.

Lemma first_occurrences_snoc (l : list string) (x : string) :
  first_occurrences (l ++ [x])
  = if decide (x ∈ first_occurrences l) then first_occurrences l
    else (first_occurrences l ++ [x])%list.
Proof.
  induction l as [|y l IH]; cbn [app first_occurrences].
  - rewrite filter_nil.
    destruct (decide (x ∈ [])) as [Hin|_]; [|done]. by apply elem_of_nil in Hin.
  - rewrite IH.
    destruct (decide (x ∈ first_occurrences l)) as [Hin|Hout],
             (decide (x ∈ y :: filter (λ z, z ≠ y) (first_occurrences l)))
               as [Hin'|Hout']; try done.
    + exfalso. apply Hout'. destruct (decide (x = y)) as [->|Hne].
      * apply elem_of_cons. by left.
      * apply elem_of_cons. right. by apply list_elem_of_filter.
    + rewrite filter_app, filter_cons, filter_nil.
      apply elem_of_cons in Hin' as [->|[_ ?]%list_elem_of_filter]; [|done].
      rewrite decide_False by (intros Hn; by apply Hn). by rewrite app_nil_r.
    + rewrite filter_app, filter_cons, filter_nil.
      rewrite decide_True; [done|]. intros ->. apply Hout', elem_of_cons. by left.
Qed.

(** X15: [_count_by_severity] returns one entry for every severity that
    occurs, in the order of first occurrence ([unknown] stands for a result
    without severity); the entry of a severity is the number of results that
    have it, so every count is at least 1, a severity that does not occur has
    no entry, and the counts add up to the number of results. *)
Theorem count_by_severity_counts (results : list Issue) :
  let counts := _count_by_severity results in
  map fst counts = first_occurrences (map severity_of results)
  ∧ (∀ severity,
       counts_get counts severity 0
       = Z.of_nat (length (with_severity severity results)))
  ∧ Forall (λ entry, 1 ≤ snd entry) counts
  ∧ foldr Z.add 0 (map snd counts) = Z.of_nat (length results).
Proof.
  induction results as [|result results IH] using rev_ind; intros counts.
  { subst counts. simpl. split; [done|]. split; [done|]. split; [constructor|done]. }
  destruct IH as (IHkeys & IHget & IHpos & IHsum).
  subst counts. rewrite count_by_severity_snoc.
  set (old := _count_by_severity results) in *.
  split; [|split; [|split]].
  - rewrite keys_counts_set, map_app. cbn [map].
    rewrite first_occurrences_snoc, IHkeys. done.
  - intros severity. rewrite counts_get_set.
    unfold with_severity. rewrite filter_app, filter_cons, filter_nil, length_app.
    rewrite !IHget. unfold with_severity.
    destruct (decide (severity = severity_of result)) as [->|Hne].
    + rewrite decide_True by done. simpl. lia.
    + rewrite decide_False by done. simpl. lia.
  - pose proof (IHget (severity_of result)) as Hcount.
    assert (Hnew : 1 ≤ counts_get old (severity_of result) 0 + 1) by lia.
    by apply counts_set_positive.
  - rewrite sum_counts_set, IHsum, length_app. simpl. lia.
Qed.

End ReportProps.

(** ** Scenarios of the applicator *)

Module ApplicatorScenarios.
Import example example_runtime scenarios FixApplicator ApplyProps ApplicatorProps.

(** A file the process may not read *)
Definition locked_world : world :=
  {| self := applicator;
     files := {[ "proj/a.py" := Unreadable "[Errno 13] Permission denied: 'proj/a.py'" ]} |}.

(** A call of [eval] and the issue of the security detector for it *)
Definition eval_text : string := "x = eval(s)" +:+ nl.

Definition eval_issue : Issue := issue_in "proj/a.py" 1 "dangerous_eval".

Definition wildcard_issue : Issue := issue_in "proj/a.py" 1 "wildcard_import".


(** The file of [none_fix] cannot be read. *)
Lemma exception_is_reported_witness :
  apply_fix (H := runtime) none_fix true locked_world
  = (errored none_fix "[Errno 13] Permission denied: 'proj/a.py'", locked_world).
Proof.
  apply (exception_is_reported (H := runtime) none_fix true locked_world "proj/a.py").
  - reflexivity.
  - discriminate.
  - left. vm_compute. reflexivity.
Defined.

(** [none_fix] applied for good to the file with [== None] *)
Lemma applied_fix_effects_witness :
  ∃ path stored candidate,
    issue_file (fix_issue none_fix) = Some path
    ∧ files none_world !! path = Some (TextFile stored)
    ∧ _apply_fix_to_content none_fix (fs.universal_newlines stored) = Some candidate
    ∧ files (snd (apply_fix (H := runtime) none_fix false none_world)) !! path
      = Some (TextFile candidate)
    ∧ (create_backup (self none_world) = true →
       files (snd (apply_fix (H := runtime) none_fix false none_world))
         !! (path +:+ backup_suffix (self none_world)) = Some (TextFile stored))
    ∧ files (snd (apply_fix (H := runtime) none_fix false none_world))
      = files_after (self none_world) (files none_world) path stored candidate
    ∧ applied_fixes (self (snd (apply_fix (H := runtime) none_fix false none_world)))
      = (applied_fixes (self none_world) ++ [none_fix])%list.
Proof.
  apply (applied_fix_effects (H := runtime) none_fix none_world
           (fst (apply_fix (H := runtime) none_fix false none_world))
           (snd (apply_fix (H := runtime) none_fix false none_world))).
  - vm_compute. reflexivity.
  - vm_compute. reflexivity.
Defined.

(** The comparison written [==None]: the fix returns the text as it is. *)
Lemma none_comparison_text_absent_witness :
  _apply_fix_to_content none_fix eq_none_tight_text = Some eq_none_tight_text
  ∧ ∀ filename, _generate_diff eq_none_tight_text eq_none_tight_text filename = EmptyString.
Proof.
  apply (GeneratedFixProps.none_comparison_text_absent none_fix eq_none_tight_text
           ("if value ==None:" +:+ nl) 1).
  - reflexivity.
  - reflexivity.
  - reflexivity.
  - lia.
  - vm_compute. reflexivity.
  - vm_compute. reflexivity.
  - vm_compute. reflexivity.
Defined.

Lemma wildcard_import_fix_never_applies_witness :
  ∃ fix_, FixGenerator.generate_fix wildcard_issue = Some fix_
          ∧ success (fst (apply_fix (H := runtime) fix_ false none_world)) = false
          ∧ snd (apply_fix (H := runtime) fix_ false none_world) = none_world.
Proof.
  apply (GeneratedFixProps.wildcard_import_fix_never_applies (H := runtime)
           wildcard_issue false none_world).
  reflexivity.
Defined.

Lemma dangerous_eval_fix_overwrites_line_witness :
  ∃ fix_ before line after,
    FixGenerator.generate_fix eval_issue = Some fix_
    ∧ py.splitlines eval_text !! Z.to_nat (1 - 1) = Some line
    ∧ before = py.join (take (Z.to_nat (1 - 1)) (py.splitlines eval_text))
    ∧ eval_text = before +:+ line +:+ after
    ∧ _apply_fix_to_content fix_ eval_text
      = Some (before +:+ (GeneratedFixProps.eval_advice +:+ String py.LF EmptyString)
              +:+ after).
Proof.
  apply (GeneratedFixProps.dangerous_eval_fix_overwrites_line eval_issue eval_text 1).
  - reflexivity.
  - reflexivity.
  - vm_compute. split; discriminate.
Defined.

(** [none_fix] applied and taken back *)
Lemma restore_after_apply_witness :
  ∃ path stored,
    issue_file (fix_issue none_fix) = Some path
    ∧ files none_world !! path = Some (TextFile stored)
    ∧ fst (restore_backups (Some [path])
             (snd (apply_fix (H := runtime) none_fix false none_world)))
      = [RestoreProps.restored path]
    ∧ files (snd (restore_backups (Some [path])
                    (snd (apply_fix (H := runtime) none_fix false none_world))))
      = <[path +:+ backup_suffix (self none_world) := TextFile stored]> (files none_world)
    ∧ files (snd (restore_backups (Some [path])
                    (snd (apply_fix (H := runtime) none_fix false none_world)))) !! path
      = files none_world !! path
    ∧ (applied_fixes (self none_world) = [] →
       restore_backups None (snd (apply_fix (H := runtime) none_fix false none_world))
       = restore_backups (Some [path])
           (snd (apply_fix (H := runtime) none_fix false none_world))).
Proof.
  apply (RestoreProps.restore_after_apply (H := runtime) none_fix none_world
           (fst (apply_fix (H := runtime) none_fix false none_world))
           (snd (apply_fix (H := runtime) none_fix false none_world))).
  - vm_compute. reflexivity.
  - vm_compute. reflexivity.
  - reflexivity.
Defined.


(** [none_fix] applied twice: the second time the file holds [is None]
    already, and that is what the backup holds afterwards. *)
Lemma second_fix_overwrites_backup_witness :
  ∃ path stored candidate1,
    issue_file (fix_issue none_fix) = Some path
    ∧ files none_world !! path = Some (TextFile stored)
    ∧ _apply_fix_to_content none_fix (fs.universal_newlines stored) = Some candidate1
    ∧ files (snd (apply_fix (H := runtime) none_fix false
                    (snd (apply_fix (H := runtime) none_fix false none_world))))
        !! (path +:+ backup_suffix (self none_world)) = Some (TextFile candidate1)
    ∧ files (snd (restore_backups (Some [path])
                    (snd (apply_fix (H := runtime) none_fix false
                            (snd (apply_fix (H := runtime) none_fix false none_world))))))
        !! path
      = Some (TextFile candidate1).
Proof.
  apply (RestoreProps.second_fix_overwrites_backup (H := runtime) none_fix none_fix
           none_world
           (fst (apply_fix (H := runtime) none_fix false none_world))
           (fst (apply_fix (H := runtime) none_fix false
                   (snd (apply_fix (H := runtime) none_fix false none_world))))
           (snd (apply_fix (H := runtime) none_fix false none_world))
           (snd (apply_fix (H := runtime) none_fix false
                   (snd (apply_fix (H := runtime) none_fix false none_world))))).
  - vm_compute. reflexivity.
  - vm_compute. reflexivity.
  - vm_compute. reflexivity.
  - vm_compute. reflexivity.
  - reflexivity.
  - reflexivity.
Defined.


End ApplicatorScenarios.

(** ** The pattern and the security detector *)

Module DetectorProps.
Import ast AstProps.

(** A visitor whose state is the list of issues and whose methods only
    append to it, before they call [generic_visit] *)
Section appending_visitor.
Variable enter : node → list Issue → list Issue.
Hypothesis enter_appends : ∀ n issues, enter n issues = (issues ++ enter n [])%list.

Lemma visit_appends (n : node) (issues : list Issue) :
  visit enter (λ _ _ issues, issues) n issues
  = (issues ++ flat_map (λ m, enter m []) (nodes n))%list.
Proof.
  revert issues. induction n as [n IH] using children_ind. intros issues.
  rewrite visit_unfold, nodes_unfold. unfold generic_visit. cbn [flat_map].
  rewrite enter_appends, app_assoc.
  generalize (issues ++ enter n [])%list as acc.
  induction IH as [|c cs Hc _ IHcs]; intros acc; simpl.
  - by rewrite app_nil_r.
  - rewrite IHcs, Hc, flat_map_app. by rewrite app_assoc.
Qed.
End appending_visitor.

Lemma foldl_append_if {A : Type} (test : A → bool) (issue : A → Issue) (l : list A)
    (issues : list Issue) :
  foldl (λ issues x, if test x then (issues ++ [issue x])%list else issues) issues l
  = (issues ++ map issue (filter (λ x, test x = true) l))%list.
Proof.
  revert issues. induction l as [|x l IH]; intros issues; simpl.
  - by rewrite app_nil_r.
  - rewrite IH, filter_cons. destruct (test x) eqn:Htest.
    + rewrite decide_True by done. simpl. by rewrite <-app_assoc.
    + by rewrite decide_False by done.
Qed.

(** *** The pattern detector *)

Section pattern.
Import PatternDetector.
Variable file : string.

Definition none_comparison_issue (n : node) : Issue :=
  issue_at file n "none_comparison"
    ("Use " +:+ py.quoted "is None" +:+ " or " +:+ py.quoted "is not None"
     +:+ " instead of " +:+ py.quoted "== None" +:+ " or " +:+ py.quoted "!= None")
    "warning".

Definition bare_except_issue (n : node) : Issue :=
  issue_at file n "bare_except" "Bare except clause should specify exception type"
    "warning".

Definition mutable_default_issue (n : node) (name : string) : Issue :=
  issue_at file n "mutable_default_argument"
    ("Function " +:+ py.quoted name +:+ " has mutable default argument") "warning".

Definition wildcard_import_issue (n : node) (module : string) : Issue :=
  issue_at file n "wildcard_import"
    ("Avoid wildcard imports (from " +:+ module +:+ " import *)") "info".

(** [==] or [!=] with the constant [None] on its right *)
Definition compares_with_None (pair : cmpop * node) : Prop :=
  is_None_constant (snd pair) && is_Eq_or_NotEq (fst pair) = true.

Definition is_star (alias : node) : Prop := alias_name alias = Some "*".

(** The issues of one node *)
Definition pattern_issues (n : node) : list Issue :=
  match node_cls n with
  | Compare ops =>
      map (λ _, none_comparison_issue n)
          (filter compares_with_None (zip ops (field "comparators" n)))
  | ExceptHandler =>
      match field "type" n with
      | [] => [bare_except_issue n]
      | _ => []
      end
  | FunctionDef name =>
      map (λ _, mutable_default_issue n name)
          (filter (λ default, is_mutable_literal default = true)
                  (flat_map (field "defaults") (field "args" n)))
  | Import =>
      map (λ _, wildcard_import_issue n "module") (filter is_star (field "names" n))
  | ImportFrom module =>
      map (λ _, wildcard_import_issue n (py.str_opt id module))
          (filter is_star (field "names" n))
  | _ => []
  end.

Lemma pattern_enter (n : node) (issues : list Issue) :
  enter file n issues = (issues ++ pattern_issues n)%list.
Proof.
  unfold enter, pattern_issues.
  destruct (node_cls n); rewrite ?app_nil_r; try done.
  - rewrite (foldl_append_if (λ default, is_mutable_literal default)
               (λ _, mutable_default_issue n name)). done.
  - destruct (field "type" n); [done|by rewrite app_nil_r].
  - rewrite (foldl_append_if (λ alias, bool_decide (alias_name alias = Some "*"))
               (λ _, wildcard_import_issue n "module")).
    f_equal. f_equal. apply list_filter_iff. intros alias.
    by rewrite bool_decide_eq_true.
  - rewrite (foldl_append_if (λ alias, bool_decide (alias_name alias = Some "*"))
               (λ _, wildcard_import_issue n (py.str_opt id module))).
    f_equal. f_equal. apply list_filter_iff. intros alias.
    by rewrite bool_decide_eq_true.
  - rewrite <-(foldl_append_if
                 (λ pair : cmpop * node,
                    is_None_constant (snd pair) && is_Eq_or_NotEq (fst pair))
                 (λ _, none_comparison_issue n)).
    generalize (zip ops (field "comparators" n)) as pairs.
    intros pairs. revert issues.
    induction pairs as [|[op comparator] pairs IH]; intros issues; simpl; [done|].
    apply IH.
Qed.

(** X16: the issues of the pattern detector are those of the nodes of the
    tree, one node after the other in the order of the visit (a node before
    the nodes below it).  A comparison gives one [none_comparison] issue for
    every [==] or [!=] whose right operand is the constant [None] (the left
    operand of the comparison is not looked at); an [except] without a type
    gives one [bare_except] issue; a [def] gives one
    [mutable_default_argument] issue for every list, dict or set display
    among its positional defaults; an import gives one [wildcard_import]
    issue for every name [*]; no other node gives an issue. *)
Theorem pattern_issues_node_by_node (tree : node) :
  run file tree = flat_map pattern_issues (nodes tree).
Proof.
  unfold run, leave.
  rewrite (visit_appends (enter file)).
  - simpl. apply flat_map_ext. intros n. by rewrite pattern_enter.
  - intros n issues. by rewrite !pattern_enter.
Qed.
End pattern.

(** *** The security detector *)

Section security.
Import SecurityDetector.
Variable file : string.

Definition dangerous_eval_issue (n : node) : Issue :=
  issue_at file n "dangerous_eval" "Use of eval() is dangerous and should be avoided"
    "critical".

Definition dangerous_exec_issue (n : node) : Issue :=
  issue_at file n "dangerous_exec" "Use of exec() is dangerous and should be avoided"
    "critical".

Definition unsafe_deserialization_issue (n : node) : Issue :=
  issue_at file n "unsafe_deserialization"
    "pickle.loads() can execute arbitrary code; use with caution" "high".

Definition insecure_module_issue (n : node) : Issue :=
  issue_at file n "insecure_module"
    "pickle module can be unsafe; consider using json instead" "info".

(** [func] is the attribute [loads] of the name [pickle]. *)
Definition is_pickle_loads (func : node) : bool :=
  match node_cls func with
  | Attribute attr =>
      existsb (is_Name "pickle") (field "value" func) && bool_decide (attr = "loads")
  | _ => false
  end.

(** The issues of a call of [func] *)
Definition call_issues (n func : node) : list Issue :=
  ((if is_Name "eval" func then [dangerous_eval_issue n] else [])
   ++ (if is_Name "exec" func then [dangerous_exec_issue n] else [])
   ++ (if is_pickle_loads func then [unsafe_deserialization_issue n] else []))%list.

(** The issues of one node *)
Definition security_issues (n : node) : list Issue :=
  match node_cls n with
  | Call =>
      match field "func" n with
      | func :: _ => call_issues n func
      | [] => []
      end
  | Import =>
      map (λ _, insecure_module_issue n)
          (filter (λ alias, PatternDetector.alias_name alias = Some "pickle")
                  (field "names" n))
  | _ => []
  end.

Lemma security_enter (n : node) (issues : list Issue) :
  enter file n issues = (issues ++ security_issues n)%list.
Proof.
  unfold enter, security_issues.
  destruct (node_cls n); rewrite ?app_nil_r; try done.
  - rewrite (foldl_append_if
               (λ alias, bool_decide (PatternDetector.alias_name alias = Some "pickle"))
               (λ _, insecure_module_issue n)).
    f_equal. f_equal. apply list_filter_iff. intros alias.
    by rewrite bool_decide_eq_true.
  - destruct (field "func" n) as [|func rest]; [by rewrite app_nil_r|].
    unfold check_call, call_issues, is_pickle_loads.
    destruct (is_Name "eval" func), (is_Name "exec" func), (node_cls func);
      simpl; rewrite ?app_nil_r, <-?app_assoc; try done.
    all: by destruct (_ && _); simpl; rewrite ?app_nil_r, <-?app_assoc.
Qed.

(** X17: the issues of the security detector are those of the nodes of
    the tree, one node after the other in the order of the visit.  A call
    gives [dangerous_eval] when the function called is the name [eval],
    [dangerous_exec] when it is the name [exec], [unsafe_deserialization]
    when it is the attribute [loads] of the name [pickle]; an [import]
    statement gives one [insecure_module] issue for every name [pickle]; no
    other node gives an issue, a [from pickle import ...] included. *)
Theorem security_issues_node_by_node (tree : node) :
  run file tree = flat_map security_issues (nodes tree).
Proof.
  unfold run, leave.
  rewrite (visit_appends (enter file)).
  - simpl. apply flat_map_ext. intros n. by rewrite security_enter.
  - intros n issues. by rewrite !security_enter.
Qed.
End security.

End DetectorProps.

(** ** The quality detector: cyclomatic complexity *)

Module ComplexityProps.
Import ast AstProps QualityDetector QualityProps.

(** The statements [visit_If], [visit_For], [visit_While],
    [visit_ExceptHandler] and [visit_With] count *)
Definition is_branch (n : node) : bool :=
  match node_cls n with
  | If | For | While | ExceptHandler | With => true
  | _ => false
  end.

(** The nodes at and below [n] that belong to the function around [n]: the
    descent stops at a [def], whose body is counted for that [def]. *)
Fixpoint own (n : node) : list node :=
  match n with
  | Node cls _ _ fs =>
      let below :=
        (fix in_fields (fs : list (string * list node)) : list node :=
           match fs with
           | [] => []
           | (_, ns) :: fs' =>
               ((fix in_list (ns : list node) : list node :=
                   match ns with
                   | [] => []
                   | c :: ns' => (own c ++ in_list ns')%list
                   end) ns ++ in_fields fs')%list
           end) fs in
      match cls with
      | FunctionDef _ => []
      | _ => n :: below
      end
  end.

(** Every node of the tree, children before parents *)
Fixpoint post_order (n : node) : list node :=
  match n with
  | Node _ _ _ fs =>
      ((fix in_fields (fs : list (string * list node)) : list node :=
          match fs with
          | [] => []
          | (_, ns) :: fs' =>
              ((fix in_list (ns : list node) : list node :=
                  match ns with
                  | [] => []
                  | c :: ns' => (post_order c ++ in_list ns')%list
                  end) ns ++ in_fields fs')%list
          end) fs ++ [n])%list
  end.

(** The branches of the body of a [def], those of the [def]s inside left out *)
Definition branches (n : node) : Z :=
  Z.of_nat (length (filter (λ m, is_branch m = true) (flat_map own (children n)))).

(** The count [visit_FunctionDef] ends with: 1 and the branches of the
    body.  A name that is the empty text is no function context. *)
Definition complexity (n : node) : Z :=
  1 + if py.truthy_str (Some (function_name n)) then branches n else 0.

Definition complex_def (n : node) : Prop :=
  is_FunctionDef n = true ∧ complexity n > 10.

Global Instance complex_def_dec n : Decision (complex_def n).
Proof. unfold complex_def. apply _. Defined.

Definition high_complexity_issue (file : string) (n : node) : Issue :=
  issue_at file n "high_complexity"
    ("Function " +:+ py.quoted (function_name n)
     +:+ " has high cyclomatic complexity (" +:+ py.str_int (complexity n) +:+ ")")
    "warning".

Lemma own_unfold (n : node) :
  own n = if is_FunctionDef n then [] else n :: flat_map own (children n).
Proof.
  destruct n as [cls lineno parent fields].
  assert (Hbelow :
    (fix in_fields (fs : list (string * list node)) : list node :=
       match fs with
       | [] => []
       | (_, ns) :: fs' =>
           ((fix in_list (ns : list node) : list node :=
               match ns with
               | [] => []
               | c :: ns' => (own c ++ in_list ns')%list
               end) ns ++ in_fields fs')%list
       end) fields
    = flat_map own (children (Node cls lineno parent fields))).
  { unfold children. simpl.
    induction fields as [|[name ns] fields IH]; simpl; [done|].
    by rewrite flat_map_app, <-IH. }
  unfold is_FunctionDef. simpl. rewrite <-Hbelow. by destruct cls.
Qed.

Lemma post_order_unfold (n : node) :
  post_order n = (flat_map post_order (children n) ++ [n])%list.
Proof.
  destruct n as [cls lineno parent fields]. simpl. f_equal.
  unfold children. simpl.
  induction fields as [|[name ns] fields IH]; simpl; [done|].
  by rewrite flat_map_app, <-IH.
Qed.

(** The count a visit adds in the function context [function] *)
Definition counted (function : option string) (ns : list node) : Z :=
  if py.truthy_str function
  then Z.of_nat (length (filter (λ m, is_branch m = true) ns))
  else 0.

Lemma counted_app (function : option string) (ns1 ns2 : list node) :
  counted function (ns1 ++ ns2) = counted function ns1 + counted function ns2.
Proof.
  unfold counted. destruct (py.truthy_str function); [|done].
  rewrite filter_app, length_app. lia.
Qed.

Ltac by_type :=
  repeat match goal with
  | |- context [decide (of_type ?t ?i)] =>
      destruct (decide (of_type t i)) as [E|E];
        [try (unfold of_type in E; simpl in E; discriminate E)
        |try (exfalso; apply E; reflexivity)]
  end;
  rewrite ?app_nil_r; try done.

Section complexity.
Context `{Runtime}.

Lemma report_context (self : QualityDetector) (n : node)
    (type message severity : string) :
  type ≠ "high_complexity" →
  file_path (report self n type message severity) = file_path self
  ∧ current_function (report self n type message severity) = current_function self
  ∧ complexity_count (report self n type message severity) = complexity_count self
  ∧ filter (of_type "high_complexity") (issues (report self n type message severity))
    = filter (of_type "high_complexity") (issues self).
Proof.
  intros Hne. do 3 (split; [done|]). simpl. rewrite filter_snoc.
  destruct (decide _) as [[= E]|_]; [by subst type|by rewrite app_nil_r].
Qed.

(** What the code before [generic_visit] does to the context *)
Lemma enter_context (n : node) (self : QualityDetector) :
  file_path (enter n self) = file_path self
  ∧ filter (of_type "high_complexity") (issues (enter n self)) = filter (of_type "high_complexity") (issues self)
  ∧ current_function (enter n self)
    = (if is_FunctionDef n then Some (function_name n) else current_function self)
  ∧ complexity_count (enter n self)
    = (if is_FunctionDef n then 1
       else complexity_count self
            + if is_branch n && py.truthy_str (current_function self) then 1 else 0).
Proof.
  unfold enter, is_FunctionDef, is_branch, function_name.
  destruct (node_cls n) eqn:Hcls; simpl;
    try (by rewrite ?Z.add_0_r);
    try (unfold count_branch; destruct (py.truthy_str (current_function self));
         simpl; by rewrite ?Z.add_0_r).
  - unfold enter_FunctionDef.
    destruct (bool_decide (total_args n > 7)), (lacks_docstring n name); simpl;
      rewrite ?filter_snoc; by_type.
  - unfold enter_ClassDef.
    destruct (lacks_docstring n name), (bool_decide _); simpl;
      rewrite ?filter_snoc, ?Z.add_0_r; by_type.
  - rewrite filter_snoc, ?Z.add_0_r. by_type.
  - unfold enter_Constant.
    destruct (number value) as [q|]; [|by rewrite Z.add_0_r].
    destruct (not_common q); [|by rewrite Z.add_0_r].
    destruct (negb _); simpl; rewrite ?filter_snoc, ?Z.add_0_r; by_type.
Qed.

Lemma visit_children_complexity (cs : list node) (self : QualityDetector) :
  Forall (λ c, ∀ self,
            file_path (visit c self) = file_path self
            ∧ current_function (visit c self) = current_function self
            ∧ complexity_count (visit c self)
              = complexity_count self + counted (current_function self) (own c)
            ∧ filter (of_type "high_complexity") (issues (visit c self))
              = (filter (of_type "high_complexity") (issues self)
                 ++ map (high_complexity_issue (file_path self))
                        (filter complex_def (post_order c)))%list) cs →
  file_path (foldl (λ v c, visit c v) self cs) = file_path self
  ∧ current_function (foldl (λ v c, visit c v) self cs) = current_function self
  ∧ complexity_count (foldl (λ v c, visit c v) self cs)
    = complexity_count self + counted (current_function self) (flat_map own cs)
  ∧ filter (of_type "high_complexity") (issues (foldl (λ v c, visit c v) self cs))
    = (filter (of_type "high_complexity") (issues self)
       ++ map (high_complexity_issue (file_path self))
              (filter complex_def (flat_map post_order cs)))%list.
Proof.
  intros Hcs. revert self.
  induction Hcs as [|c cs Hc _ IH]; intros self; simpl.
  - unfold counted. destruct (py.truthy_str _); simpl; rewrite ?app_nil_r;
      repeat split; lia.
  - destruct (Hc self) as (Hpath & Hfun & Hcount & Hissues).
    destruct (IH (visit c self)) as (Hpath' & Hfun' & Hcount' & Hissues').
    rewrite Hpath', Hfun', Hcount', Hissues', Hpath, Hfun, Hcount, Hissues.
    rewrite counted_app, filter_app, map_app.
    repeat split; [lia|by rewrite <-app_assoc].
Qed.

Lemma visit_complexity (n : node) (self : QualityDetector) :
  file_path (visit n self) = file_path self
  ∧ current_function (visit n self) = current_function self
  ∧ complexity_count (visit n self)
    = complexity_count self + counted (current_function self) (own n)
  ∧ filter (of_type "high_complexity") (issues (visit n self))
    = (filter (of_type "high_complexity") (issues self)
       ++ map (high_complexity_issue (file_path self))
              (filter complex_def (post_order n)))%list.
Proof.
  revert self. induction n as [n IH] using children_ind. intros self.
  change (visit n self) with (ast.visit enter leave n self).
  rewrite visit_unfold. unfold generic_visit.
  destruct (visit_children_complexity (children n) (enter n self) IH)
    as (Hpath & Hfun & Hcount & Hissues).
  destruct (enter_context n self) as (Epath & Eissues & Efun & Ecount).
  unfold visit in Hpath, Hfun, Hcount, Hissues.
  set (after := foldl (λ v c, ast.visit enter leave c v) (enter n self) (children n))
    in *.
  rewrite post_order_unfold, own_unfold, filter_app, map_app.
  rewrite filter_cons, filter_nil.
  unfold leave. unfold is_FunctionDef in *.
  destruct (node_cls n) eqn:Hcls;
    try (rewrite Hpath, Hfun, Hcount, Hissues, Epath, Eissues, Efun, Ecount;
         rewrite decide_False by (intros [Hdef _]; unfold is_FunctionDef in Hdef;
                                  by rewrite Hcls in Hdef);
         unfold counted, is_branch; simpl; rewrite Hcls;
         destruct (py.truthy_str (current_function self)); simpl;
         rewrite ?filter_cons, ?app_nil_r; unfold is_branch; rewrite ?Hcls; simpl;
         repeat split; try done; try lia;
         try (rewrite decide_True by done; simpl; lia);
         try (rewrite decide_False by done; simpl; lia)).
  unfold leave_FunctionDef.
  assert (Hcomplexity : complexity_count after = complexity n).
  { rewrite Hcount, Efun, Ecount. unfold complexity, counted, branches, function_name.
    by rewrite Hcls. }
  rewrite Hcomplexity.
  assert (Hname : function_name n = name) by (unfold function_name; by rewrite Hcls).
  unfold counted. 
  destruct (decide (complex_def n)) as [[_ Hlong]|Hshort].
  - rewrite bool_decide_eq_true_2 by done. simpl.
    rewrite filter_snoc. rewrite decide_True by done.
    rewrite Hissues, Hpath, Epath, Eissues.
    unfold high_complexity_issue. rewrite Hname.
    destruct (py.truthy_str (current_function self)); simpl;
      repeat split; try lia; by rewrite <-app_assoc.
  - rewrite bool_decide_eq_false_2.
    2:{ intros Hlong. apply Hshort. split; [|done].
        unfold is_FunctionDef. by rewrite Hcls. }
    simpl. rewrite Hissues, Hpath, Epath, Eissues.
    destruct (py.truthy_str (current_function self)); simpl;
      repeat split; try lia; by rewrite ?app_nil_r.
Qed.

(** X18: the [high_complexity] issues of a file are one for every [def]
    whose complexity is above 10, a [def] nested in another one before the
    one around it.  The complexity of a [def] is 1 plus the number of [if],
    [for], [while], [with] statements and [except] handlers in its body; the
    statements inside a nested [def] count for the nested [def] only, and the
    message tells the count. *)
Theorem high_complexity_per_def (file : string) (tree : node) :
  filter (of_type "high_complexity") (run file tree)
  = map (high_complexity_issue file) (filter complex_def (post_order tree)).
Proof.
  unfold run. by destruct (visit_complexity tree (__init__ file)) as (_ & _ & _ & ->).
Qed.

End complexity.
End ComplexityProps.

(** ** What a scan returns *)

Module ContractProps.
Import ast AstProps CodeScanner BugFixingAssistant ScanProps QualityProps.

(** The issue types and the severities of the three detectors *)
Definition detector_types : list string :=
  ["none_comparison"; "bare_except"; "mutable_default_argument"; "wildcard_import";
   "dangerous_eval"; "dangerous_exec"; "unsafe_deserialization"; "insecure_module";
   "too_many_arguments"; "missing_docstring"; "high_complexity"; "assert_statement";
   "too_many_methods"; "magic_number"].

Definition detector_severities : list string := ["info"; "warning"; "high"; "critical"].

(** An issue of a detector for the file [file]: it has the five keys. *)
Definition detector_issue (file : string) (i : Issue) : Prop :=
  issue_file i = Some file
  ∧ is_Some (issue_line i)
  ∧ (∃ type, issue_type i = Some type ∧ type ∈ detector_types)
  ∧ is_Some (issue_message i)
  ∧ (∃ severity, issue_severity i = Some severity ∧ severity ∈ detector_severities).

(** An issue of the scanner itself for the file [file]: a syntax error
    with the line of the parser, or a scan error, which has no line. *)
Definition scanner_issue (file : string) (i : Issue) : Prop :=
  issue_file i = Some file
  ∧ is_Some (issue_message i)
  ∧ ((issue_type i = Some "syntax_error" ∧ issue_severity i = Some "critical")
     ∨ (issue_type i = Some "scan_error" ∧ issue_severity i = Some "error"
        ∧ issue_line i = None)).

Lemma issue_at_detector_issue (file : string) (n : node) (type message severity : string) :
  type ∈ detector_types → severity ∈ detector_severities →
  detector_issue file (issue_at file n type message severity).
Proof.
  intros Htype Hseverity. split; [done|]. split; [by eexists|].
  split; [by eexists|]. split; [by eexists|]. by eexists.
Qed.

Ltac listed :=
  apply issue_at_detector_issue;
  [unfold detector_types; set_solver|unfold detector_severities; set_solver].

Section visitor.
Context {V : Type} (enter : node → V → V) (leave : node → V → V → V).
Variable Inv : V → Prop.
Hypothesis enter_keeps : ∀ n v, Inv v → Inv (enter n v).
Hypothesis leave_keeps : ∀ n on_entry v, Inv on_entry → Inv v → Inv (leave n on_entry v).

Lemma visit_keeps (n : node) (v : V) : Inv v → Inv (visit enter leave n v).
Proof.
  revert v. induction n as [n IH] using children_ind. intros v Hv.
  rewrite visit_unfold. apply leave_keeps; [done|].
  unfold generic_visit. specialize (enter_keeps n v Hv).
  revert enter_keeps. generalize (enter n v) as acc.
  induction IH as [|c cs Hc _ IHcs]; intros acc Hacc; simpl; [done|].
  apply IHcs. by apply Hc.
Qed.
End visitor.

Lemma pattern_detector_issues (file : string) (tree : node) :
  Forall (detector_issue file) (PatternDetector.run file tree).
Proof.
  unfold PatternDetector.run.
  rewrite (DetectorProps.visit_appends (PatternDetector.enter file))
    by (intros n issues; by rewrite !DetectorProps.pattern_enter).
  simpl. apply Forall_flat_map, Forall_forall. intros n _.
  rewrite DetectorProps.pattern_enter. simpl.
  unfold DetectorProps.pattern_issues.
  destruct (node_cls n); try constructor.
  - apply Forall_map, Forall_forall. intros; simpl.
    unfold DetectorProps.mutable_default_issue. listed.
  - destruct (field "type" n); constructor; [|constructor].
    unfold DetectorProps.bare_except_issue. listed.
  - apply Forall_map, Forall_forall. intros; simpl.
    unfold DetectorProps.wildcard_import_issue. listed.
  - apply Forall_map, Forall_forall. intros; simpl.
    unfold DetectorProps.wildcard_import_issue. listed.
  - apply Forall_map, Forall_forall. intros; simpl.
    unfold DetectorProps.none_comparison_issue. listed.
Qed.

Lemma security_detector_issues (file : string) (tree : node) :
  Forall (detector_issue file) (SecurityDetector.run file tree).
Proof.
  unfold SecurityDetector.run.
  rewrite (DetectorProps.visit_appends (SecurityDetector.enter file))
    by (intros n issues; by rewrite !DetectorProps.security_enter).
  simpl. apply Forall_flat_map, Forall_forall. intros n _.
  rewrite DetectorProps.security_enter. simpl.
  unfold DetectorProps.security_issues.
  destruct (node_cls n); try constructor.
  - apply Forall_map, Forall_forall. intros; simpl.
    unfold DetectorProps.insecure_module_issue. listed.
  - destruct (field "func" n) as [|func rest]; [constructor|].
    unfold DetectorProps.call_issues.
    repeat (apply Forall_app; split);
      match goal with |- Forall _ (if ?b then _ else _) => destruct b end;
      try (by constructor);
      (constructor; [|constructor]);
      unfold DetectorProps.dangerous_eval_issue, DetectorProps.dangerous_exec_issue,
        DetectorProps.unsafe_deserialization_issue; listed.
Qed.

Section scan.
Context `{Runtime}.

Definition quality_invariant (file : string) (self : QualityDetector) : Prop :=
  file_path self = file ∧ Forall (detector_issue file) (issues self).

Lemma report_detector_issue (file : string) (self : QualityDetector) (n : node)
    (type message severity : string) :
  type ∈ detector_types → severity ∈ detector_severities →
  quality_invariant file self →
  quality_invariant file (QualityDetector.report self n type message severity).
Proof.
  intros Htype Hseverity [Hpath Hissues]. split; [done|]. simpl.
  apply Forall_app. split; [done|]. constructor; [|constructor].
  rewrite Hpath. by apply issue_at_detector_issue.
Qed.

Ltac reports :=
  repeat first
    [ done
    | apply report_detector_issue;
        [unfold detector_types; set_solver|unfold detector_severities; set_solver|]
    | match goal with
      | |- quality_invariant _ (if ?b then _ else _) => destruct b
      | |- quality_invariant _ (match ?x with _ => _ end) => destruct x
      end ].

Lemma quality_detector_issues (file : string) (tree : node) :
  Forall (detector_issue file) (QualityDetector.run file tree).
Proof.
  unfold QualityDetector.run, QualityDetector.visit.
  apply (visit_keeps QualityDetector.enter QualityDetector.leave
           (quality_invariant file)).
  - intros n self Hself. unfold QualityDetector.enter.
    destruct (node_cls n); try done.
    + unfold QualityDetector.enter_FunctionDef.
      match goal with
      | |- context [QualityDetector.set_context self ?f ?k] =>
          assert (Hctx : quality_invariant file (QualityDetector.set_context self f k))
            by done;
          revert Hctx; generalize (QualityDetector.set_context self f k)
      end.
      intros self' Hself'. reports.
    + unfold QualityDetector.enter_ClassDef. reports.
    + unfold QualityDetector.count_branch. reports.
    + unfold QualityDetector.count_branch. reports.
    + unfold QualityDetector.count_branch. reports.
    + unfold QualityDetector.count_branch. reports.
    + unfold QualityDetector.count_branch. reports.
    + reports.
    + unfold QualityDetector.enter_Constant. reports.
  - intros n on_entry self _ Hself. unfold QualityDetector.leave.
    destruct (node_cls n); try done.
    unfold QualityDetector.leave_FunctionDef.
    destruct (bool_decide _); [|done].
    match goal with
    | |- quality_invariant _ (QualityDetector.set_context ?s _ _) =>
        enough (quality_invariant file s) by done
    end.
    reports.
  - split; [done|constructor].
Qed.

(** What the first pass records for a file, case by case *)
Definition scanner_issues (files : gmap string entry) (file_path : string)
    : list Issue :=
  match fs.read files file_path with
  | Raise e => [scan_error file_path e]
  | Return content =>
      if bool_decide (suffix file_path = ".py") then
        match ast_parse content with
        | Parsed _ => []
        | ParseSyntaxError e => [syntax_error file_path e]
        | ParseException msg => [scan_error file_path msg]
        end
      else []
  end.

Lemma scanned_scanner_issues (files : gmap string entry) (file_path : string) :
  scanned files file_path = scanner_issues files file_path.
Proof.
  unfold scanned, scanner_issues, _scan_file, _analyze_python_file, mbind, outcome_bind.
  destruct (fs.read files file_path) as [content|e]; [|done].
  case_bool_decide; [|done]. by destruct (ast_parse content).
Qed.

Lemma scanned_are_scanner_issues (files : gmap string entry) (file_path : string) :
  Forall (scanner_issue file_path) (scanned files file_path).
Proof.
  rewrite scanned_scanner_issues. unfold scanner_issues.
  assert (Herror : ∀ e, scanner_issue file_path (scan_error file_path e)).
  { intros e. split; [done|]. split; [by eexists|]. by right. }
  destruct (fs.read files file_path) as [content|e].
  - case_bool_decide; [|constructor].
    destruct (ast_parse content) as [tree|e|msg]; [constructor| |];
      (constructor; [|constructor]); [|done].
    split; [done|]. split; [by eexists|]. by left.
  - by constructor.
Qed.

Lemma detected_are_detector_issues (files : gmap string entry) (file_path : string) :
  Forall (detector_issue file_path) (detected files file_path).
Proof.
  unfold detected, run_detectors, PatternDetector.detect_patterns,
    SecurityDetector.detect_security_issues, QualityDetector.detect_quality_issues.
  destruct (fs.read files file_path) as [content|e]; [|constructor].
  destruct (ast_parse content) as [tree|e|msg]; simpl; try constructor.
  rewrite !Forall_app. split; [split|].
  - apply pattern_detector_issues.
  - apply security_detector_issues.
  - apply quality_detector_issues.
Qed.

(** X19: every issue a scan returns belongs to one of the enumerated
    files and has the keys a report reads.  It is an issue of the scanner (a
    [syntax_error] of severity [critical], or a [scan_error] of severity
    [error], which has no line), or an issue of a detector, with file, line,
    message, one of the fourteen detector types and a severity among [info],
    [warning], [high] and [critical]. *)
Theorem scan_issues_are_well_formed (files : gmap string entry)
    (extensions : list string) (directory : string) :
  Forall (λ i, ∃ file_path,
                 file_path ∈ _find_code_files directory extensions
                 ∧ (scanner_issue file_path i ∨ detector_issue file_path i))
         (scan_directory files extensions directory).
Proof.
  rewrite scan_directory_two_passes. apply Forall_app. split.
  - apply Forall_flat_map, Forall_forall. intros file_path Hin.
    eapply Forall_impl; [apply scanned_are_scanner_issues|]. simpl. eauto.
  - apply Forall_flat_map, Forall_forall. intros file_path Hin.
    eapply Forall_impl; [apply detected_are_detector_issues|]. simpl. eauto.
Qed.

(** The scan errors of one file *)
Definition scan_errors (files : gmap string entry) (file_path : string) : list Issue :=
  match fs.read files file_path with
  | Raise e => [scan_error file_path e]
  | Return content =>
      if bool_decide (suffix file_path = ".py") then
        match ast_parse content with
        | ParseException msg => [scan_error file_path msg]
        | _ => []
        end
      else []
  end.

Lemma filter_flat_map {A : Type} (P : Issue → Prop) `{∀ i, Decision (P i)}
    (f : A → list Issue) (l : list A) :
  filter P (flat_map f l) = flat_map (λ x, filter P (f x)) l.
Proof.
  induction l as [|x l IH]; simpl; [done|]. by rewrite filter_app, IH.
Qed.

(** X20: the [scan_error] issues of a scan are, in the order of the
    enumeration, one for every enumerated path that cannot be read (whatever
    its suffix), with the text of the exception in the message, and one for
    every [.py] file on which the parser raises something else than a
    [SyntaxError]; the detectors add none: what they raise is only printed. *)
Theorem scan_errors_are_failed_files (files : gmap string entry)
    (extensions : list string) (directory : string) :
  filter (of_type "scan_error") (scan_directory files extensions directory)
  = flat_map (scan_errors files) (_find_code_files directory extensions).
Proof.
  rewrite scan_directory_two_passes, filter_app, !filter_flat_map.
  assert (Hdetected :
    flat_map (λ file_path, filter (of_type "scan_error") (detected files file_path))
             (_find_code_files directory extensions) = []).
  { induction (_find_code_files directory extensions) as [|file_path l IH]; [done|].
    simpl. rewrite IH, app_nil_r.
    pose proof (detected_are_detector_issues files file_path) as Hall.
    induction Hall as [|i is_ Hi _ IHall]; [done|].
    rewrite filter_cons, IHall. rewrite decide_False; [done|].
    destruct Hi as (_ & _ & (type & Htype & Hin) & _).
    unfold of_type. rewrite Htype. intros [= ->].
    unfold detector_types in Hin.
    repeat (apply elem_of_cons in Hin as [Hin|Hin]; [discriminate Hin|]).
    by apply elem_of_nil in Hin. }
  rewrite Hdetected, app_nil_r. apply flat_map_ext. intros file_path.
  rewrite scanned_scanner_issues. unfold scanner_issues, scan_errors.
  destruct (fs.read files file_path) as [content|e]; [|done].
  case_bool_decide; [|done]. by destruct (ast_parse content).
Qed.

(** X21: a scanner keeps its results from one scan to the next:
    [scan_directory] returns the results it had followed by those of the
    scan, so a second scan of the same files returns every issue twice, and
    only [clear_results] makes it start from nothing again. *)
Theorem scanner_results_accumulate (root : string) (files : gmap string entry)
    (extensions : option (list string)) (results : list Issue) :
  let fresh := CodeScanner.scan_directory root files extensions [] in
  CodeScanner.scan_directory root files extensions results = (results ++ fresh)%list
  ∧ CodeScanner.scan_directory root files extensions (get_results fresh)
    = (fresh ++ fresh)%list
  ∧ CodeScanner.scan_directory root files extensions (clear_results results) = fresh.
Proof.
  assert (Happend : ∀ results,
            CodeScanner.scan_directory root files extensions results
            = (results ++ CodeScanner.scan_directory root files extensions [])%list).
  { intros results'. unfold CodeScanner.scan_directory.
    rewrite !(foldl_appends (λ results file_path, _scan_file files file_path results))
      by (intros; apply _scan_file_appends).
    done. }
  intros fresh. split; [apply Happend|]. split; [apply Happend|done].
Qed.

End scan.
End ContractProps.

(** ** The fixes of a scan *)

Module BasicFixProps.
Import FixGenerator FixGeneratorProps BugFixingAssistant.

(** An issue of a type [generate_fix] has a template for *)
Definition supported (issue : Issue) : Prop :=
  issue_type issue ∈ (Some <$> supported_types).

Global Instance supported_dec issue : Decision (supported issue).
Proof. unfold supported. apply _. Defined.

Lemma generate_fix_supported (issue : Issue) :
  (supported issue ∧ ∃ fix_, generate_fix issue = Some fix_ ∧ fix_issue fix_ = issue
                             ∧ changes fix_ = [] ∧ automated fix_ = Some false)
  ∨ (¬ supported issue ∧ generate_fix issue = None).
Proof.
  unfold supported, supported_types.
  destruct (generate_fix_cases issue)
    as [[Ht Hg]|[[Ht Hg]|[[Ht Hg]|[[Ht Hg]|[Ht Hg]]]]]; rewrite Hg.
  1-4: left; split; [rewrite Ht; set_solver|eexists; by repeat split].
  right. split; [|done]. intros Hin.
  apply list_elem_of_fmap in Hin as (t & Heq & Hin). by eapply Ht.
Qed.

(** X22: [_generate_basic_fixes] returns one fix for every issue of a
    supported type ([none_comparison], [bare_except], [dangerous_eval],
    [wildcard_import]) and none for the others, in the order of the issues;
    every fix is the one [generate_fix] makes for its issue, has no changes
    and is not automated. *)
Theorem basic_fixes_follow_the_issues (issues : list Issue) :
  let fixes := _generate_basic_fixes issues in
  map fix_issue fixes = filter supported issues
  ∧ Forall (λ fix_, generate_fix (fix_issue fix_) = Some fix_
                    ∧ changes fix_ = [] ∧ automated fix_ = Some false) fixes.
Proof.
  unfold _generate_basic_fixes.
  induction issues as [|issue issues IH] using rev_ind; [by split; [|constructor]|].
  destruct IH as [IHissues IHfixes].
  rewrite foldl_app, filter_app, filter_cons, filter_nil. simpl.
  destruct (generate_fix_supported issue)
    as [(Hs & fix_ & Hg & Hissue & Hchanges & Hauto)|[Hs Hg]]; rewrite Hg.
  - rewrite decide_True by done. rewrite map_app, IHissues. simpl.
    rewrite Hissue. split; [done|]. apply Forall_app. split; [done|].
    constructor; [|constructor]. by rewrite Hissue.
  - rewrite decide_False by done. by rewrite app_nil_r.
Qed.

End BasicFixProps.

(** ** The configuration *)

Module ConfigProps.
Import Config.

Lemma dict_lookup_set (d : list (string * config_value)) (k k' : string)
    (v : config_value) :
  dict_lookup (dict_set d k v) k'
  = if decide (k' = k) then Some v else dict_lookup d k'.
Proof.
  induction d as [|[k0 v0] d IH]; simpl.
  - case_bool_decide; destruct (decide _); congruence.
  - case_bool_decide as Hk; simpl.
    + subst k0. case_bool_decide; destruct (decide _); congruence.
    + rewrite IH. case_bool_decide; destruct (decide _); congruence.
Qed.

Lemma split_dot_nonempty (s : string) : py.split_dot s ≠ [].
Proof.
  induction s as [|c s IH]; simpl; [done|].
  case_bool_decide; [done|]. by destruct (py.split_dot s).
Qed.

Lemma keys_split (key : string) :
  py.split_dot key
  = (removelast (py.split_dot key) ++ [List.last (py.split_dot key) EmptyString])%list.
Proof. apply app_removelast_last, split_dot_nonempty. Qed.

(** What [set_in] has set, [get_from] finds. *)
Lemma get_from_set_in (keys : list string) (config config' : config_value)
    (last : string) (v default : config_value) :
  set_in keys config last v = Some config' →
  get_from config' (keys ++ [last]) default = v.
Proof.
  revert config config'.
  induction keys as [|k keys IH]; intros config config' Hset;
    destruct config as [| | | | | |d]; try done; simpl in Hset.
  - injection Hset as <-. simpl. rewrite dict_lookup_set.
    by rewrite decide_True by done.
  - remember (match dict_lookup d k with
              | Some _ => d
              | None => dict_set d k (VDict [])
              end) as d1 eqn:Hd1.
    destruct (dict_lookup d1 k) as [sub|] eqn:Hsub; [|done]. simpl in Hset.
    destruct (set_in keys sub last v) as [sub'|] eqn:Hsub'; [|done]. simpl in Hset.
    injection Hset as <-. simpl. rewrite dict_lookup_set.
    rewrite decide_True by done. by eapply IH.
Qed.

(** X23: what [set] stores, [get] returns: after [set(key, value)] has
    returned, [get(key, default)] is [value] for every default, whatever the
    dotted key is and whether the dictionaries on its path were there before
    or not. *)
Theorem get_after_set (config config' : list (string * config_value)) (key : string)
    (v default : config_value) :
  set config key v = Some config' →
  get config' key default = v.
Proof.
  unfold set, get. rewrite (keys_split key) at 3.
  destruct (set_in _ _ _ _) as [[| | | | | |d]|] eqn:Hset; try done.
  intros [= <-]. by eapply get_from_set_in.
Qed.

(** Two paths neither of which goes through the other *)
Definition apart (keys1 keys2 : list string) : Prop :=
  ¬ keys1 `prefix_of` keys2 ∧ ¬ keys2 `prefix_of` keys1.

Lemma apart_cons (k : string) (keys1 keys2 : list string) :
  apart (k :: keys1) (k :: keys2) → apart keys1 keys2.
Proof.
  intros [H1 H2]. split; intros Hp; [apply H1|apply H2]; by apply prefix_cons.
Qed.

Lemma get_from_apart (keys : list string) (config config' : config_value)
    (last : string) (v default : config_value) (keys2 : list string) :
  set_in keys config last v = Some config' →
  apart (keys ++ [last]) keys2 →
  get_from config' keys2 default = get_from config keys2 default.
Proof.
  revert config config' keys2.
  induction keys as [|k keys IH]; intros config config' keys2 Hset Hapart;
    destruct config as [| | | | | |d]; try done; simpl in Hset.
  - injection Hset as <-.
    destruct keys2 as [|k2 keys2].
    { exfalso. apply (proj2 Hapart). apply prefix_nil. }
    simpl. rewrite dict_lookup_set.
    rewrite decide_False; [done|]. intros ->.
    apply (proj1 Hapart). simpl. apply prefix_cons, prefix_nil.
  - remember (match dict_lookup d k with
              | Some _ => d
              | None => dict_set d k (VDict [])
              end) as d1 eqn:Hd1.
    destruct (dict_lookup d1 k) as [sub|] eqn:Hsub; [|done]. simpl in Hset.
    destruct (set_in keys sub last v) as [sub'|] eqn:Hsub'; [|done]. simpl in Hset.
    injection Hset as <-.
    destruct keys2 as [|k2 keys2].
    { exfalso. apply (proj2 Hapart). apply prefix_nil. }
    simpl. rewrite dict_lookup_set.
    destruct (decide (k2 = k)) as [->|Hne].
    + apply apart_cons in Hapart.
      rewrite (IH _ _ _ Hsub' Hapart).
      destruct (dict_lookup d k) as [s|] eqn:Hd.
      * subst d1. rewrite Hd in Hsub. by injection Hsub as ->.
      * subst d1. rewrite dict_lookup_set in Hsub.
        rewrite decide_True in Hsub by done. injection Hsub as <-.
        destruct keys2 as [|k3 keys2]; [|done].
        exfalso. apply (proj2 Hapart). apply prefix_nil.
    + subst d1. destruct (dict_lookup d k); [done|].
      rewrite dict_lookup_set. by rewrite decide_False.
Qed.

(** X24: [set] changes what [get] returns only for the keys on its path:
    for a key whose dotted path neither begins with the path of the key that
    was set nor is a beginning of it, [get] returns what it returned
    before. *)
Theorem set_leaves_other_keys (config config' : list (string * config_value))
    (key other : string) (v default : config_value) :
  set config key v = Some config' →
  apart (py.split_dot key) (py.split_dot other) →
  get config' other default = get config other default.
Proof.
  unfold set, get. intros Hset Hapart. rewrite (keys_split key) in Hapart.
  destruct (set_in _ _ _ _) as [[| | | | | |d]|] eqn:Hset'; try done.
  injection Hset as <-. by eapply get_from_apart.
Qed.

Lemma dict_lookup_update (d new : list (string * config_value)) (k : string) :
  NoDup (map fst new) →
  dict_lookup (dict_update d new) k
  = match dict_lookup new k with
    | Some v => Some v
    | None => dict_lookup d k
    end.
Proof.
  unfold dict_update. intros Hnew. revert d.
  induction new as [|[k0 v0] new IH]; intros d; simpl; [done|].
  apply NoDup_cons in Hnew as [Hk0 Hnew].
  rewrite IH by done. case_bool_decide as Hk.
  - subst k0.
    assert (Hnone : dict_lookup new k = None).
    { clear -Hk0. induction new as [|[k1 v1] new IH]; simpl; [done|].
      simpl in Hk0. apply not_elem_of_cons in Hk0 as [Hne Hk0].
      rewrite bool_decide_eq_false_2 by done. by apply IH. }
    rewrite Hnone, dict_lookup_set. by rewrite decide_True.
  - destruct (dict_lookup new k); [done|].
    rewrite dict_lookup_set. by rewrite decide_False.
Qed.

(** What the loop of [_merge_config] stores under [key] *)
Definition merged_value (existing : option config_value) (value : config_value)
    : config_value :=
  match existing, value with
  | Some (VDict existing), VDict value => VDict (dict_update existing value)
  | _, _ => value
  end.

Lemma dict_lookup_merge (config new_config : list (string * config_value)) (k : string) :
  NoDup (map fst new_config) →
  dict_lookup (_merge_config config new_config) k
  = match dict_lookup new_config k with
    | Some value => Some (merged_value (dict_lookup config k) value)
    | None => dict_lookup config k
    end.
Proof.
  unfold _merge_config. intros Hnew. revert config.
  induction new_config as [|[k0 v0] new_config IH]; intros config; simpl; [done|].
  apply NoDup_cons in Hnew as [Hk0 Hnew].
  rewrite IH by done. clear IH.
  assert (Hstep :
    dict_lookup
      (match dict_lookup config k0, v0 with
       | Some (VDict existing), VDict value =>
           dict_set config k0 (VDict (dict_update existing value))
       | _, _ => dict_set config k0 v0
       end) k
    = if decide (k = k0) then Some (merged_value (dict_lookup config k0) v0)
      else dict_lookup config k).
  { unfold merged_value.
    destruct (dict_lookup config k0) as [[| | | | | |existing]|], v0;
      by rewrite dict_lookup_set. }
  case_bool_decide as Hk.
  - subst k0.
    assert (Hnone : dict_lookup new_config k = None).
    { clear -Hk0. induction new_config as [|[k1 v1] new_config IH]; simpl; [done|].
      simpl in Hk0. apply not_elem_of_cons in Hk0 as [Hne Hk0].
      rewrite bool_decide_eq_false_2 by done. by apply IH. }
    rewrite Hnone, Hstep. by rewrite decide_True.
  - destruct (dict_lookup new_config k); rewrite Hstep; by rewrite decide_False.
Qed.

(** X25: [_merge_config] merges one level deep.  A top-level key the new
    configuration does not have keeps its value.  A key both have as
    dictionaries keeps the entries of the old dictionary that the new one
    does not have and takes all the entries of the new one as they are (a
    dictionary inside is replaced, not merged).  In every other case the new
    value replaces the old one. *)
Theorem merge_is_one_level_deep (config new_config : list (string * config_value))
    (section : string) :
  NoDup (map fst new_config) →
  match dict_lookup new_config section with
  | None =>
      dict_lookup (_merge_config config new_config) section = dict_lookup config section
  | Some (VDict value) =>
      match dict_lookup config section with
      | Some (VDict existing) =>
          ∃ merged,
            dict_lookup (_merge_config config new_config) section = Some (VDict merged)
            ∧ (NoDup (map fst value) →
               ∀ option,
                 dict_lookup merged option
                 = match dict_lookup value option with
                   | Some v => Some v
                   | None => dict_lookup existing option
                   end)
      | _ =>
          dict_lookup (_merge_config config new_config) section = Some (VDict value)
      end
  | Some value =>
      dict_lookup (_merge_config config new_config) section = Some value
  end.
Proof.
  intros Hnew. rewrite (dict_lookup_merge _ _ _ Hnew).
  destruct (dict_lookup new_config section) as [value|]; [|done].
  unfold merged_value.
  destruct (dict_lookup config section) as [[| | | | | |existing]|], value; try done.
  eexists. split; [done|]. intros Hvalue option. by apply dict_lookup_update.
Qed.

End ConfigProps.

(** ** Scenarios of the configuration *)

Module ConfigScenarios.
Import Config ConfigProps.

(** A file that turns the backups off and adds a key of its own *)
Definition file_config : list (string * config_value) :=
  [("fixer", VDict [("create_backup", VBool false)]); ("verbose", VBool true)].

(** A key below a section that is not there yet *)
Lemma get_after_set_witness :
  ∃ config',
    set DEFAULT_CONFIG "fixer.retry.count" (VInt 3) = Some config'
    ∧ get config' "fixer.retry.count" VNone = VInt 3.
Proof.
  eexists. split; [vm_compute; reflexivity|].
  apply (get_after_set DEFAULT_CONFIG _ "fixer.retry.count" (VInt 3) VNone).
  vm_compute. reflexivity.
Defined.

Lemma set_leaves_other_keys_witness :
  ∃ config',
    set DEFAULT_CONFIG "fixer.create_backup" (VBool false) = Some config'
    ∧ get config' "fixer.backup_suffix" VNone
      = get DEFAULT_CONFIG "fixer.backup_suffix" VNone.
Proof.
  eexists. split; [vm_compute; reflexivity|].
  apply (set_leaves_other_keys DEFAULT_CONFIG _ "fixer.create_backup"
           "fixer.backup_suffix" (VBool false) VNone).
  - vm_compute. reflexivity.
  - split; intros [rest Hrest]; vm_compute in Hrest; discriminate Hrest.
Defined.

Lemma merge_is_one_level_deep_witness :
  NoDup (map fst file_config)
  ∧ ∃ merged,
      dict_lookup (_merge_config DEFAULT_CONFIG file_config) "fixer"
      = Some (VDict merged)
      ∧ (NoDup (map fst [("create_backup", VBool false)]) →
         ∀ option,
           dict_lookup merged option
           = match dict_lookup [("create_backup", VBool false)] option with
             | Some v => Some v
             | None =>
                 dict_lookup [("auto_apply_fixes", VBool false);
                              ("create_backup", VBool true);
                              ("backup_suffix", VStr ".backup")] option
             end).
Proof.
  assert (Hkeys : NoDup (map fst file_config)).
  { simpl. repeat constructor; rewrite ?elem_of_cons, ?elem_of_nil;
      intros ?; intuition discriminate. }
  split; [exact Hkeys|].
  exact (merge_is_one_level_deep DEFAULT_CONFIG file_config "fixer" Hkeys).
Defined.

(** The settings [BugFixingAssistant] reads, in the default configuration
    and after the file above was merged in *)
Example default_settings :
  get DEFAULT_CONFIG "fixer.create_backup" (VBool true) = VBool true
  ∧ get DEFAULT_CONFIG "fixer.backup_suffix" (VStr ".backup") = VStr ".backup"
  ∧ get DEFAULT_CONFIG "scanner.file_extensions" (VList [VStr ".py"])
    = VList [VStr ".py"]
  ∧ get (_merge_config DEFAULT_CONFIG file_config) "fixer.create_backup" (VBool true)
    = VBool false
  ∧ get (_merge_config DEFAULT_CONFIG file_config) "fixer.backup_suffix" VNone
    = VStr ".backup"
  ∧ get DEFAULT_CONFIG "fixer.backup_suffix.length" (VInt 0) = VInt 0.
Proof. vm_compute. repeat split. Qed.

End ConfigScenarios.

(** ** A diff that is empty *)

Module ChangedProps.
Import difflib MatcherProps.
Local Open Scope nat_scope.

Section changed.
Variables a b : list string.

(** A match whose lines are the same in [a] and in [b] *)
Definition real (m : Match) : Prop :=
  let '(i, j, k) := m in
  ∀ t, t < k → ∃ x, a !! (i + t) = Some x ∧ b !! (j + t) = Some x.

(** The lengths [j2len] holds once the rows before row [i] are done: a
    length [v] in column [c] is a match that ends in row [i - 1] and in
    column [c]. *)
Definition lengths_real (i : nat) (j2len : gmap nat nat) : Prop :=
  ∀ c v, j2len !! c = Some v →
         v ≤ i ∧ v ≤ c + 1 ∧ real (i - v, c + 1 - v, v).

Lemma scan_row_real (i blo bhi : nat) (line : string) (j2len : gmap nat nat)
    (js : list nat) (best : Match) (newj2len : gmap nat nat) :
  a !! i = Some line →
  Forall (λ j, b !! j = Some line) js →
  lengths_real i j2len →
  real best →
  lengths_real (i + 1) newj2len →
  real (fst (scan_row i blo bhi j2len js best newj2len))
  ∧ lengths_real (i + 1) (snd (scan_row i blo bhi j2len js best newj2len)).
Proof.
  intros Hline Hjs Hold. revert best newj2len.
  induction Hjs as [|j js Hj _ IH]; intros best newj2len Hbest Hnew; simpl; [done|].
  case_bool_decide as Hlo; [by apply IH|].
  case_bool_decide as Hhi; [done|].
  set (prev := match j with O => 0 | S j' => default 0 (j2len !! j') end).
  assert (Hprev : prev ≤ i ∧ prev ≤ j ∧ real (i - prev, j - prev, prev)).
  { subst prev. destruct j as [|j'].
    { split; [lia|]. split; [lia|]. intros t Ht. lia. }
    destruct (j2len !! j') as [v|] eqn:Hv; simpl.
    - destruct (Hold _ _ Hv) as (Hvi & Hvj & Hreal).
      split; [done|]. split; [lia|].
      by replace (S j' - v) with (j' + 1 - v) by lia.
    - split; [lia|]. split; [lia|]. intros t Ht. lia. }
  destruct Hprev as (Hprev_i & Hprev_j & Hprev_real).
  assert (Hnew_real : real (i + 1 - (prev + 1), j + 1 - (prev + 1), prev + 1)).
  { intros t Ht. destruct (decide (t < prev)) as [Hlt|Hge].
    - destruct (Hprev_real t Hlt) as (x & Ha & Hb). exists x.
      replace (i + 1 - (prev + 1) + t) with (i - prev + t) by lia.
      replace (j + 1 - (prev + 1) + t) with (j - prev + t) by lia. done.
    - exists line.
      replace (i + 1 - (prev + 1) + t) with i by lia.
      replace (j + 1 - (prev + 1) + t) with j by lia. done. }
  clearbody prev.
  apply IH.
  - destruct best as [[bi bj] bs]. simpl. by case_bool_decide.
  - intros c v. rewrite lookup_insert. case_decide as Hc.
    + intros [= <-]. subst c. split; [lia|]. split; [lia|done].
    + apply Hnew.
Qed.

Lemma lengths_real_empty (i : nat) : lengths_real i ∅.
Proof. intros c v. by rewrite lookup_empty. Qed.

Lemma scan_rows_from_real (blo bhi : nat) (rows i : nat)
    (best : Match) (j2len : gmap nat nat) :
  real best →
  lengths_real i j2len →
  real (fst (foldl (λ '(best, j2len) i,
                      match a !! i with
                      | Some line =>
                          scan_row i blo bhi j2len (default [] (b2j b !! line)) best ∅
                      | None => (best, ∅)
                      end)
                   (best, j2len) (seq i rows))).
Proof.
  revert i best j2len. induction rows as [|rows IH]; intros i best j2len Hbest Hlen;
    simpl; [done|].
  destruct (a !! i) as [line|] eqn:Hline.
  - destruct (scan_row_real i blo bhi line j2len (default [] (b2j b !! line)) best ∅)
      as [Hbest' Hlen']; [done| |done|done|apply lengths_real_empty|].
    { destruct (b2j b !! line) as [js|] eqn:Hjs; [|constructor]. simpl.
      apply EqualProps.b2j_places in Hjs as [_ Hin].
      apply Forall_forall. intros j Hj. by apply Hin. }
    destruct (scan_row _ _ _ _ _ _ _) as [best' j2len'].
    apply IH; [done|]. by replace (S i) with (i + 1) by lia.
  - apply IH; [done|apply lengths_real_empty].
Qed.

Lemma scan_rows_real (alo ahi blo bhi : nat) : real (scan_rows a b alo ahi blo bhi).
Proof.
  unfold scan_rows. apply scan_rows_from_real; [|apply lengths_real_empty].
  intros t Ht. lia.
Qed.

Lemma extend_left_real (alo blo besti bestj bestsize : nat) :
  besti ≤ length a →
  real (besti, bestj, bestsize) →
  real (extend_left a b alo blo besti bestj bestsize).
Proof.
  revert bestj bestsize.
  induction besti as [|i' IH]; intros bestj bestsize Hlen Hbest; simpl; [done|].
  destruct bestj as [|j']; [done|].
  destruct (_ && _) eqn:Htest; [|done].
  apply andb_prop in Htest as [_ Heq]. apply bool_decide_eq_true in Heq.
  apply IH; [lia|].
  intros t Ht. destruct t as [|t].
  - destruct (lookup_lt_is_Some_2 a i' ltac:(lia)) as [x Hx].
    exists x. rewrite !Nat.add_0_r. split; [done|]. by rewrite <-Heq.
  - destruct (Hbest t ltac:(lia)) as (x & Ha & Hb). exists x.
    replace (i' + S t) with (S i' + t) by lia.
    replace (j' + S t) with (S j' + t) by lia. done.
Qed.

Lemma extend_right_real (room bhi besti bestj bestsize : nat) :
  besti + bestsize + room ≤ length a →
  real (besti, bestj, bestsize) →
  real (extend_right a b room bhi besti bestj bestsize).
Proof.
  revert bestsize.
  induction room as [|room IH]; intros bestsize Hroom Hbest; simpl; [done|].
  destruct (_ && _) eqn:Htest; [|done].
  apply andb_prop in Htest as [_ Heq]. apply bool_decide_eq_true in Heq.
  apply IH; [lia|].
  intros t Ht. destruct (decide (t < bestsize)) as [Hlt|Hge]; [by apply Hbest|].
  replace t with bestsize by lia.
  destruct (lookup_lt_is_Some_2 a (besti + bestsize) ltac:(lia)) as [x Hx].
  exists x. split; [done|]. by rewrite <-Heq.
Qed.

(** [find_longest_match] returns a match of equal lines. *)
Lemma find_longest_match_real (alo ahi blo bhi : nat) :
  alo ≤ ahi → ahi ≤ length a → blo ≤ bhi →
  real (find_longest_match a b alo ahi blo bhi).
Proof.
  intros Ha Hlen Hb. unfold find_longest_match.
  pose proof (scan_rows_within a b alo ahi blo bhi Ha Hb) as Hwithin.
  pose proof (scan_rows_real alo ahi blo bhi) as Hreal.
  destruct (scan_rows a b alo ahi blo bhi) as [[besti bestj] bestsize].
  pose proof (extend_left_within a b alo ahi blo bhi besti bestj bestsize Hwithin)
    as Hwithin'.
  pose proof (extend_left_real alo blo besti bestj bestsize) as Hreal'.
  destruct (extend_left a b alo blo besti bestj bestsize) as [[besti' bestj'] bestsize'].
  apply extend_right_real.
  - unfold within in Hwithin'. lia.
  - apply Hreal'; [unfold within in Hwithin; lia|done].
Qed.

End changed.
End ChangedProps.

Module ChainProps.
Import difflib MatcherProps ChangedProps.
Local Open Scope nat_scope.

(** The ranges [(alo, ahi, blo, bhi)] of the queue, and the range a match covers *)
Definition box : Type := nat * nat * nat * nat.

Definition box_of (m : Match) : box :=
  let '(i, j, k) := m in (i, i + k, j, j + k).

(** [x] ends, in [a] and in [b], where [y] begins or before. *)
Definition before (x y : box) : Prop :=
  let '(_, ahi, _, bhi) := x in
  let '(alo, _, blo, _) := y in
  ahi ≤ alo ∧ bhi ≤ blo.

Definition comparable (x y : box) : Prop := before x y ∨ before y x.

Definition inside (q x : box) : Prop :=
  let '(qalo, qahi, qblo, qbhi) := q in
  let '(alo, ahi, blo, bhi) := x in
  qalo ≤ alo ∧ ahi ≤ qahi ∧ qblo ≤ blo ∧ bhi ≤ qbhi.

(** Ranges that lie one after the other, in some order *)
Definition chain (l : list box) : Prop := StronglySorted comparable l.

Lemma comparable_sym (x y : box) : comparable x y → comparable y x.
Proof. unfold comparable. tauto. Qed.

Lemma comparable_inside (q x z : box) :
  inside q x → comparable q z → comparable x z.
Proof.
  destruct q as [[[qalo qahi] qblo] qbhi], x as [[[alo ahi] blo] bhi],
           z as [[[zalo zahi] zblo] zbhi].
  unfold comparable, before, inside. lia.
Qed.

Lemma chain_submseteq (l1 l2 : list box) : l1 ⊆+ l2 → chain l2 → chain l1.
Proof.
  unfold chain. induction 1 as [|x l1 l2 Hsub IH|x y l|x l1 l2 Hsub IH|l1 l2 l3 _ IH1 _ IH2];
    intros Hchain.
  - done.
  - apply StronglySorted_inv in Hchain as [Hl2 Hx].
    constructor; [by apply IH|].
    apply Forall_forall. intros z Hz. rewrite Forall_forall in Hx.
    apply Hx. by eapply elem_of_submseteq.
  - apply StronglySorted_inv in Hchain as [Hchain Hy].
    apply StronglySorted_inv in Hchain as [Hl Hx].
    apply Forall_cons in Hy as [Hyx Hy].
    constructor; [by constructor|]. constructor; [by apply comparable_sym|done].
  - apply StronglySorted_inv in Hchain as [Hl2 _]. by apply IH.
  - by apply IH1, IH2.
Qed.

Section chain.
Variables a b : list string.

(** A range within the two sequences *)
Definition range_in (r : box) : Prop :=
  let '(alo, ahi, blo, bhi) := r in
  alo ≤ ahi ∧ ahi ≤ length a ∧ blo ≤ bhi ∧ bhi ≤ length b.

(** Matches of equal lines that are not empty, lie within the sequences
    and cover ranges one after the other *)
Definition sound (blocks : list Match) : Prop :=
  Forall (real a b) blocks
  ∧ Forall (λ m, 0 < snd m ∧ range_in (box_of m)) blocks
  ∧ chain (map box_of blocks).

Lemma match_queue_sound (rounds : nat) (queue : list box) (blocks : list Match) :
  Forall range_in queue →
  Forall (real a b) blocks →
  Forall (λ m, 0 < snd m ∧ range_in (box_of m)) blocks →
  chain (map box_of blocks ++ queue) →
  sound (match_queue a b rounds queue blocks).
Proof.
  revert queue blocks.
  induction rounds as [|rounds IH]; intros queue blocks Hqueue Hreal Hpos Hchain.
  { split; [done|]. split; [done|].
    eapply chain_submseteq; [|exact Hchain]. solve_submseteq. }
  rewrite <-(reverse_involutive queue) in Hqueue, Hchain |- *.
  destruct (reverse queue) as [|[[[alo ahi] blo] bhi] rest].
  { simpl. split; [done|]. split; [done|].
    eapply chain_submseteq; [|exact Hchain]. solve_submseteq. }
  rewrite reverse_cons in Hqueue, Hchain |- *.
  apply Forall_app in Hqueue as [Hrest Hq].
  apply Forall_cons in Hq as [(Ha & Hla & Hb & Hlb) _].
  cbn [match_queue]. rewrite reverse_snoc, !reverse_involutive.
  pose proof (find_longest_match_within a b alo ahi blo bhi Ha Hb) as Hwithin.
  pose proof (find_longest_match_real a b alo ahi blo bhi Ha Hla Hb) as Hmatch.
  destruct (find_longest_match a b alo ahi blo bhi) as [[i j] k].
  destruct Hwithin as (Hi & Hik & Hj & Hjk).
  assert (Hothers : chain ((alo, ahi, blo, bhi) :: (map box_of blocks ++ reverse rest))).
  { eapply chain_submseteq; [|exact Hchain]. solve_submseteq. }
  apply StronglySorted_inv in Hothers as [Hothers Hq].
  case_bool_decide as Hk; [by apply IH|].
  set (M := (i, i + k, j, j + k)).
  set (L := (alo, i, blo, j)).
  set (R := (i + k, ahi, j + k, bhi)).
  assert (Hall : chain (M :: L :: R :: (map box_of blocks ++ reverse rest))).
  { assert (Hsub : ∀ x, inside (alo, ahi, blo, bhi) x →
                        Forall (comparable x) (map box_of blocks ++ reverse rest)).
    { intros x Hx. eapply Forall_impl; [exact Hq|].
      intros z Hz. by eapply comparable_inside. }
    constructor; [constructor; [constructor; [done|]|]|].
    - apply Hsub. unfold inside, R. lia.
    - constructor; [unfold comparable, before, L, R; lia|].
      apply Hsub. unfold inside, L. lia.
    - constructor; [unfold comparable, before, M, L; lia|].
      constructor; [unfold comparable, before, M, R; lia|].
      apply Hsub. unfold inside, M. lia. }
  apply IH.
  - repeat case_match; rewrite ?Forall_app; repeat split; try done;
      repeat constructor; simpl;
      repeat match goal with
      | E : _ && _ = true |- _ => apply andb_prop in E as [? ?]
      | E : bool_decide _ = true |- _ => apply bool_decide_eq_true in E
      end; lia.
  - apply Forall_app. split; [done|]. by constructor.
  - apply Forall_app. split; [done|]. constructor; [|done]. simpl. lia.
  - rewrite map_app. simpl. fold M.
    eapply chain_submseteq; [|exact Hall].
    destruct (_ && _), (_ && _); fold L R; solve_submseteq.
Qed.

(** The blocks the loop of [get_matching_blocks] collects *)
Lemma matching_blocks_sound :
  sound (match_queue a b (2 * length a + 1) [(0, length a, 0, length b)] []).
Proof.
  apply match_queue_sound; try done.
  - constructor; [|done]. simpl. lia.
  - simpl. repeat constructor.
Qed.

End chain.
End ChainProps.

Module TilingProps.
Import difflib MatcherProps ChangedProps ChainProps.
Local Open Scope nat_scope.

(** [x] ends where [y] begins or before. *)
Definition ordered (x y : Match) : Prop := before (box_of x) (box_of y).

Global Instance Match_le_trans : Transitive Match_le.
Proof. intros [[??]?] [[??]?] [[??]?]. unfold Match_le. lia. Qed.

Global Instance Match_le_total : Total Match_le.
Proof. intros [[??]?] [[??]?]. unfold Match_le. lia. Qed.

Lemma sorted_chain_ordered (l : list Match) :
  StronglySorted Match_le l →
  chain (map box_of l) →
  Forall (λ m, 0 < snd m) l →
  StronglySorted ordered l.
Proof.
  induction l as [|x l IH]; intros Hsorted Hchain Hpos; [constructor|].
  apply StronglySorted_inv in Hsorted as [Hsorted Hx].
  simpl in Hchain. apply StronglySorted_inv in Hchain as [Hchain Hcx].
  apply Forall_cons in Hpos as [Hposx Hpos].
  constructor; [by apply IH|].
  apply Forall_forall. intros y Hy.
  rewrite Forall_forall in Hx. rewrite Forall_forall in Hcx.
  rewrite Forall_forall in Hpos.
  specialize (Hx y Hy). specialize (Hpos y Hy).
  specialize (Hcx (box_of y) ltac:(by apply list_elem_of_fmap_2)).
  destruct x as [[i1 j1] k1], y as [[i2 j2] k2].
  unfold ordered, comparable, before, box_of, Match_le in *. simpl in *. lia.
Qed.

Section tiling.
Variables a b : list string.

Definition bounded (m : Match) : Prop :=
  let '(i, j, k) := m in i + k ≤ length a ∧ j + k ≤ length b.

Definition sentinel : Match := (length a, length b, 0).

Lemma real_sentinel : real a b sentinel.
Proof. intros t Ht. lia. Qed.

Lemma collapse_sorted (blocks : list Match) (i1 j1 k1 : nat) (non_adjacent : list Match) :
  StronglySorted ordered (non_adjacent ++ (i1, j1, k1) :: blocks) →
  Forall (real a b) (non_adjacent ++ (i1, j1, k1) :: blocks) →
  Forall bounded (non_adjacent ++ (i1, j1, k1) :: blocks) →
  StronglySorted ordered (collapse a b blocks i1 j1 k1 non_adjacent)
  ∧ Forall (real a b) (collapse a b blocks i1 j1 k1 non_adjacent)
  ∧ last (collapse a b blocks i1 j1 k1 non_adjacent) = Some sentinel.
Proof.
  revert i1 j1 k1 non_adjacent.
  induction blocks as [|[[i2 j2] k2] blocks IH]; intros i1 j1 k1 non_adjacent
    Hsorted Hreal Hbounded; cbn [collapse].
  - set (kept := if bool_decide (k1 ≠ 0) then (non_adjacent ++ [(i1, j1, k1)])%list
                 else non_adjacent).
    assert (Hkept : kept ⊆ (non_adjacent ++ [(i1, j1, k1)])%list
                    ∧ StronglySorted ordered kept ∧ Forall (real a b) kept).
    { subst kept. case_bool_decide; [done|]. split; [set_solver|].
      split; [by apply StronglySorted_app_1_l in Hsorted|].
      by apply Forall_app in Hreal as [? _]. }
    destruct Hkept as (Hsub & Hks & Hkr).
    split; [|split; [|apply last_snoc]].
    + apply StronglySorted_app_2; [|done|repeat constructor].
      intros x1 x2 Hx1%Hsub ->%list_elem_of_singleton.
      rewrite Forall_forall in Hbounded. specialize (Hbounded x1 Hx1).
      destruct x1 as [[i j] k]. unfold ordered, before, sentinel, bounded in *.
      simpl. lia.
    + apply Forall_app. split; [done|]. constructor; [apply real_sentinel|done].
  - apply StronglySorted_app in Hsorted as (Hcross & Hna & Hrest).
    apply StronglySorted_inv in Hrest as [Hrest Hopen].
    apply StronglySorted_inv in Hrest as [Hblocks Hsecond].
    apply Forall_cons in Hopen as [Hopen2 Hopen].
    apply Forall_app in Hreal as [Hreal_na Hreal].
    apply Forall_cons in Hreal as [Hreal1 Hreal].
    apply Forall_cons in Hreal as [Hreal2 Hreal].
    apply Forall_app in Hbounded as [Hb_na Hb].
    apply Forall_cons in Hb as [Hb1 Hb].
    apply Forall_cons in Hb as [Hb2 Hb].
    destruct (_ && _) eqn:Hadjacent.
    + apply andb_prop in Hadjacent as [Hi Hj].
      apply bool_decide_eq_true in Hi, Hj.
      apply IH.
      * apply StronglySorted_app_2; [|done|].
        -- intros x1 x2 Hx1 [->|Hx2]%elem_of_cons.
           ++ specialize (Hcross x1 (i1, j1, k1) Hx1 ltac:(by left)).
              destruct x1 as [[i j] k]. unfold ordered, before in *. simpl in *. lia.
           ++ apply Hcross; [done|]. by do 2 right.
        -- constructor; [done|].
           eapply Forall_impl; [exact Hsecond|]. intros [[i j] k].
           unfold ordered, before. simpl. lia.
      * apply Forall_app. split; [done|]. constructor; [|done].
        intros t Ht. destruct (decide (t < k1)) as [Hlt|Hge]; [by apply Hreal1|].
        destruct (Hreal2 (t - k1) ltac:(lia)) as (x & Ha & Hb').
        exists x. replace (i1 + t) with (i2 + (t - k1)) by lia.
        by replace (j1 + t) with (j2 + (t - k1)) by lia.
      * apply Forall_app. split; [done|]. constructor; [|done].
        unfold bounded in *. lia.
    + clear Hadjacent. destruct (bool_decide (k1 ≠ 0)).
      * apply IH; rewrite <-app_assoc; simpl.
        -- apply StronglySorted_app_2; [done|done|].
           constructor; [by constructor|by constructor].
        -- apply Forall_app. split; [done|]. constructor; [done|by constructor].
        -- apply Forall_app. split; [done|]. constructor; [done|by constructor].
      * apply IH.
        -- apply StronglySorted_app_2; [|done|by constructor].
           intros x1 x2 Hx1 Hx2. apply Hcross; [done|]. by right.
        -- apply Forall_app. split; [done|]. by constructor.
        -- apply Forall_app. split; [done|]. by constructor.
Qed.

(** The blocks [get_matching_blocks] returns: matches of equal lines, one
    after the other, and the last of them is the empty match at the end. *)
Lemma get_matching_blocks_sorted :
  StronglySorted ordered (get_matching_blocks a b)
  ∧ Forall (real a b) (get_matching_blocks a b)
  ∧ last (get_matching_blocks a b) = Some sentinel.
Proof.
  unfold get_matching_blocks.
  destruct (matching_blocks_sound a b) as (Hreal & Hpos & Hchain).
  set (blocks := match_queue a b (2 * length a + 1) [(0, length a, 0, length b)] [])
    in *.
  pose proof (merge_sort_Permutation Match_le blocks) as Hperm.
  apply (collapse_sorted _ 0 0 0 []); simpl.
  - constructor.
    + apply sorted_chain_ordered.
      * apply StronglySorted_merge_sort; apply _.
      * eapply chain_submseteq; [|exact Hchain].
        apply Permutation_submseteq. by apply fmap_Permutation.
      * rewrite Hperm. eapply Forall_impl; [exact Hpos|]. by intros m [? _].
    + apply Forall_forall. intros [[i j] k] _. unfold ordered, before. simpl. lia.
  - constructor; [intros t Ht; lia|]. by rewrite Hperm.
  - constructor; [simpl; lia|]. rewrite Hperm.
    eapply Forall_impl; [exact Hpos|]. intros [[i j] k] [_ Hin].
    unfold range_in, box_of in Hin. unfold bounded. lia.
Qed.

(** *** The opcodes *)

Lemma opcodes_from_app (blocks : list Match) (i j : nat) (answer : list opcode) :
  opcodes_from blocks i j answer = (answer ++ opcodes_from blocks i j [])%list.
Proof.
  revert i j answer. induction blocks as [|[[ai bj] size] blocks IH]; intros i j answer.
  { simpl. by rewrite app_nil_r. }
  cbn [opcodes_from]. rewrite IH. symmetry. rewrite IH. symmetry.
  repeat case_match; simpl; by rewrite <-?app_assoc.
Qed.

(** Where the loop of [get_opcodes] stands after [blocks] *)
Definition final (i j : nat) (blocks : list Match) : nat * nat :=
  foldl (λ _ '(ai, bj, size), (ai + size, bj + size)) (i, j) blocks.

Definition unchanged (c : opcode) : Prop := op_tag c = equal.

Global Instance unchanged_dec c : Decision (unchanged c).
Proof. unfold unchanged. apply _. Defined.

(** When every opcode is [equal], the blocks tile both sequences. *)
Lemma opcodes_from_tile (blocks : list Match) (i j : nat) :
  StronglySorted ordered blocks →
  Forall (real a b) blocks →
  Forall (λ m, i ≤ m.1.1 ∧ j ≤ m.1.2) blocks →
  Forall unchanged (opcodes_from blocks i j []) →
  i ≤ (final i j blocks).1
  ∧ (final i j blocks).1 - i = (final i j blocks).2 - j
  ∧ j ≤ (final i j blocks).2
  ∧ ∀ t, t < (final i j blocks).1 - i →
         ∃ x, a !! (i + t) = Some x ∧ b !! (j + t) = Some x.
Proof.
  revert i j. induction blocks as [|[[ai bj] size] blocks IH]; intros i j
    Hsorted Hreal Hstart Hequal.
  { simpl. split; [lia|]. split; [lia|]. split; [lia|]. intros t Ht. lia. }
  apply StronglySorted_inv in Hsorted as [Hsorted Hfirst].
  apply Forall_cons in Hreal as [Hreal1 Hreal].
  apply Forall_cons in Hstart as [[Hi Hj] Hstart]. simpl in Hi, Hj.
  cbn [opcodes_from] in Hequal. rewrite opcodes_from_app in Hequal.
  apply Forall_app in Hequal as [Hhead Hequal].
  assert (Hsame : i = ai ∧ j = bj).
  { revert Hhead. 
    destruct (bool_decide (i < ai)) eqn:E1, (bool_decide (j < bj)) eqn:E2; simpl.
    - destruct (bool_decide (size ≠ 0)); simpl;
        intros [Hc _]%Forall_cons; discriminate Hc.
    - destruct (bool_decide (size ≠ 0)); simpl;
        intros [Hc _]%Forall_cons; discriminate Hc.
    - destruct (bool_decide (size ≠ 0)); simpl;
        intros [Hc _]%Forall_cons; discriminate Hc.
    - intros _. apply bool_decide_eq_false in E1, E2. lia. }
  destruct Hsame as [<- <-].
  destruct (IH (i + size) (j + size)) as (Hle & Hlen & Hle' & Hrest); try done.
  { eapply Forall_impl; [exact Hfirst|]. intros [[i2 j2] k2].
    unfold ordered, before. simpl. lia. }
  change (final i j ((i, j, size) :: blocks)) with (final (i + size) (j + size) blocks).
  split; [lia|]. split; [lia|]. split; [lia|].
  intros t Ht. destruct (decide (t < size)) as [Hlt|Hge]; [by apply Hreal1|].
  destruct (Hrest (t - size) ltac:(lia)) as (x & Ha & Hb).
  exists x. replace (i + t) with (i + size + (t - size)) by lia.
  by replace (j + t) with (j + size + (t - size)) by lia.
Qed.

Lemma final_last (blocks : list Match) (i j : nat) (m : Match) :
  last blocks = Some m → final i j blocks = (m.1.1 + m.2, m.1.2 + m.2).
Proof.
  intros Hlast. destruct blocks as [|m0 blocks] using rev_ind; [done|].
  rewrite last_snoc in Hlast. injection Hlast as ->.
  unfold final. rewrite foldl_app. simpl. by destruct m as [[ai bj] size].
Qed.

(** Two sequences whose opcodes are all [equal] are the same sequence. *)
Lemma get_opcodes_unchanged : Forall unchanged (get_opcodes a b) → a = b.
Proof.
  intros Hequal. unfold get_opcodes in Hequal.
  destruct get_matching_blocks_sorted as (Hsorted & Hreal & Hlast).
  destruct (opcodes_from_tile (get_matching_blocks a b) 0 0)
    as (_ & Hlen & _ & Hlines); try done.
  { apply Forall_forall. intros m _. lia. }
  rewrite (final_last _ _ _ _ Hlast) in Hlen, Hlines. simpl in Hlen, Hlines.
  rewrite !Nat.add_0_r, !Nat.sub_0_r in *.
  apply list_eq. intros t.
  destruct (decide (t < length a)) as [Hlt|Hge].
  - destruct (Hlines t Hlt) as (x & Ha & Hb). simpl in Ha, Hb. congruence.
  - rewrite !lookup_ge_None_2; [done|lia|lia].
Qed.

End tiling.
End TilingProps.

Module GroupProps.
Import difflib MatcherProps ChangedProps ChainProps TilingProps.
Local Open Scope nat_scope.

Definition changed (c : opcode) : Prop := op_tag c ≠ equal.

Lemma tags_fix_first (n : nat) (codes : list opcode) :
  map op_tag (fix_first n codes) = map op_tag codes.
Proof. by destruct codes as [|[[[[[] ?] ?] ?] ?] ?]. Qed.

Lemma tags_fix_last (n : nat) (codes : list opcode) :
  map op_tag (fix_last n codes) = map op_tag codes.
Proof.
  unfold fix_last. destruct (reverse codes) as [|[[[[t i1] i2] j1] j2] rest] eqn:Hrev;
    [done|].
  apply (f_equal reverse) in Hrev. rewrite reverse_involutive, reverse_cons in Hrev.
  destruct t; try done. subst codes. by rewrite !map_app.
Qed.

Lemma changed_tags (codes1 codes2 : list opcode) :
  map op_tag codes1 = map op_tag codes2 →
  Exists changed codes1 → Exists changed codes2.
Proof.
  revert codes2. induction codes1 as [|c1 codes1 IH]; intros [|c2 codes2] Htags Hex;
    try done.
  injection Htags as Htag Htags.
  apply Exists_cons in Hex as [Hc|Hex].
  - left. unfold changed in *. by rewrite <-Htag.
  - right. by apply IH.
Qed.

(** A group is yielded once there is an opcode that is not [equal]. *)
Lemma group_from_changed (n : nat) (codes : list opcode)
    (groups : list (list opcode)) (group : list opcode) :
  Exists changed codes ∨ Exists changed group ∨ groups ≠ [] →
  group_from n codes groups group ≠ [].
Proof.
  revert groups group. induction codes as [|[[[[t i1] i2] j1] j2] codes IH];
    intros groups group Hsome.
  - simpl. destruct Hsome as [Hex|[Hex|Hgroups]].
    + by apply Exists_nil in Hex.
    + destruct group as [|[[[[t i1] i2] j1] j2] [|c group]].
      * by apply Exists_nil in Hex.
      * apply Exists_cons in Hex as [Hc|Hex]; [|by apply Exists_nil in Hex].
        destruct t; try (by destruct groups); by destruct Hc.
      * destruct t; by destruct groups.
    + destruct group as [|[[[[[] i1] i2] j1] j2] [|c group]]; try done;
        by destruct groups.
  - cbn [group_from]. destruct (_ && _).
    + apply IH. do 2 right. by destruct groups.
    + apply IH. destruct Hsome as [Hex|[Hex|Hgroups]].
      * apply Exists_cons in Hex as [Hc|Hex]; [|by left].
        right; left. apply Exists_app. right. by left.
      * right; left. apply Exists_app. by left.
      * by do 2 right.
Qed.

Section groups.
Variables a b : list string.

Lemma get_opcodes_changed : a ≠ b → Exists changed (get_opcodes a b).
Proof.
  intros Hne. apply not_Forall_Exists; [apply _|].
  intros Hequal. by apply Hne, get_opcodes_unchanged.
Qed.

(** Two sequences that differ have a group of opcodes, for any context [n]. *)
Lemma get_grouped_opcodes_changed (n : nat) : a ≠ b → get_grouped_opcodes a b n ≠ [].
Proof.
  intros Hex%get_opcodes_changed. unfold get_grouped_opcodes.
  apply group_from_changed. left.
  apply (changed_tags (get_opcodes a b)); [|done].
  rewrite tags_fix_last, tags_fix_first.
  destruct (get_opcodes a b); [by apply Exists_nil in Hex|done].
Qed.

(** [unified_diff] yields no line exactly when the two sequences are equal. *)
Lemma unified_diff_nil (fromfile tofile lineterm : string) :
  unified_diff a b fromfile tofile lineterm = [] ↔ a = b.
Proof.
  split; [|intros <-; apply EqualProps.unified_diff_equal].
  intros Hnil. destruct (decide (a = b)) as [|Hne]; [done|].
  apply (get_grouped_opcodes_changed 3) in Hne.
  unfold unified_diff in Hnil. by destruct (get_grouped_opcodes a b 3).
Qed.

(** The text of the diff is empty exactly when the two sequences are equal. *)
Lemma join_unified_diff_empty (fromfile tofile lineterm : string) :
  py.join (unified_diff a b fromfile tofile lineterm) = EmptyString ↔ a = b.
Proof.
  rewrite <-(unified_diff_nil fromfile tofile lineterm).
  split; [|by intros ->].
  unfold unified_diff. by destruct (get_grouped_opcodes a b 3).
Qed.

End groups.

Lemma splitlines_inj (s1 s2 : string) : py.splitlines s1 = py.splitlines s2 → s1 = s2.
Proof.
  intros Heq. rewrite <-(TextProps.join_splitlines s1), <-(TextProps.join_splitlines s2).
  by rewrite Heq.
Qed.

(** X26: the diff texts are empty exactly when nothing changed.
    [FixApplicator._generate_diff(original, fixed, filename)] and
    [PatchGenerator.generate_patch(original_code, fixed_code, file_path)]
    return the empty text if and only if the two contents are the same
    text; two contents that differ in any character, a line ending
    included, give a diff that is not empty. *)
Theorem diff_empty_iff_unchanged (original fixed filename : string) :
  (FixApplicator._generate_diff original fixed filename = EmptyString ↔ original = fixed)
  ∧ (PatchGenerator.generate_patch original fixed filename = EmptyString
     ↔ original = fixed).
Proof.
  unfold FixApplicator._generate_diff, PatchGenerator.generate_patch. cbv zeta.
  rewrite !join_unified_diff_empty.
  split; (split; [apply splitlines_inj|by intros ->]).
Qed.

End GroupProps.
